(** * job_shop_lib: the incremental dispatching engine and its observers

    A shallow embedding of the feature observers and of the residual graph
    updater of job_shop_lib, together with the dispatcher they observe, of the
    factory of the feature observers, and of the frame files of the GIF
    export.

    Conventions.
    - Ids (operations, jobs, machines, graph nodes) are non-negative and
      modelled as [nat]; times, durations, counters and table entries are [Z].
    - A numpy array of shape (n, k) is a list of n rows, each a list of k
      entries.  The counters are int arrays and the feature tables float32
      arrays.  Every value the observers write is an integer: a count or a
      0/1 flag, which a float32 holds as it is, or a difference of integer
      times, which is rounded to a float32 when it is stored ([np.float32])
      and is kept as it is up to 2^24 in magnitude.
    - A Python method that mutates [self] and may raise is a function from
      the object to an [outcome]: the object as the method left it, together
      with the exception when one was raised.  A function that only computes
      a value returns a [result]. *)

From Stdlib Require Import ZArith DecimalString.
From stdpp Require Import base option list gmap strings sorting.

Local Open Scope Z_scope.

(** ** Exceptions and the two error monads *)

Inductive exn : Set :=
  | ValidationError
  | UninitializedAttributeError
  | IndexError
  | KeyError
  | NameError
  | ValueError.

#[global] Instance exn_eq_dec : EqDecision exn.
Proof. solve_decision. Defined.

Inductive result (A : Type) : Type :=
  | Ok (a : A)
  | Raise (e : exn).
Arguments Ok {A} a.
Arguments Raise {A} e.

#[global] Instance result_ret : MRet result := λ A a, Ok a.
#[global] Instance result_bind : MBind result := λ A B f r,
  match r with Ok a => f a | Raise e => Raise e end.

Definition of_option {A} (e : exn) (o : option A) : result A :=
  match o with Some a => Ok a | None => Raise e end.

(** The state a method leaves behind, with the exception it raised if any. *)
Inductive outcome (S : Type) : Type :=
  | Done (s : S)
  | Raised (e : exn) (s : S).
Arguments Done {S} s.
Arguments Raised {S} e s.

Definition final_state {S} (o : outcome S) : S :=
  match o with Done s => s | Raised _ s => s end.

Definition and_then {S} (o : outcome S) (f : S → outcome S) : outcome S :=
  match o with Done s => f s | Raised e s => Raised e s end.

Notation "o ;;; f" := (and_then o f) (at level 61, left associativity).

(** [for x in xs: body(x)] on a mutable object. *)
Fixpoint for_each {A S} (body : A → S → outcome S) (xs : list A) (s : S)
  : outcome S :=
  match xs with
  | [] => Done s
  | x :: xs' => body x s ;;; for_each body xs'
  end.

(** ** numpy arrays of shape (n, k) *)

Abbreviation Table := (list (list Z)).

Module np.

Definition zeros (n k : nat) : Table := replicate n (replicate k 0).

(** [t[i, j]] *)
Definition item (t : Table) (i j : nat) : option Z :=
  row ← t !! i; row !! j.

(** [t[i, j] = v]; [None] stands for numpy's IndexError. *)
Definition set_item (t : Table) (i j : nat) (v : Z) : option Table :=
  row ← t !! i;
  if decide (j < length row)%nat then Some (<[i := <[j := v]> row]> t)
  else None.

(** [t[idx, 0]] with a list of row indices: the gathered column. *)
Definition take (t : Table) (idx : list nat) : option (list Z) :=
  mapM (λ i, item t i 0%nat) idx.

(** [t[idx, 0] = vals]: assignments in index order, a later one wins. *)
Fixpoint put (t : Table) (idx : list nat) (vals : list Z) : option Table :=
  match idx, vals with
  | i :: idx', v :: vals' => t' ← set_item t i 0%nat v; put t' idx' vals'
  | _, _ => Some t
  end.

(** [t[idx, 0] += c]: numpy gathers [t[idx, 0]], adds, and assigns back, so
    an index listed twice is still incremented once. *)
Definition iadd (t : Table) (idx : list nat) (c : Z) : option Table :=
  vals ← take t idx; put t idx ((λ v, v + c) <$> vals).

(** [t[i, 0] += c] with a scalar row index. *)
Definition iadd1 (t : Table) (i : nat) (c : Z) : option Table :=
  v ← item t i 0%nat; set_item t i 0%nat (v + c).

(** [t[:, 0] = v] *)
Definition fill_col0 (t : Table) (v : Z) : option Table :=
  mapM (λ row : list Z,
          match row with [] => None | _ :: rest => Some (v :: rest) end) t.

(** The shape (n, k). *)
Definition shape (t : Table) (n k : nat) : Prop :=
  length t = n ∧ Forall (λ row, length row = k) t.

(** A boolean stored in a numeric array. *)
Definition of_bool (b : bool) : Z := if b then 1 else 0.

(** The integers an entry of a float32 array holds as they are. *)
Definition exact_in_float32 (v : Z) : Prop := - 2 ^ 24 ≤ v ≤ 2 ^ 24.

(** [numpy.float32(v)] for an integer [v], the value an entry of a float32
    array holds after [v] was assigned to it: [v] itself up to 2^24 in
    magnitude, and beyond that the nearest number with a significand of 24
    bits, a tie going to the even significand.  This is the rounding of the
    integers below 2^53 in magnitude, which are converted without a rounding
    of their own. *)
Definition float32 (v : Z) : Z :=
  let a := Z.abs v in
  if decide (a ≤ 2 ^ 24) then v
  else
    let ulp := 2 ^ (Z.log2 a - 23) in
    let q := a / ulp in
    let r := a mod ulp in
    let q' := if decide (2 * r < ulp) then q
              else if decide (ulp < 2 * r) then q + 1
              else if Z.even q then q else q + 1 in
    Z.sgn v * (q' * ulp).

(** [t[:] = v] *)
Definition fill (t : Table) (v : Z) : Table :=
  (λ row : list Z, (λ _, v) <$> row) <$> t.

End np.

(** ** The instance model *)

Record Operation : Set := {
  operation_id : nat;
  job_id : nat;
  position_in_job : nat;
  machines : list nat;
  duration : Z;
}.

#[global] Instance Operation_eq_dec : EqDecision Operation.
Proof. solve_decision. Defined.

Record ScheduledOperation : Set := {
  operation : Operation;
  start_time : Z;
  machine_id : nat;
}.

#[global] Instance ScheduledOperation_eq_dec : EqDecision ScheduledOperation.
Proof. solve_decision. Defined.

Definition end_time (so : ScheduledOperation) : Z :=
  start_time so + duration (operation so).

(** Modelled from the spec: JobShopInstance (job_shop_instance.py is not among
    the sources).  An instance is its list of jobs, each the list of its
    operations in position order; the machines are the dense ids
    0 .. [num_machines] - 1, up to the largest id an operation names. *)
Record JobShopInstance : Set := {
  jobs : list (list Operation);
}.

Definition operations (inst : JobShopInstance) : list Operation :=
  mjoin (jobs inst).

Definition num_jobs (inst : JobShopInstance) : nat := length (jobs inst).

Definition num_operations (inst : JobShopInstance) : nat :=
  length (operations inst).

Definition num_machines (inst : JobShopInstance) : nat :=
  match operations inst ≫= machines with
  | [] => 0%nat
  | ms => S (max_list ms)
  end.

(** The instance of the concrete scenario of the spec: two jobs on two
    machines, job 0 = [(machine 0, 3), (machine 1, 2)] and
    job 1 = [(machine 1, 4), (machine 0, 1)]. *)
Module Example.

Definition op00 : Operation :=
  {| operation_id := 0; job_id := 0; position_in_job := 0;
     machines := [0%nat]; duration := 3 |}.
Definition op01 : Operation :=
  {| operation_id := 1; job_id := 0; position_in_job := 1;
     machines := [1%nat]; duration := 2 |}.
Definition op10 : Operation :=
  {| operation_id := 2; job_id := 1; position_in_job := 0;
     machines := [1%nat]; duration := 4 |}.
Definition op11 : Operation :=
  {| operation_id := 3; job_id := 1; position_in_job := 1;
     machines := [0%nat]; duration := 1 |}.

Definition two_by_two : JobShopInstance :=
  {| jobs := [[op00; op01]; [op10; op11]] |}.

(** Two jobs of one operation each, each on a machine of its own. *)
Definition opA : Operation :=
  {| operation_id := 0; job_id := 0; position_in_job := 0;
     machines := [0%nat]; duration := 3 |}.
Definition opB : Operation :=
  {| operation_id := 1; job_id := 1; position_in_job := 0;
     machines := [1%nat]; duration := 4 |}.

Definition one_each : JobShopInstance := {| jobs := [[opA]; [opB]] |}.

(** Three jobs on three machines, the second operation of job 0 with a choice
    of two machines: job 0 = [(machine 0, 5), (machine 1 or 2, 2)],
    job 1 = [(machine 1, 7)] and job 2 = [(machine 2, 4)]. *)
Definition f00 : Operation :=
  {| operation_id := 0; job_id := 0; position_in_job := 0;
     machines := [0%nat]; duration := 5 |}.
Definition f01 : Operation :=
  {| operation_id := 1; job_id := 0; position_in_job := 1;
     machines := [1%nat; 2%nat]; duration := 2 |}.
Definition f10 : Operation :=
  {| operation_id := 2; job_id := 1; position_in_job := 0;
     machines := [1%nat]; duration := 7 |}.
Definition f20 : Operation :=
  {| operation_id := 3; job_id := 2; position_in_job := 0;
     machines := [2%nat]; duration := 4 |}.

Definition flexible : JobShopInstance := {| jobs := [[f00; f01]; [f10]; [f20]] |}.

(** One job of two operations on one machine, the first of which lasts
    2^24 + 1. *)
Definition l00 : Operation :=
  {| operation_id := 0; job_id := 0; position_in_job := 0;
     machines := [0%nat]; duration := 16777217 |}.
Definition l01 : Operation :=
  {| operation_id := 1; job_id := 0; position_in_job := 1;
     machines := [0%nat]; duration := 1 |}.

Definition long_job : JobShopInstance := {| jobs := [[l00; l01]] |}.

End Example.

(** ** FeatureObserver: the base class of the feature observers
    (dispatching/feature_observers/_feature_observer.py) *)

Inductive FeatureType : Set := OPERATIONS | MACHINES | JOBS.

#[global] Instance FeatureType_eq_dec : EqDecision FeatureType.
Proof. solve_decision. Defined.

#[global] Instance FeatureType_countable : Countable FeatureType.
Proof.
  refine (inj_countable'
    (λ ft, match ft with OPERATIONS => 0 | MACHINES => 1 | JOBS => 2 end%nat)
    (λ n, match n with 0 => OPERATIONS | 1 => MACHINES | _ => JOBS end%nat) _).
  by intros [].
Defined.

(** The feature tables of an observer: [self.features]. *)
Abbreviation Features := (gmap FeatureType Table).

(** The constructor argument
    [feature_types: list[FeatureType] | FeatureType | None]. *)
Inductive feature_types_arg : Set :=
  | FtNone
  | FtOne (ft : FeatureType)
  | FtList (fts : list FeatureType).

(** The class attribute [_feature_size: dict[FeatureType, int] | int]. *)
Inductive feature_size_attr : Type :=
  | SizeInt (n : nat)
  | SizeDict (sizes : gmap FeatureType nat).

Module FeatureObserver.

(** The class attributes a subclass may override. *)
Record class : Type := {
  _is_singleton : bool;
  _feature_size : feature_size_attr;
  _supported_feature_types : list FeatureType;
}.

(** [list(FeatureType)] *)
Definition all_feature_types : list FeatureType := [OPERATIONS; MACHINES; JOBS].

(** The attributes of [FeatureObserver] itself. *)
Definition base : class := {|
  _is_singleton := false;
  _feature_size := SizeInt 1;
  _supported_feature_types := all_feature_types;
|}.

(** A subclass that declares the operations table as the only supported
    one: [_supported_feature_types = [FeatureType.OPERATIONS]]. *)
Definition operations_only : class := {|
  _is_singleton := false;
  _feature_size := SizeInt 1;
  _supported_feature_types := [OPERATIONS];
|}.

(** The loop of [_get_feature_types_list] over a list argument. *)
Fixpoint check_supported (cls : class) (fts : list FeatureType) : result unit :=
  match fts with
  | [] => Ok ()
  | ft :: fts' =>
      if decide (ft ∈ _supported_feature_types cls) then check_supported cls fts'
      else Raise ValidationError
  end.

Definition _get_feature_types_list (cls : class) (feature_types : feature_types_arg)
  : result (list FeatureType) :=
  match feature_types with
  | FtOne ft => Ok [ft]
  | FtNone => Ok (_supported_feature_types cls)
  | FtList fts => _ ← check_supported cls fts; Ok fts
  end.

Definition number_of_entities (inst : JobShopInstance) (ft : FeatureType) : nat :=
  match ft with
  | OPERATIONS => num_operations inst
  | MACHINES => num_machines inst
  | JOBS => num_jobs inst
  end.

(** The local [feature_size] of [__init__]: bound only when [_feature_size] is
    an int, to the dictionary [{ft: _feature_size for ft in feature_types}]. *)
Definition local_feature_size (cls : class) (fts : list FeatureType)
  : option (gmap FeatureType nat) :=
  match _feature_size cls with
  | SizeInt n => Some (list_to_map ((λ ft, (ft, n)) <$> reverse fts))
  | SizeDict _ => None
  end.

(** [self.feature_dimensions]: one (rows, columns) pair per requested type.
    Reading the unbound local raises NameError, a missing key KeyError. *)
Definition feature_dimensions (cls : class) (inst : JobShopInstance)
    (fts : list FeatureType) : result (list (FeatureType * (nat * nat))) :=
  let feature_size := local_feature_size cls fts in
  mapM (M := result) (λ ft,
    sizes ← of_option NameError feature_size;
    k ← of_option KeyError (sizes !! ft);
    Ok (ft, (number_of_entities inst ft, k))) fts.

(** [self.features]: a dict comprehension, so a later duplicate key
    overwrites an earlier one. *)
Definition make_features (dims : list (FeatureType * (nat * nat))) : Features :=
  list_to_map ((λ '(ft, (n, k)), (ft, np.zeros n k)) <$> reverse dims).

(** [__init__] up to the final call of [self.initialize_features()], which a
    subclass overrides and which does nothing in the base class. *)
Definition new_features (cls : class) (inst : JobShopInstance)
    (feature_types : feature_types_arg) : result Features :=
  fts ← _get_feature_types_list cls feature_types;
  dims ← feature_dimensions cls inst fts;
  Ok (make_features dims).

(** The property [feature_size]: for an int [_feature_size], the dictionary
    [{feature_type: self._feature_size for feature_type in self.features}]. *)
Definition feature_size (cls : class) (features : Features) : gmap FeatureType nat :=
  match _feature_size cls with
  | SizeInt n => (λ _, n) <$> features
  | SizeDict sizes => sizes
  end.

(** The argument [exclude: FeatureType | list[FeatureType] | None] as the
    list [set_features_to_zero] makes of it. *)
Definition excluded (exclude : feature_types_arg) : list FeatureType :=
  match exclude with
  | FtNone => []
  | FtOne ft => [ft]
  | FtList fts => fts
  end.

(** [set_features_to_zero(exclude)]: every table is overwritten in place,
    unless its feature type is excluded. *)
Definition set_features_to_zero (exclude : feature_types_arg) (features : Features)
  : Features :=
  map_imap (λ ft t, Some (if decide (ft ∈ excluded exclude) then t
                          else np.fill t 0))
           features.

End FeatureObserver.

(** ** The schedule and the dispatching engine *)

(** Modelled from the spec: Schedule (schedule.py is not among the sources).
    One sequence of scheduled operations per machine, in commit order. *)
Abbreviation Schedule := (list (list ScheduledOperation)).

Module Schedule.

Definition scheduled (s : Schedule) : list ScheduledOperation := mjoin s.

(** End of the operation that was added last to machine [m]. *)
Definition previous_end (s : Schedule) (m : nat) : option Z :=
  seq ← s !! m; end_time <$> last seq.

(** The scheduled operations that are the job predecessor of [op]: same job,
    position one less. *)
Definition job_predecessors (s : Schedule) (op : Operation)
  : list ScheduledOperation :=
  filter (λ so, job_id (operation so) = job_id op
                ∧ S (position_in_job (operation so)) = position_in_job op)
         (scheduled s).

(** The ordering checks of [add]: start before the previous end on the
    machine, or before the end of the job predecessor. *)
Definition violates_order (s : Schedule) (so : ScheduledOperation) : bool :=
  match previous_end s (machine_id so) with
  | Some e => bool_decide (start_time so < e)
  | None => false
  end
  || existsb (λ p, bool_decide (start_time so < end_time p))
             (job_predecessors s (operation so)).

Definition add (s : Schedule) (so : ScheduledOperation) : result Schedule :=
  if violates_order s so then Raise ValidationError
  else Ok (alter (λ seq, seq ++ [so]) (machine_id so) s).

End Schedule.

(** Modelled from the spec: the Dispatcher (the dispatching package's
    dispatcher module is not among the sources).  The spec names the lookups
    [machine_next_available_time[m]] and [job_next_available_time[job]] without
    saying what an id outside the instance does; here such a lookup reads 0, the
    value every entry starts from, and such an assignment changes nothing. *)
Module Dispatcher.

Record state : Set := {
  instance : JobShopInstance;
  schedule : Schedule;
  machine_next_available_time : list Z;
  job_next_available_time : list Z;
  unscheduled : list Operation;
  last_committed : option ScheduledOperation;
}.

(** The engine over an empty schedule. *)
Definition new (inst : JobShopInstance) : state := {|
  instance := inst;
  schedule := replicate (num_machines inst) [];
  machine_next_available_time := replicate (num_machines inst) 0;
  job_next_available_time := replicate (num_jobs inst) 0;
  unscheduled := operations inst;
  last_committed := None;
|}.

Definition unscheduled_operations (d : state) : list Operation := unscheduled d.

Definition scheduled_operations (d : state) : list Operation :=
  operation <$> Schedule.scheduled (schedule d).

Definition is_scheduled (d : state) (op : Operation) : bool :=
  bool_decide (op ∈ scheduled_operations d).

(** Start of the most recently committed operation, 0 before the first. *)
Definition current_time (d : state) : Z :=
  match last_committed d with
  | Some so => start_time so
  | None => 0
  end.

(** The minimum of a list of times (0 on the empty list, which no operation
    of a validated instance produces). *)
Definition minimum (ts : list Z) : Z :=
  match ts with
  | [] => 0
  | t :: ts' => foldr Z.min t ts'
  end.

(** [earliest_start_time(operation)] and, with [Some m], the entry for the
    machine [m] the caller is choosing: the machine term of the maximum is
    then the entry of [m] alone instead of the minimum over the eligible
    machines. *)
Definition earliest_start_time (d : state) (op : Operation) (machine : option nat)
  : Z :=
  let machine_time :=
    match machine with
    | Some m => machine_next_available_time d !!! m
    | None => minimum ((λ m, machine_next_available_time d !!! m) <$> machines op)
    end in
  Z.max (job_next_available_time d !!! job_id op) machine_time.

(** The three preconditions of [commit], in the order the spec lists them. *)
Definition check_commit (d : state) (op : Operation) (machine : nat) (start : Z)
  : result unit :=
  if negb (bool_decide (machine ∈ machines op)) then Raise ValidationError
  else if is_scheduled d op then Raise ValidationError
  else if bool_decide (start < earliest_start_time d op (Some machine))
       then Raise ValidationError
  else Ok ().

(** The engine's part of [commit]: everything up to the notifications. *)
Definition commit_engine (d : state) (op : Operation) (machine : nat) (start : Z)
  : result (state * ScheduledOperation) :=
  _ ← check_commit d op machine start;
  let so := {| operation := op; start_time := start; machine_id := machine |} in
  sched ← Schedule.add (schedule d) so;
  Ok ({| instance := instance d;
         schedule := sched;
         machine_next_available_time :=
           <[machine := end_time so]> (machine_next_available_time d);
         job_next_available_time :=
           <[job_id op := end_time so]> (job_next_available_time d);
         unscheduled := filter (λ o, o ≠ op) (unscheduled d);
         last_committed := Some so |}, so).

(** The state [commit_engine] returns when the checks pass and the schedule
    accepts the operation. *)
Definition committed (d : state) (op : Operation) (machine : nat) (start : Z)
  : state :=
  let so := {| operation := op; start_time := start; machine_id := machine |} in
  {| instance := instance d;
     schedule := alter (λ seq, seq ++ [so]) machine (schedule d);
     machine_next_available_time :=
       <[machine := end_time so]> (machine_next_available_time d);
     job_next_available_time :=
       <[job_id op := end_time so]> (job_next_available_time d);
     unscheduled := filter (λ o, o ≠ op) (unscheduled d);
     last_committed := Some so |}.

(** *** The observer protocol *)

Section Observed.

(** Modelled from the spec: the Observer protocol (DispatcherObserver is not
    among the sources).  An observer owns private derived state; its [update]
    may read the engine and the other subscribers, changes only its own
    state, and may raise after it has changed it.  The engine catches nothing
    an observer raises ("no error is silently swallowed"): the exception ends
    the commit, with the engine and the observers as they are by then. *)
Context {Obs : Type}.
Context (update : state → list Obs → ScheduledOperation → Obs → outcome Obs).

Record world : Type := {
  engine : state;
  subscribers : list Obs;
}.

(** [update(scheduled_operation)] on the subscriber at position [i]. *)
Definition notify_one (d : state) (so : ScheduledOperation) (i : nat)
    (subs : list Obs) : outcome (list Obs) :=
  match subs !! i with
  | Some o =>
      match update d subs so o with
      | Done o' => Done (<[i := o']> subs)
      | Raised e o' => Raised e (<[i := o']> subs)
      end
  | None => Done subs
  end.

(** [update(scheduled_operation)] on every subscriber, in subscription order;
    a later subscriber sees the earlier ones already updated, and is not
    reached when an earlier one raises. *)
Definition notify (d : state) (so : ScheduledOperation) (subs : list Obs)
  : outcome (list Obs) :=
  for_each (notify_one d so) (seq 0 (length subs)) subs.

Definition commit (w : world) (op : Operation) (machine : nat) (start : Z)
  : outcome world :=
  match commit_engine (engine w) op machine start with
  | Raise e => Raised e w
  | Ok (d, so) =>
      match notify d so (subscribers w) with
      | Done subs => Done {| engine := d; subscribers := subs |}
      | Raised e subs => Raised e {| engine := d; subscribers := subs |}
      end
  end.

Definition subscribe (w : world) (o : Obs) : world :=
  {| engine := engine w; subscribers := subscribers w ++ [o] |}.


End Observed.

(** Modelled from the spec: the validation of an instance (section 4.1), at
    least one eligible machine and a non-negative duration for every
    operation; the job id of an operation is the index of its job. *)
Definition valid_operation (j : nat) (op : Operation) : Prop :=
  job_id op = j ∧ machines op ≠ [] ∧ 0 ≤ duration op.

Definition valid_instance (inst : JobShopInstance) : Prop :=
  Forall (λ '(j, ops), Forall (valid_operation j) ops)
         (imap (λ j ops, (j, ops)) (jobs inst)).

#[global] Instance valid_instance_dec inst : Decision (valid_instance inst).
Proof.
  apply Forall_dec. intros [j ops]. apply Forall_dec. intros op.
  unfold valid_operation. apply _.
Defined.

(** What the derived indices promise about the schedule they are derived
    from: every scheduled operation is an operation of the instance, sits in
    the sequence of the machine it was committed to, a machine eligible for
    it, and has ended by the next-available times of its machine and of its
    job; the unscheduled operations are the operations of the instance that
    are not in the schedule. *)
Record consistent (inst : JobShopInstance) (d : state) : Prop := {
  consistent_instance : instance d = inst;
  consistent_schedule : length (schedule d) = num_machines inst;
  consistent_machines : length (machine_next_available_time d) = num_machines inst;
  consistent_jobs : length (job_next_available_time d) = num_jobs inst;
  consistent_scheduled : ∀ m seq so,
    schedule d !! m = Some seq → so ∈ seq →
    machine_id so = m
    ∧ operation so ∈ operations inst
    ∧ m ∈ machines (operation so)
    ∧ end_time so ≤ machine_next_available_time d !!! m
    ∧ end_time so ≤ job_next_available_time d !!! job_id (operation so);
  consistent_unscheduled :
    unscheduled d = filter (λ o, o ∉ scheduled_operations d) (operations inst);
}.

End Dispatcher.

(** ** The observers and the subscriber list *)

(** The attributes of an [IsCompletedObserver]. *)
Record IsCompletedObserver : Type := {
  features : Features;
  remaining_ops_per_machine : Table;
  remaining_ops_per_job : Table;
}.

(** The nodes of a graph. *)
Inductive NodeType : Set := OPERATION | MACHINE | JOB.

#[global] Instance NodeType_eq_dec : EqDecision NodeType.
Proof. solve_decision. Defined.

Record Node : Set := {
  node_id : nat;
  node_type : NodeType;
}.

(** Modelled from the spec: JobShopGraph (the graphs package's graph class is
    not among the sources).  Nodes live in an arena addressed by node id with a
    parallel removed flag per node; [removal_log] is the history of the
    [remove_node] calls, most recent first, kept for verification only. *)
Record JobShopGraph : Type := {
  nodes_by_type : NodeType → list Node;
  edges : list (nat * nat);
  removed_nodes : list bool;
  removal_log : list nat;
}.

(** The attributes of a [ResidualGraphUpdater].  [_is_completed_observer]
    refers to an observer object: its position in the subscriber list. *)
Record ResidualGraphUpdater : Type := {
  _is_completed_observer : option nat;
  remove_completed_job_nodes : bool;
  remove_completed_machine_nodes : bool;
  job_shop_graph : JobShopGraph;
}.

(** [dispatcher.subscribers], by class.  RemainingOperationsObserver is not
    among the sources: an instance is its feature tables. *)
Inductive Subscriber : Type :=
  | RemainingOperations (features : Features)
  | IsCompleted (o : IsCompletedObserver)
  | EarliestStartTime (features : Features)
  | ResidualGraph (u : ResidualGraphUpdater)
  | OtherObserver.

(** The methods a feature observer class defines, as they act on an instance
    with attributes [S]: [initialize_features], and [update] when the class
    overrides it. *)
Record methods (S : Type) : Type := {
  cls_initialize_features : Dispatcher.state → list Subscriber → S → outcome S;
  cls_update :
    option (Dispatcher.state → list Subscriber → ScheduledOperation → S → outcome S);
}.
Arguments cls_initialize_features {S} _ _ _ _.
Arguments cls_update {S} _.

Module FeatureObserverMethods.

(** [FeatureObserver.update]: "By default, this method just calls
    initialize_features". *)
Definition base_update {S} (m : methods S) (d : Dispatcher.state)
    (subs : list Subscriber) (scheduled_operation : ScheduledOperation) (self : S)
  : outcome S :=
  cls_initialize_features m d subs self.

(** [observer.update(scheduled_operation)], resolved on the class. *)
Definition update {S} (m : methods S) (d : Dispatcher.state)
    (subs : list Subscriber) (scheduled_operation : ScheduledOperation) (self : S)
  : outcome S :=
  match cls_update m with
  | Some overriding => overriding d subs scheduled_operation self
  | None => base_update m d subs scheduled_operation self
  end.

(** [FeatureObserver.reset], on an observer whose feature tables are read by
    [get_features] and replaced by [set_features]. *)
Definition reset {S} (get_features : S → Features)
    (set_features : Features → S → S) (m : methods S) (d : Dispatcher.state)
    (subs : list Subscriber) (self : S) : outcome S :=
  cls_initialize_features m d subs
    (set_features (FeatureObserver.set_features_to_zero FtNone (get_features self))
                  self).

End FeatureObserverMethods.

(** ** IsCompletedObserver
    (dispatching/feature_observers/_is_completed_observer.py) *)

Module IsCompletedObserver.

Definition with_features (f : Features) (self : IsCompletedObserver) :=
  {| features := f;
     remaining_ops_per_machine := remaining_ops_per_machine self;
     remaining_ops_per_job := remaining_ops_per_job self |}.

Definition with_machine_counters (t : Table) (self : IsCompletedObserver) :=
  {| features := features self;
     remaining_ops_per_machine := t;
     remaining_ops_per_job := remaining_ops_per_job self |}.

Definition with_job_counters (t : Table) (self : IsCompletedObserver) :=
  {| features := features self;
     remaining_ops_per_machine := remaining_ops_per_machine self;
     remaining_ops_per_job := t |}.

(** [feature_type in self.features] *)
Definition tracks (ft : FeatureType) (self : IsCompletedObserver) : bool :=
  bool_decide (is_Some (features self !! ft)).

(** [all(feature_type in observer.features for feature_type in feature_types)] *)
Definition has_same_features (feature_types observer_features : Features) : bool :=
  forallb (λ ft, bool_decide (is_Some (observer_features !! ft)))
          (fst <$> map_to_list feature_types).

Fixpoint _get_remaining_operations_observer (subscribers : list Subscriber)
    (feature_types : Features) : option Features :=
  match subscribers with
  | [] => None
  | RemainingOperations observer_features :: rest =>
      if has_same_features feature_types observer_features
      then Some observer_features
      else _get_remaining_operations_observer rest feature_types
  | _ :: rest => _get_remaining_operations_observer rest feature_types
  end.

(** The branch of [initialize_features] that copies the tables of the
    remaining-operations observer. *)
Definition copy_remaining_operations (observer_features : Features)
    (self : IsCompletedObserver) : outcome IsCompletedObserver :=
  (if tracks JOBS self then
     match observer_features !! JOBS with
     | Some t => Done (with_job_counters t self)
     | None => Raised KeyError self
     end
   else Done self) ;;; λ self,
  if tracks MACHINES self then
    match observer_features !! MACHINES with
    | Some t => Done (with_machine_counters t self)
    | None => Raised KeyError self
    end
  else Done self.

(** The body of the loop over the unscheduled operations. *)
Definition count_operation (op : Operation) (self : IsCompletedObserver)
  : outcome IsCompletedObserver :=
  (if tracks JOBS self then
     match np.iadd1 (remaining_ops_per_job self) (job_id op) 1 with
     | Some t => Done (with_job_counters t self)
     | None => Raised IndexError self
     end
   else Done self) ;;; λ self,
  if tracks MACHINES self then
    match np.iadd (remaining_ops_per_machine self) (machines op) 1 with
    | Some t => Done (with_machine_counters t self)
    | None => Raised IndexError self
    end
  else Done self.

(** The branch of [initialize_features] that counts by itself. *)
Definition count_remaining_operations (d : Dispatcher.state)
    (self : IsCompletedObserver) : outcome IsCompletedObserver :=
  match np.fill_col0 (remaining_ops_per_machine self) 0 with
  | Some t => Done (with_machine_counters t self)
  | None => Raised IndexError self
  end ;;; λ self,
  match np.fill_col0 (remaining_ops_per_job self) 0 with
  | Some t => Done (with_job_counters t self)
  | None => Raised IndexError self
  end ;;;
  for_each count_operation (Dispatcher.unscheduled_operations d).

Definition initialize_features (d : Dispatcher.state) (subs : list Subscriber)
    (self : IsCompletedObserver) : outcome IsCompletedObserver :=
  match _get_remaining_operations_observer subs (features self) with
  | Some observer_features => copy_remaining_operations observer_features self
  | None => count_remaining_operations d self
  end.

(** The count obtained by a full state scan, in the words of the spec: the
    number of unscheduled operations a machine is eligible for, and the number
    of unscheduled operations of a job. *)
Definition remaining_on_machine (ops : list Operation) (m : nat) : Z :=
  Z.of_nat (length (filter (λ op, m ∈ machines op) ops)).

Definition remaining_in_job (ops : list Operation) (j : nat) : Z :=
  Z.of_nat (length (filter (λ op, job_id op = j) ops)).

Definition full_scan_machines (d : Dispatcher.state) : Table :=
  (λ m, [remaining_on_machine (Dispatcher.unscheduled_operations d) m])
    <$> seq 0 (num_machines (Dispatcher.instance d)).

Definition full_scan_jobs (d : Dispatcher.state) : Table :=
  (λ j, [remaining_in_job (Dispatcher.unscheduled_operations d) j])
    <$> seq 0 (num_jobs (Dispatcher.instance d)).

(** The shape of the attributes of an observer built by [__init__] over
    [inst]: one-column tables with a row per entity, and counters that are
    still the zeros of [__init__] for a feature type the observer does not
    track. *)
Record well_formed (inst : JobShopInstance) (self : IsCompletedObserver) : Prop := {
  wf_machine_counters :
    np.shape (remaining_ops_per_machine self) (num_machines inst) 1;
  wf_job_counters :
    np.shape (remaining_ops_per_job self) (num_jobs inst) 1;
  wf_features : ∀ ft t, features self !! ft = Some t →
    np.shape t (FeatureObserver.number_of_entities inst ft) 1;
  wf_untracked_machines : features self !! MACHINES = None →
    remaining_ops_per_machine self = np.zeros (num_machines inst) 1;
  wf_untracked_jobs : features self !! JOBS = None →
    remaining_ops_per_job self = np.zeros (num_jobs inst) 1;
}.

(** No completion flag of a machine or of a job is raised over a counter that
    is not zero. *)
Definition flags_sound (self : IsCompletedObserver) : Prop :=
  (∀ t m, features self !! MACHINES = Some t → np.item t m 0%nat = Some 1 →
          np.item (remaining_ops_per_machine self) m 0%nat = Some 0)
  ∧ (∀ t j, features self !! JOBS = Some t → np.item t j 0%nat = Some 1 →
            np.item (remaining_ops_per_job self) j 0%nat = Some 0).

(** The completion flag of a machine and of a job as an observer holds it
    that has followed the engine since before the first commit: 1 when no
    unscheduled operation is left for the machine or job and a committed
    operation has concerned it. *)
Definition machine_flag (d : Dispatcher.state) (m : nat) : Z :=
  np.of_bool (bool_decide
    (remaining_on_machine (Dispatcher.unscheduled_operations d) m = 0
     ∧ Exists (λ op, m ∈ machines op) (Dispatcher.scheduled_operations d))).

Definition job_flag (d : Dispatcher.state) (j : nat) : Z :=
  np.of_bool (bool_decide
    (remaining_in_job (Dispatcher.unscheduled_operations d) j = 0
     ∧ Exists (λ op, job_id op = j) (Dispatcher.scheduled_operations d))).

(** An observer in step with the engine: its counters of the tracked types
    are the counts over the unscheduled operations, and its flags are the
    flags above. *)
Record in_step (inst : JobShopInstance) (d : Dispatcher.state)
    (self : IsCompletedObserver) : Prop := {
  in_step_well_formed : well_formed inst self;
  in_step_machine_counters :
    tracks MACHINES self = true →
    remaining_ops_per_machine self = full_scan_machines d;
  in_step_job_counters :
    tracks JOBS self = true → remaining_ops_per_job self = full_scan_jobs d;
  in_step_machine_flags : ∀ t m,
    features self !! MACHINES = Some t → (m < num_machines inst)%nat →
    np.item t m 0%nat = Some (machine_flag d m);
  in_step_job_flags : ∀ t j,
    features self !! JOBS = Some t → (j < num_jobs inst)%nat →
    np.item t j 0%nat = Some (job_flag d j);
}.

Section Update.

(** Modelled from the spec: [dispatcher.completed_operations()].  The spec
    names this engine-tracked sequence without saying which operations it
    holds, so it is left open. *)
Context (completed_operations : Dispatcher.state → list Operation).

(** [if FeatureType.OPERATIONS in self.features: ...] *)
Definition update_operations (d : Dispatcher.state) (self : IsCompletedObserver)
  : outcome IsCompletedObserver :=
  match features self !! OPERATIONS with
  | None => Done self
  | Some t =>
      let completed := operation_id <$> completed_operations d in
      match np.put t completed ((λ _, 1) <$> completed) with
      | Some t' => Done (with_features (<[OPERATIONS := t']> (features self)) self)
      | None => Raised IndexError self
      end
  end.

(** [if FeatureType.MACHINES in self.features: ...] *)
Definition update_machines (scheduled_operation : ScheduledOperation)
    (self : IsCompletedObserver) : outcome IsCompletedObserver :=
  match features self !! MACHINES with
  | None => Done self
  | Some t =>
      let ms := machines (operation scheduled_operation) in
      match np.iadd (remaining_ops_per_machine self) ms (-1) with
      | None => Raised IndexError self
      | Some counters =>
          let self := with_machine_counters counters self in
          match np.take counters ms with
          | None => Raised IndexError self
          | Some vals =>
              let is_completed := (λ v, np.of_bool (bool_decide (v = 0))) <$> vals in
              match np.put t ms is_completed with
              | Some t' =>
                  Done (with_features (<[MACHINES := t']> (features self)) self)
              | None => Raised IndexError self
              end
          end
      end
  end.

(** [if FeatureType.JOBS in self.features: ...] *)
Definition update_jobs (scheduled_operation : ScheduledOperation)
    (self : IsCompletedObserver) : outcome IsCompletedObserver :=
  match features self !! JOBS with
  | None => Done self
  | Some t =>
      let job := job_id (operation scheduled_operation) in
      match np.iadd1 (remaining_ops_per_job self) job (-1) with
      | None => Raised IndexError self
      | Some counters =>
          let self := with_job_counters counters self in
          match np.item counters job 0%nat with
          | None => Raised IndexError self
          | Some v =>
              match np.set_item t job 0%nat (np.of_bool (bool_decide (v = 0))) with
              | Some t' =>
                  Done (with_features (<[JOBS := t']> (features self)) self)
              | None => Raised IndexError self
              end
          end
      end
  end.

Definition update (d : Dispatcher.state) (subs : list Subscriber)
    (scheduled_operation : ScheduledOperation) (self : IsCompletedObserver)
  : outcome IsCompletedObserver :=
  update_operations d self ;;;
  update_machines scheduled_operation ;;;
  update_jobs scheduled_operation.

(** The class: [update] is overridden. *)
Definition class_methods : methods IsCompletedObserver := {|
  cls_initialize_features := initialize_features;
  cls_update := Some update;
|}.

End Update.

(** [IsCompletedObserver(dispatcher, feature_types)]: the constructor raises
    what [_get_feature_types_list] or [initialize_features] raise. *)
Definition __init__ (d : Dispatcher.state) (subs : list Subscriber)
    (feature_types : feature_types_arg) : result IsCompletedObserver :=
  let inst := Dispatcher.instance d in
  fts ← FeatureObserver._get_feature_types_list FeatureObserver.base feature_types;
  features ← FeatureObserver.new_features FeatureObserver.base inst (FtList fts);
  let self := {| features := features;
                 remaining_ops_per_machine := np.zeros (num_machines inst) 1;
                 remaining_ops_per_job := np.zeros (num_jobs inst) 1 |} in
  match initialize_features d subs self with
  | Done self => Ok self
  | Raised e _ => Raise e
  end.

End IsCompletedObserver.

(** ** EarliestStartTimeObserver
    (dispatching/feature_extraction/earliest_start_time_observer.py)

    The class extends the FeatureObserver of the feature_extraction package,
    which is not among the sources.  The methods the class defines itself are
    translated from its file; what it inherits is said where it is used. *)

Module EarliestStartTimeObserver.

(** [self.features[feature_type][row, 0] = value], an assignment of an
    integer to an entry of a float32 array. *)
Definition store (ft : FeatureType) (row : nat) (value : Z) (features : Features)
  : outcome Features :=
  match features !! ft with
  | None => Raised KeyError features
  | Some t =>
      match np.set_item t row 0%nat (np.float32 value) with
      | Some t' => Done (<[ft := t']> features)
      | None => Raised IndexError features
      end
  end.

Definition _update_operation_features (d : Dispatcher.state) (features : Features)
  : outcome Features :=
  for_each (λ op,
              let start_time := Dispatcher.earliest_start_time d op None in
              let adjusted_start_time := start_time - Dispatcher.current_time d in
              store OPERATIONS (operation_id op) adjusted_start_time)
           (Dispatcher.unscheduled_operations d) features.

Definition _update_machine_features (d : Dispatcher.state) (features : Features)
  : outcome Features :=
  for_each (λ '(machine_id, start_time),
              store MACHINES machine_id (start_time - Dispatcher.current_time d))
           (imap (λ i t, (i, t)) (Dispatcher.machine_next_available_time d))
           features.

Definition _update_job_features (d : Dispatcher.state) (features : Features)
  : outcome Features :=
  for_each (λ '(job_id, start_time),
              store JOBS job_id (start_time - Dispatcher.current_time d))
           (imap (λ i t, (i, t)) (Dispatcher.job_next_available_time d))
           features.

Definition initialize_features (d : Dispatcher.state) (subs : list Subscriber)
    (features : Features) : outcome Features :=
  _update_operation_features d features ;;;
  _update_machine_features d ;;;
  _update_job_features d.

(** Modelled from the spec: the class does not define [update], and the base
    class it inherits it from is not among the sources.  By the spec the
    "default update behavior, if not overridden, is to fully recompute", which
    is also the [update] of the FeatureObserver above; the attributes of an
    observer are its feature tables, float32 arrays as those of the
    FeatureObserver above. *)
Definition class_methods : methods Features := {|
  cls_initialize_features := initialize_features;
  cls_update := None;
|}.

End EarliestStartTimeObserver.

(** ** The factory of the feature observers
    (dispatching/feature_extraction/factory.py) *)

Module factory.

Inductive FeatureObserverType : Set :=
  | IS_READY
  | TIME_TO_BE_READY
  | EARLIEST_START_TIME
  | DURATION
  | IS_SCHEDULED
  | POSITION_IN_JOB
  | REMAINING_OPERATIONS
  | COMPOSITE.

#[global] Instance FeatureObserverType_eq_dec : EqDecision FeatureObserverType.
Proof. solve_decision. Defined.

(** The observer classes the module imports. *)
Inductive observer_class : Set :=
  | IsReadyObserver
  | EarliestStartTimeObserver
  | DurationObserver
  | IsScheduledObserver
  | PositionInJobObserver
  | RemainingOperationsObserver.

#[global] Instance observer_class_eq_dec : EqDecision observer_class.
Proof. solve_decision. Defined.

(** The dictionary [mapping], as the items of its display. *)
Definition mapping : list (FeatureObserverType * observer_class) :=
  [ (IS_READY, IsReadyObserver);
    (TIME_TO_BE_READY, EarliestStartTimeObserver);
    (EARLIEST_START_TIME, EarliestStartTimeObserver);
    (DURATION, DurationObserver);
    (IS_SCHEDULED, IsScheduledObserver);
    (POSITION_IN_JOB, PositionInJobObserver);
    (REMAINING_OPERATIONS, RemainingOperationsObserver) ].

(** [mapping[key]] *)
Definition getitem (key : FeatureObserverType) : result observer_class :=
  match list_find (λ item, item.1 = key) mapping with
  | Some (_, (_, feature_creator)) => Ok feature_creator
  | None => Raise KeyError
  end.

(** [feature_observer_factory], called with a member of the enumeration;
    [construct] is the call of the class that was looked up, with the keyword
    arguments the factory was given. *)
Definition feature_observer_factory {A} (construct : observer_class → result A)
    (node_feature_creator_type : FeatureObserverType) : result A :=
  feature_creator ← getitem node_feature_creator_type;
  construct feature_creator.

End factory.

(** ** The frames of the GIF (visualization/create_gif.py)

    The directory of the frames is its listing, the file names that
    [os.listdir] returns, in no particular order. *)

Module create_gif.

(** [f"{number:02d}"] for a count: its decimal digits, padded with zeros on
    the left to two characters. *)
Definition format_02d (number : nat) : string :=
  let digits := NilEmpty.string_of_uint (Nat.to_uint number) in
  if decide (String.length digits < 2)%nat then String.append "0" digits
  else digits.

(** The file [_save_frame] writes into [frames_dir]:
    [f"frame_{number:02d}.png"]. *)
Definition frame_file (number : nat) : string :=
  String.append "frame_" (String.append (format_02d number) ".png").

(** The files [create_gantt_chart_frames] has written when its loop ran [n]
    times, in the order they were written: [iteration] counts from 1. *)
Definition saved_frames (n : nat) : list string := frame_file <$> seq 1 n.

(** The order of Python on [str]: lexicographic, character by character. *)
Definition str_le (a b : string) : Prop := String.leb a b = true.

#[global] Instance str_le_dec a b : Decision (str_le a b).
Proof. unfold str_le. apply _. Defined.

(** [sorted(os.listdir(frames_dir))]: the order in which
    [create_gif_from_frames] reads the frames into the GIF. *)
Definition sorted (listing : list string) : list string :=
  merge_sort str_le listing.

End create_gif.

(** ** The graph and the residual graph updater *)

(** Modelled from the spec: the queries and the removal of JobShopGraph
    (sections 4.5 and 9).  A node is looked up by its position among the nodes
    of its type; a lookup outside the arena raises IndexError. *)
Module JobShopGraph.

Definition with_removed (g : JobShopGraph) (removed : list bool) (log : list nat)
    (es : list (nat * nat)) : JobShopGraph :=
  {| nodes_by_type := nodes_by_type g;
     edges := es;
     removed_nodes := removed;
     removal_log := log |}.

(** [is_removed(node)]: the removed flag of the node. *)
Definition is_removed (g : JobShopGraph) (node : Node) : result bool :=
  of_option IndexError (removed_nodes g !! node_id node).

(** [remove_node(node_id)]: flags the node, drops its edges, and is recorded
    in the history. *)
Definition remove_node (g : JobShopGraph) (id : nat) : JobShopGraph :=
  with_removed g (<[id := true]> (removed_nodes g)) (id :: removal_log g)
    (filter (λ e, e.1 ≠ id ∧ e.2 ≠ id) (edges g)).

Definition get_operation_node (g : JobShopGraph) (operation_id : nat) : result Node :=
  of_option IndexError (nodes_by_type g OPERATION !! operation_id).

Definition get_machine_node (g : JobShopGraph) (machine_id : nat) : result Node :=
  of_option IndexError (nodes_by_type g MACHINE !! machine_id).

Definition get_job_node (g : JobShopGraph) (job_id : nat) : result Node :=
  of_option IndexError (nodes_by_type g JOB !! job_id).

(** [if not graph.is_removed(node): graph.remove_node(node.node_id)], where
    looking the node up may already have raised. *)
Definition remove_unless_removed (node : result Node) (g : JobShopGraph)
  : outcome JobShopGraph :=
  match node with
  | Raise e => Raised e g
  | Ok node =>
      match is_removed g node with
      | Raise e => Raised e g
      | Ok true => Done g
      | Ok false => Done (remove_node g (node_id node))
      end
  end.

(** Modelled from the spec: [remove_completed_operations] (not among the
    sources) removes the node of every completed operation, after the same
    "is removed" query as every other removal. *)
Definition remove_completed_operations (completed_operations : list Operation)
    (g : JobShopGraph) : outcome JobShopGraph :=
  for_each (λ op g, remove_unless_removed (get_operation_node g (operation_id op)) g)
           completed_operations g.

(** The graph after [remove_node] was called on each of [calls], the head of
    the list last. *)
Definition removals (calls : list nat) (g : JobShopGraph) : JobShopGraph :=
  foldr (λ id g, remove_node g id) g calls.

(** [g'] is [g] after some removals, each of a node that was not removed
    when [remove_node] was called on it: no node is listed twice, and none was
    removed in [g]. *)
Definition grows (g g' : JobShopGraph) : Prop :=
  ∃ calls, g' = removals calls g
    ∧ NoDup calls
    ∧ ∀ id, id ∈ calls → removed_nodes g !! id = Some false.

(** A step on the graph that only removes nodes not yet removed, that
    changes nothing and returns again when it runs after itself, however many
    more nodes were removed in between, and that raises again when it runs
    from the graph it raised on. *)
Definition stable (step : JobShopGraph → outcome JobShopGraph) : Prop :=
  (∀ g, grows g (final_state (step g)))
  ∧ (∀ g g1 g', step g = Done g1 → grows g1 g' → step g' = Done g')
  ∧ (∀ g e u, step g = Raised e u → step u = Raised e u).

End JobShopGraph.

Module ResidualGraphUpdater.

Definition with_graph (g : JobShopGraph) (self : ResidualGraphUpdater) :=
  {| _is_completed_observer := _is_completed_observer self;
     remove_completed_job_nodes := remove_completed_job_nodes self;
     remove_completed_machine_nodes := remove_completed_machine_nodes self;
     job_shop_graph := g |}.

Definition with_observer (ref : option nat) (self : ResidualGraphUpdater) :=
  {| _is_completed_observer := ref;
     remove_completed_job_nodes := remove_completed_job_nodes self;
     remove_completed_machine_nodes := remove_completed_machine_nodes self;
     job_shop_graph := job_shop_graph self |}.

(** A step on the graph as a step on the updater that owns it. *)
Definition on_graph (step : JobShopGraph → outcome JobShopGraph)
    (self : ResidualGraphUpdater) : outcome ResidualGraphUpdater :=
  match step (job_shop_graph self) with
  | Done g => Done (with_graph g self)
  | Raised e g => Raised e (with_graph g self)
  end.

(** The local function [has_all_features] of
    [_initialize_is_completed_observer_attribute]. *)
Definition has_all_features (feature_types : list FeatureType) (observer : Subscriber)
  : bool :=
  match observer with
  | IsCompleted o =>
      forallb (λ ft, bool_decide (is_Some (features o !! ft))) feature_types
  | _ => false
  end.

(** Position of the first subscriber that satisfies [condition]. *)
Fixpoint find_observer (condition : Subscriber → bool) (subs : list Subscriber)
    (position : nat) : option nat :=
  match subs with
  | [] => None
  | o :: rest =>
      if condition o then Some position
      else find_observer condition rest (S position)
  end.

(** Modelled from the spec: [create_or_get_observer] (not among the sources)
    "locates an already-subscribed observer of a given concrete type satisfying
    a predicate", "creating one if none exists"; the observer created here is
    an [IsCompletedObserver], which subscribes itself.  The result is the
    observer, as its position in the subscriber list, and that list. *)
Definition create_or_get_observer (d : Dispatcher.state) (subs : list Subscriber)
    (condition : Subscriber → bool) (feature_types : list FeatureType)
  : result (nat * list Subscriber) :=
  match find_observer condition subs 0 with
  | Some ref => Ok (ref, subs)
  | None =>
      o ← IsCompletedObserver.__init__ d subs (FtList feature_types);
      Ok (length subs, subs ++ [IsCompleted o])
  end.

Definition _initialize_is_completed_observer_attribute (d : Dispatcher.state)
    (subs : list Subscriber) (self : ResidualGraphUpdater)
  : result (ResidualGraphUpdater * list Subscriber) :=
  let feature_types :=
    (if remove_completed_machine_nodes self then [MACHINES] else [])
    ++ (if remove_completed_job_nodes self then [JOBS] else []) in
  match feature_types with
  | [] => Ok (self, subs)
  | _ =>
      '(ref, subs) ← create_or_get_observer d subs (has_all_features feature_types)
                        feature_types;
      Ok (with_observer (Some ref) self, subs)
  end.

(** Modelled from the spec: the subscription made by the parent constructor
    (GraphUpdater is not among the sources); an observer marked singleton
    cannot be subscribed when one of its class already is. *)
Definition subscribe_updater (is_singleton subscribe : bool)
    (subs : list Subscriber) (self : ResidualGraphUpdater)
  : result (list Subscriber) :=
  if negb subscribe then Ok subs
  else if is_singleton
          && existsb (λ o, match o with ResidualGraph _ => true | _ => false end) subs
       then Raise ValidationError
  else Ok (subs ++ [ResidualGraph self]).

(** [ResidualGraphUpdater(dispatcher, job_shop_graph, ...)]: the new updater
    and the subscriber list after the construction. *)
Definition __init__ (d : Dispatcher.state) (subs : list Subscriber)
    (graph : JobShopGraph) (is_singleton subscribe : bool)
    (remove_completed_machine_nodes remove_completed_job_nodes : bool)
  : result (ResidualGraphUpdater * list Subscriber) :=
  let self := {| _is_completed_observer := None;
                 remove_completed_job_nodes := remove_completed_job_nodes;
                 remove_completed_machine_nodes := remove_completed_machine_nodes;
                 job_shop_graph := graph |} in
  '(self, subs) ← _initialize_is_completed_observer_attribute d subs self;
  subs ← subscribe_updater is_singleton subscribe subs self;
  Ok (self, subs).

(** The property [is_completed_observer]: the observer the attribute refers
    to. *)
Definition is_completed_observer (self : ResidualGraphUpdater) : result nat :=
  match _is_completed_observer self with
  | None => Raise UninitializedAttributeError
  | Some ref => Ok ref
  end.

(** The object a reference designates.  A reference stored by [__init__] is a
    position of an [IsCompletedObserver] in the subscriber list; for any other
    number there is no object to read, which is reported like a missing one. *)
Definition observer_at (subs : list Subscriber) (ref : nat)
  : result IsCompletedObserver :=
  match subs !! ref with
  | Some (IsCompleted o) => Ok o
  | _ => Raise UninitializedAttributeError
  end.

(** [self.is_completed_observer.features[feature_type]] *)
Definition completion_table (subs : list Subscriber) (self : ResidualGraphUpdater)
    (ft : FeatureType) : result Table :=
  ref ← is_completed_observer self;
  o ← observer_at subs ref;
  of_option KeyError (features o !! ft).

Definition enumerate {A} (xs : list A) : list (nat * A) := imap (λ i x, (i, x)) xs.

Definition _remove_completed_machine_nodes (subs : list Subscriber)
    (self : ResidualGraphUpdater) : outcome ResidualGraphUpdater :=
  match completion_table subs self MACHINES with
  | Raise e => Raised e self
  | Ok t =>
      on_graph
        (for_each (λ '(machine_id, is_completed) g,
                     if bool_decide (is_completed = 1)
                     then JobShopGraph.remove_unless_removed
                            (JobShopGraph.get_machine_node g machine_id) g
                     else Done g)
                  (enumerate (mjoin t)))
        self
  end.

(** [is_completed == 1 and ...] on a row of the table: the truth value of a
    one-element array; numpy refuses to give one to an array of another
    length. *)
Definition row_equals_one (row : list Z) : result bool :=
  match row with
  | [v] => Ok (bool_decide (v = 1))
  | _ => Raise ValueError
  end.

Definition _remove_completed_job_nodes (subs : list Subscriber)
    (self : ResidualGraphUpdater) : outcome ResidualGraphUpdater :=
  match completion_table subs self JOBS with
  | Raise e => Raised e self
  | Ok t =>
      on_graph
        (for_each (λ '(job_id, is_completed) g,
                     match row_equals_one is_completed with
                     | Raise e => Raised e g
                     | Ok true =>
                         JobShopGraph.remove_unless_removed
                           (JobShopGraph.get_job_node g job_id) g
                     | Ok false => Done g
                     end)
                  (enumerate t))
        self
  end.

(** The loops of [_remove_completed_machine_nodes] and
    [_remove_completed_job_nodes] on the graph, given the table read from the
    completion observer or the exception raised on the way to it. *)
Definition machine_nodes_step (table : result Table) (g : JobShopGraph)
  : outcome JobShopGraph :=
  match table with
  | Raise e => Raised e g
  | Ok t =>
      for_each (λ '(machine_id, is_completed) g,
                  if bool_decide (is_completed = 1)
                  then JobShopGraph.remove_unless_removed
                         (JobShopGraph.get_machine_node g machine_id) g
                  else Done g)
               (enumerate (mjoin t)) g
  end.

Definition job_nodes_step (table : result Table) (g : JobShopGraph)
  : outcome JobShopGraph :=
  match table with
  | Raise e => Raised e g
  | Ok t =>
      for_each (λ '(job_id, is_completed) g,
                  match row_equals_one is_completed with
                  | Raise e => Raised e g
                  | Ok true =>
                      JobShopGraph.remove_unless_removed
                        (JobShopGraph.get_job_node g job_id) g
                  | Ok false => Done g
                  end)
               (enumerate t) g
  end.

(** What [update] does to the graph of an updater, in terms of what does not
    change during the update: the completed operations, the two flags, and the
    two tables of the completion observer. *)
Definition graph_update (completed : list Operation)
    (remove_machines remove_jobs : bool) (machines_table jobs_table : result Table)
    (g : JobShopGraph) : outcome JobShopGraph :=
  JobShopGraph.remove_completed_operations completed g
  ;;; (λ g, if remove_machines && bool_decide (nodes_by_type g MACHINE ≠ [])
            then machine_nodes_step machines_table g else Done g)
  ;;; (λ g, if remove_jobs && bool_decide (nodes_by_type g JOB ≠ [])
            then job_nodes_step jobs_table g else Done g).

Section Update.

(** Modelled from the spec: [dispatcher.completed_operations()], left open as
    for [IsCompletedObserver.update]. *)
Context (completed_operations : Dispatcher.state → list Operation).

Definition update (d : Dispatcher.state) (subs : list Subscriber)
    (scheduled_operation : ScheduledOperation) (self : ResidualGraphUpdater)
  : outcome ResidualGraphUpdater :=
  on_graph (JobShopGraph.remove_completed_operations (completed_operations d)) self
  ;;; (λ self,
    let graph_has_machine_nodes :=
      bool_decide (nodes_by_type (job_shop_graph self) MACHINE ≠ []) in
    if remove_completed_machine_nodes self && graph_has_machine_nodes
    then _remove_completed_machine_nodes subs self
    else Done self)
  ;;; (λ self,
    let graph_has_machine_nodes :=
      bool_decide (nodes_by_type (job_shop_graph self) JOB ≠ []) in
    if remove_completed_job_nodes self && graph_has_machine_nodes
    then _remove_completed_job_nodes subs self
    else Done self).

End Update.

End ResidualGraphUpdater.

(** ** Concrete scenarios *)

Module Scenario.

Import Example.

Definition scheduled_A : ScheduledOperation :=
  {| operation := opA; start_time := 0; machine_id := 0 |}.
Definition scheduled_B : ScheduledOperation :=
  {| operation := opB; start_time := 0; machine_id := 1 |}.

(** The engine over [one_each] after [opA] was committed on machine 0, and
    after [opB] was then committed on machine 1. *)
Definition after_A : Dispatcher.state :=
  Dispatcher.committed (Dispatcher.new one_each) opA 0 0.
Definition after_A_B : Dispatcher.state :=
  Dispatcher.committed after_A opB 1 0.

(** What [IsCompletedObserver(dispatcher, [MACHINES, JOBS])] builds on
    [after_A], and what [update] makes of it when [opB] is committed. *)
Definition late_observer : IsCompletedObserver :=
  {| features := <[MACHINES := [[0]; [0]]]> (<[JOBS := [[0]; [0]]]> ∅);
     remaining_ops_per_machine := [[0]; [1]];
     remaining_ops_per_job := [[0]; [1]] |}.
Definition late_observer_after_B : IsCompletedObserver :=
  {| features := <[JOBS := [[0]; [1]]]>
                       (<[MACHINES := [[0]; [1]]]> (features late_observer));
     remaining_ops_per_machine := [[0]; [0]];
     remaining_ops_per_job := [[0]; [0]] |}.

(** The tables of a remaining-operations observer for machines and jobs that
    is in step with [after_A]. *)
Definition remaining_operations_tables : Features :=
  <[MACHINES := [[0]; [1]]]> (<[JOBS := [[0]; [1]]]> ∅).

(** The engine over [two_by_two] after the first operation of job 0 was
    committed on machine 0 at time 0, and the zero tables of an observer of
    all three feature types over that instance. *)
Definition after_op00 : Dispatcher.state :=
  Dispatcher.committed (Dispatcher.new two_by_two) op00 0 0.

Definition scheduled_op00 : ScheduledOperation :=
  {| operation := op00; start_time := 0; machine_id := 0 |}.

Definition zero_features : Features :=
  <[OPERATIONS := np.zeros 4 1]>
    (<[MACHINES := np.zeros 2 1]> (<[JOBS := np.zeros 2 1]> ∅)).

(** A graph over [one_each]: the nodes of the two operations, of the two
    machines and of the two jobs, each operation linked to its machine and to
    its job, nothing removed. *)
Definition graph : JobShopGraph :=
  {| nodes_by_type := λ ty,
       match ty with
       | OPERATION => [ {| node_id := 0; node_type := OPERATION |};
                        {| node_id := 1; node_type := OPERATION |} ]
       | MACHINE => [ {| node_id := 2; node_type := MACHINE |};
                      {| node_id := 3; node_type := MACHINE |} ]
       | JOB => [ {| node_id := 4; node_type := JOB |};
                  {| node_id := 5; node_type := JOB |} ]
       end;
     edges := [(0, 2); (1, 3); (0, 4); (1, 5)]%nat;
     removed_nodes := replicate 6 false;
     removal_log := [] |}.

(** What [IsCompletedObserver(dispatcher, [MACHINES, JOBS])] builds on the
    fresh engine over [one_each], and the updater for both removal modes that
    refers to it as subscriber 0. *)
Definition fresh_observer : IsCompletedObserver :=
  {| features := <[MACHINES := [[0]; [0]]]> (<[JOBS := [[0]; [0]]]> ∅);
     remaining_ops_per_machine := [[1]; [1]];
     remaining_ops_per_job := [[1]; [1]] |}.

Definition updater : ResidualGraphUpdater :=
  {| _is_completed_observer := Some 0%nat;
     remove_completed_job_nodes := true;
     remove_completed_machine_nodes := true;
     job_shop_graph := graph |}.

(** What [IsCompletedObserver(dispatcher)] builds on the fresh engine over
    [one_each]: a table for each of the three feature types. *)
Definition full_observer : IsCompletedObserver :=
  {| features := <[OPERATIONS := [[0]; [0]]]>
                   (<[MACHINES := [[0]; [0]]]> (<[JOBS := [[0]; [0]]]> ∅));
     remaining_ops_per_machine := [[1]; [1]];
     remaining_ops_per_job := [[1]; [1]] |}.

(** A subclass that declares its feature sizes per type:
    [_feature_size = {FeatureType.OPERATIONS: 2}]. *)
Definition sized_by_dict : FeatureObserver.class :=
  {| FeatureObserver._is_singleton := false;
     FeatureObserver._feature_size := SizeDict {[OPERATIONS := 2%nat]};
     FeatureObserver._supported_feature_types := [OPERATIONS] |}.

(** An updater built with both removal flags off, on which they were then
    switched on: it has no completion observer. *)
Definition switched_on_updater : ResidualGraphUpdater :=
  {| _is_completed_observer := None;
     remove_completed_job_nodes := true;
     remove_completed_machine_nodes := true;
     job_shop_graph := graph |}.

(** The engine over [flexible] after [f00] was committed on machine 0, and
    after [f10] and [f20] were then committed on machines 1 and 2, all at
    time 0: job 0 is free at 5, and the machines at 5, 7 and 4. *)
Definition after_f00 : Dispatcher.state :=
  Dispatcher.committed (Dispatcher.new flexible) f00 0 0.
Definition after_f00_f10 : Dispatcher.state :=
  Dispatcher.committed after_f00 f10 1 0.
Definition after_f00_f10_f20 : Dispatcher.state :=
  Dispatcher.committed after_f00_f10 f20 2 0.

(** The commit of [f01] on machine 2 at time 5, on [after_f00]. *)
Definition scheduled_f01 : ScheduledOperation :=
  {| operation := f01; start_time := 5; machine_id := 2 |}.
Definition after_f00_f01 : Dispatcher.state :=
  Dispatcher.committed after_f00 f01 2 5.

(** The engine over [long_job] after [l00] was committed on machine 0 at time
    0, and the tables of an observer of all three feature types over it. *)
Definition scheduled_l00 : ScheduledOperation :=
  {| operation := l00; start_time := 0; machine_id := 0 |}.
Definition after_l00 : Dispatcher.state :=
  Dispatcher.committed (Dispatcher.new long_job) l00 0 0.
Definition long_job_features : Features :=
  <[OPERATIONS := np.zeros 2 1]>
    (<[MACHINES := np.zeros 1 1]> (<[JOBS := np.zeros 1 1]> ∅)).

(** The machines table and the counters of an observer for the machines of
    [flexible] before it has counted. *)
Definition machines_observer : IsCompletedObserver :=
  {| features := <[MACHINES := [[0]; [0]; [0]]]> ∅;
     remaining_ops_per_machine := [[0]; [0]; [0]];
     remaining_ops_per_job := [[0]; [0]; [0]] |}.

(** The tables of a remaining-operations observer as the end of an episode
    leaves them, every counter at 0. *)
Definition finished_tables : Features :=
  <[MACHINES := [[0]; [0]]]> (<[JOBS := [[0]; [0]]]> ∅).

(** The [update] of the completion observers and of the updaters of the
    residual graph among themselves, as an engine calls it that reports
    [completed_operations]. *)
Definition completion_update
    (completed_operations : Dispatcher.state → list Operation)
    (d : Dispatcher.state) (subs : list IsCompletedObserver)
    (so : ScheduledOperation) (self : IsCompletedObserver)
  : outcome IsCompletedObserver :=
  IsCompletedObserver.update completed_operations d (IsCompleted <$> subs) so self.


End Scenario.

(** * Properties *)

(** ** Loops on a mutable object *)

Section for_each_facts.

Context {A S : Type}.

Implicit Types (body : A → S → outcome S) (xs : list A).

(** A loop that raised did so in the body, on one of its elements. *)
Lemma for_each_Raised body xs : ∀ s e s',
  for_each body xs s = Raised e s' →
  ∃ x s1, x ∈ xs ∧ body x s1 = Raised e s'.
Proof.
  induction xs as [|x xs IH]; intros s e s' H; [done|]. simpl in H.
  destruct (body x s) as [s1|e1 s1] eqn:Hx; simpl in H.
  - destruct (IH _ _ _ H) as (y & s2 & Hy & Hbody).
    exists y, s2. split; [by apply elem_of_cons; right|done].
  - injection H as <- <-. exists x, s. split; [by apply elem_of_cons; left|done].
Qed.

(** A loop that returned ran the body to its end on every element. *)
Lemma for_each_Done_split body xs x : ∀ s s',
  for_each body xs s = Done s' → x ∈ xs →
  ∃ xs1 xs2 s1 s2,
    xs = xs1 ++ x :: xs2
    ∧ for_each body xs1 s = Done s1
    ∧ body x s1 = Done s2
    ∧ for_each body xs2 s2 = Done s'.
Proof.
  induction xs as [|y xs IH]; intros s s' H Hx; [by apply not_elem_of_nil in Hx|].
  simpl in H. destruct (body y s) as [s1|e1 s1] eqn:Hy; simpl in H; [|done].
  apply elem_of_cons in Hx as [->|Hx].
  - exists [], xs, s, s1. by split_and!.
  - destruct (IH _ _ H Hx) as (xs1 & xs2 & t1 & t2 & -> & H1 & H2 & H3).
    exists (y :: xs1), xs2, t1, t2. split_and!; try done.
    simpl. by rewrite Hy.
Qed.

(** What every run of the body keeps, the loop keeps, whether it returns or
    raises. *)
Lemma for_each_invariant (I : S → Prop) body xs :
  (∀ x s, x ∈ xs → I s → I (final_state (body x s))) →
  ∀ s, I s → I (final_state (for_each body xs s)).
Proof.
  induction xs as [|x xs IH]; intros Hbody s Hs; [done|]. simpl.
  pose proof (Hbody x s ltac:(by apply elem_of_cons; left) Hs) as H1.
  destruct (body x s) as [s1|e1 s1]; simpl in *; [|done].
  apply IH; [|done]. intros y t Hy. apply Hbody. by apply elem_of_cons; right.
Qed.

End for_each_facts.

(** ** numpy arrays *)

Section np_facts.

Implicit Types (t : Table) (idx : list nat) (vals : list Z).

Lemma item_zeros n k r :
  np.item (np.zeros n k) r 0%nat
  = if decide (r < n ∧ 0 < k)%nat then Some 0 else None.
Proof.
  unfold np.item, np.zeros. case_decide as H.
  - destruct H as [Hr Hk]. rewrite (lookup_replicate_2 n _ r Hr). simpl.
    by apply lookup_replicate_2.
  - destruct (decide (r < n)%nat) as [Hr|Hr].
    + rewrite (lookup_replicate_2 n _ r Hr). simpl.
      apply lookup_replicate_None. lia.
    + assert (replicate n (replicate k 0) !! r = None) as ->; [|done].
      apply lookup_replicate_None. lia.
Qed.

Lemma item_set_item t i v t' r :
  np.set_item t i 0%nat v = Some t' →
  np.item t' r 0%nat = if decide (r = i) then Some v else np.item t r 0%nat.
Proof.
  unfold np.set_item, np.item. intros H.
  destruct (t !! i) as [row|] eqn:Hi; simpl in H; [|done].
  case_decide as Hlen; [|done]. injection H as <-.
  case_decide as Hr.
  - subst r. rewrite list_lookup_insert_eq by by eapply lookup_lt_Some.
    simpl. by rewrite list_lookup_insert_eq.
  - by rewrite list_lookup_insert_ne.
Qed.

Lemma set_item_is_Some t i v :
  is_Some (np.item t i 0%nat) → is_Some (np.set_item t i 0%nat v).
Proof.
  unfold np.set_item, np.item. intros [x H].
  destruct (t !! i) as [row|]; simpl in *; [|done].
  apply lookup_lt_Some in H. by rewrite decide_True.
Qed.

Lemma shape_zeros n k : np.shape (np.zeros n k) n k.
Proof.
  split; [apply length_replicate|].
  apply Forall_replicate, length_replicate.
Qed.

Lemma shape_set_item t n k i j v t' :
  np.shape t n k → np.set_item t i j v = Some t' → np.shape t' n k.
Proof.
  unfold np.set_item. intros [Hn Hk] H.
  destruct (t !! i) as [row|] eqn:Hi; simpl in H; [|done].
  case_decide; [|done]. injection H as <-. split.
  - by rewrite length_insert.
  - apply Forall_insert; [done|]. rewrite length_insert.
    by eapply (Forall_lookup_1 _ _ _ _ Hk).
Qed.

Lemma shape_item t n r : np.shape t n 1 → (r < n)%nat → is_Some (np.item t r 0%nat).
Proof.
  intros [Hn Hk] Hr. unfold np.item.
  destruct (lookup_lt_is_Some_2 t r) as [row Hrow]; [lia|].
  rewrite Hrow. simpl. apply lookup_lt_is_Some.
  rewrite (Forall_lookup_1 _ _ _ _ Hk Hrow). lia.
Qed.

(** Two one-column tables with the same entries are the same table. *)
Lemma one_column_eq t t' n :
  np.shape t n 1 → np.shape t' n 1 →
  (∀ r, np.item t r 0%nat = np.item t' r 0%nat) → t = t'.
Proof.
  intros [Hn Hk] [Hn' Hk'] H. apply list_eq. intros r.
  specialize (H r). unfold np.item in H.
  destruct (t !! r) as [row|] eqn:Hr, (t' !! r) as [row'|] eqn:Hr'; simpl in H.
  - f_equal.
    pose proof (Forall_lookup_1 _ _ _ _ Hk Hr) as L.
    pose proof (Forall_lookup_1 _ _ _ _ Hk' Hr') as L'.
    destruct row as [|x [|]], row' as [|x' [|]]; simplify_eq/=; done.
  - apply lookup_lt_Some in Hr. apply lookup_ge_None in Hr'. lia.
  - apply lookup_lt_Some in Hr'. apply lookup_ge_None in Hr. lia.
  - done.
Qed.

Lemma take_Forall2 t idx vals :
  np.take t idx = Some vals ↔ Forall2 (λ i v, np.item t i 0%nat = Some v) idx vals.
Proof. apply mapM_Some. Qed.

(** Assigning a column whose values are a function of the row index. *)
Lemma put_spec (f : nat → Z) idx : ∀ t vals t',
  Forall2 (λ i v, v = f i) idx vals →
  np.put t idx vals = Some t' →
  ∀ r, np.item t' r 0%nat
       = if decide (r ∈ idx) then Some (f r) else np.item t r 0%nat.
Proof.
  induction idx as [|i idx IH]; intros t vals t' Hf Hput r.
  - simpl in Hput. injection Hput as <-. rewrite decide_False; [done|]. apply not_elem_of_nil.
  - destruct vals as [|v vals]; [by inversion Hf|].
    apply Forall2_cons in Hf as [-> Hf]. simpl in Hput.
    destruct (np.set_item t i 0%nat (f i)) as [t1|] eqn:H1; simpl in Hput; [|done].
    rewrite (IH _ _ _ Hf Hput r), (item_set_item _ _ _ _ r H1).
    destruct (decide (r ∈ idx)) as [Hin|Hin], (decide (r = i)) as [->|Hne].
    + rewrite decide_True; [done|]. apply elem_of_cons; by left.
    + rewrite decide_True; [done|]. apply elem_of_cons; by right.
    + rewrite decide_True; [done|]. apply elem_of_cons; by left.
    + rewrite decide_False; [done|]. rewrite elem_of_cons. by intros [?|?].
Qed.

Lemma put_is_Some idx : ∀ t vals,
  Forall (λ i, is_Some (np.item t i 0%nat)) idx → is_Some (np.put t idx vals).
Proof.
  induction idx as [|i idx IH]; intros t vals Hin; [by eexists|].
  destruct vals as [|v vals]; [by eexists|].
  apply Forall_cons in Hin as [Hi Hin]. simpl.
  destruct (set_item_is_Some t i v Hi) as [t1 H1]. rewrite H1. simpl.
  apply IH. eapply Forall_impl; [done|]. intros r Hr. simpl in Hr.
  rewrite (item_set_item _ _ _ _ r H1). by case_decide.
Qed.

Lemma shape_put idx n k : ∀ t vals t',
  np.shape t n k → np.put t idx vals = Some t' → np.shape t' n k.
Proof.
  induction idx as [|i idx IH]; intros t vals t' Hs Hput.
  - simpl in Hput. by injection Hput as <-.
  - destruct vals as [|v vals]; simpl in Hput; [by injection Hput as <-|].
    destruct (np.set_item t i 0%nat v) as [t1|] eqn:H1; simpl in Hput; [|done].
    eapply IH; [|done]. by eapply shape_set_item.
Qed.

(** [t[idx, 0] += c] adds [c] once to every listed row. *)
Lemma iadd_spec t idx c t' :
  np.iadd t idx c = Some t' →
  ∀ r, np.item t' r 0%nat
       = if decide (r ∈ idx) then (λ v, v + c) <$> np.item t r 0%nat
         else np.item t r 0%nat.
Proof.
  unfold np.iadd. intros H r.
  destruct (np.take t idx) as [vals|] eqn:Htake; simpl in H; [|done].
  apply take_Forall2 in Htake.
  assert (Forall2 (λ i v, v = default 0 (np.item t i 0%nat) + c) idx
            ((λ v, v + c) <$> vals)) as Hf.
  { apply Forall2_fmap_r. eapply Forall2_impl; [done|].
    intros i v Hi. simpl in *. by rewrite Hi. }
  rewrite (put_spec _ idx _ _ _ Hf H r).
  case_decide as Hr; [|done].
  eapply list_elem_of_lookup in Hr as [k Hk].
  destruct (Forall2_lookup_l _ _ _ _ _ Htake Hk) as (v & _ & ->). done.
Qed.

Lemma iadd_is_Some t idx c :
  Forall (λ i, is_Some (np.item t i 0%nat)) idx → is_Some (np.iadd t idx c).
Proof.
  intros Hin. unfold np.iadd.
  assert (is_Some (np.take t idx)) as [vals ->]; [|by apply put_is_Some].
  apply mapM_is_Some. done.
Qed.

Lemma shape_iadd t idx c t' n k :
  np.shape t n k → np.iadd t idx c = Some t' → np.shape t' n k.
Proof.
  unfold np.iadd. intros Hs H.
  destruct (np.take t idx) as [vals|]; simpl in H; [|done].
  by eapply shape_put.
Qed.

Lemma iadd1_spec t i c t' :
  np.iadd1 t i c = Some t' →
  ∀ r, np.item t' r 0%nat
       = if decide (r = i) then (λ v, v + c) <$> np.item t r 0%nat
         else np.item t r 0%nat.
Proof.
  unfold np.iadd1. intros H r.
  destruct (np.item t i 0%nat) as [v|] eqn:Hi; simpl in H; [|done].
  rewrite (item_set_item _ _ _ _ r H). case_decide; [subst; by rewrite Hi|done].
Qed.

Lemma iadd1_is_Some t i c :
  is_Some (np.item t i 0%nat) → is_Some (np.iadd1 t i c).
Proof.
  intros [v Hv]. unfold np.iadd1. rewrite Hv. simpl.
  apply set_item_is_Some. by eexists.
Qed.

Lemma shape_iadd1 t i c t' n k :
  np.shape t n k → np.iadd1 t i c = Some t' → np.shape t' n k.
Proof.
  unfold np.iadd1. intros Hs H.
  destruct (np.item t i 0%nat); simpl in H; [|done].
  by eapply shape_set_item.
Qed.

Lemma fill_col0_one_column t n v :
  np.shape t n 1 → np.fill_col0 t v = Some (replicate n [v]).
Proof.
  intros [Hn Hk]. unfold np.fill_col0. apply mapM_Some.
  apply Forall2_same_length_lookup. split; [by rewrite length_replicate|].
  intros r row row' Hr Hr'.
  apply lookup_replicate in Hr' as [-> _].
  pose proof (Forall_lookup_1 _ _ _ _ Hk Hr) as L.
  by destruct row as [|x [|]].
Qed.

(** A float32 holds the integers up to 2^24 in magnitude as they are. *)
Lemma float32_exact v : np.exact_in_float32 v → np.float32 v = v.
Proof.
  unfold np.exact_in_float32, np.float32. intros Hv.
  rewrite decide_True; [done|]. lia.
Qed.

(** Beyond 2^24 the odd integers are not float32 numbers: 2^24 + 1 and
    2^24 + 3 are both halfway between two of them and go to the one with the
    even significand, and from 2^25 on the float32 numbers are 4 apart. *)
Lemma float32_rounds :
  np.float32 16777217 = 16777216
  ∧ np.float32 16777218 = 16777218
  ∧ np.float32 16777219 = 16777220
  ∧ np.float32 (-16777217) = -16777216
  ∧ np.float32 33554433 = 33554432
  ∧ np.float32 33554435 = 33554436.
Proof. by split_and!. Qed.

End np_facts.

(** ** FeatureObserver: the requested feature types and the tables *)

Section FeatureObserver_facts.

Import FeatureObserver.

Implicit Types (cls : class) (fts : list FeatureType).

Lemma check_supported_spec cls fts :
  check_supported cls fts
  = if decide (Forall (λ ft, ft ∈ _supported_feature_types cls) fts)
    then Ok () else Raise ValidationError.
Proof.
  induction fts as [|ft fts IH].
  - case_decide as H; [done|]. by destruct H.
  - cbn [check_supported].
    destruct (decide (ft ∈ _supported_feature_types cls)) as [Hft|Hft].
    + rewrite IH. case_decide as H; case_decide as H'; try done.
      * exfalso. by apply H', Forall_cons.
      * exfalso. by apply Forall_cons in H' as [_ ?].
    + clear IH. case_decide as H'; [|done].
      apply Forall_cons in H' as [? _]. contradiction.
Qed.

(** A list argument is refused exactly when it holds an unsupported type, and
    then with a ValidationError. *)
Lemma get_feature_types_list_of_list cls fts :
  _get_feature_types_list cls (FtList fts)
  = if decide (Forall (λ ft, ft ∈ _supported_feature_types cls) fts)
    then Ok fts else Raise ValidationError.
Proof.
  unfold _get_feature_types_list. rewrite check_supported_spec.
  by case_decide.
Qed.

(** [None] stands for all supported types and is never refused. *)
Lemma get_feature_types_list_of_None cls :
  _get_feature_types_list cls FtNone = Ok (_supported_feature_types cls).
Proof. done. Qed.

Lemma mapM_result_Ok {A B} (f : A → result B) (g : A → B) (l : list A) :
  (∀ x, x ∈ l → f x = Ok (g x)) → mapM f l = Ok (g <$> l).
Proof.
  induction l as [|x l IH]; intros H; [done|].
  change (mapM f (x :: l)) with (y ← f x; k ← mapM f l; mret (y :: k)).
  rewrite H by (apply elem_of_cons; by left).
  rewrite IH; [done|]. intros y Hy. apply H, elem_of_cons. by right.
Qed.

Lemma feature_dimensions_int cls inst n fts :
  _feature_size cls = SizeInt n →
  feature_dimensions cls inst fts
  = Ok ((λ ft, (ft, (number_of_entities inst ft, n))) <$> fts).
Proof.
  intros Hn. unfold feature_dimensions, local_feature_size. rewrite Hn.
  set (sizes := list_to_map _).
  assert (∀ ft, ft ∈ fts → sizes !! ft = Some n) as Hsizes.
  { intros ft Hft. apply elem_of_list_to_map_1'.
    - intros y (ft' & [= _ <-] & _)%list_elem_of_fmap. done.
    - apply list_elem_of_fmap. exists ft. split; [done|].
      by apply elem_of_reverse. }
  clearbody sizes. apply mapM_result_Ok. intros ft Hft. simpl.
  by rewrite (Hsizes ft Hft).
Qed.

Lemma make_features_lookup inst n fts ft :
  make_features ((λ ft, (ft, (number_of_entities inst ft, n))) <$> fts) !! ft
  = if decide (ft ∈ fts) then Some (np.zeros (number_of_entities inst ft) n)
    else None.
Proof.
  unfold make_features. case_decide as Hft.
  - apply elem_of_list_to_map_1'.
    + intros y (p & Hp & Hin)%list_elem_of_fmap.
      apply elem_of_reverse, list_elem_of_fmap in Hin as (ft' & -> & _).
      simpl in Hp. by injection Hp as <- <-.
    + apply list_elem_of_fmap. exists (ft, (number_of_entities inst ft, n)).
      split; [done|]. apply elem_of_reverse, list_elem_of_fmap. by exists ft.
  - apply not_elem_of_list_to_map_1. intros Hin. apply Hft.
    apply list_elem_of_fmap in Hin as ([ft' t] & -> & Hin).
    apply list_elem_of_fmap in Hin as ([ft'' [a b]] & [= -> _] & Hin).
    apply elem_of_reverse, list_elem_of_fmap in Hin as (ft3 & [= -> _ _] & Hin).
    done.
Qed.

(** A request for supported types only (as a list, or [None] for all of
    them) succeeds when the feature size is declared as an int, and creates
    exactly one table of zeros per requested type. *)
Lemma new_features_supported cls inst n arg fts :
  _feature_size cls = SizeInt n →
  (arg = FtNone ∧ fts = _supported_feature_types cls
   ∨ arg = FtList fts ∧ Forall (λ ft, ft ∈ _supported_feature_types cls) fts) →
  ∃ features,
    new_features cls inst arg = Ok features
    ∧ ∀ ft, features !! ft
            = if decide (ft ∈ fts)
              then Some (np.zeros (number_of_entities inst ft) n) else None.
Proof.
  intros Hn Harg. eexists. split.
  - unfold new_features.
    assert (_get_feature_types_list cls arg = Ok fts) as ->.
    { destruct Harg as [[-> ->]|[-> Hall]]; [done|].
      rewrite get_feature_types_list_of_list. by rewrite decide_True. }
    simpl. unfold mbind at 1, result_bind.
    rewrite (feature_dimensions_int _ _ n) by done. done.
  - intros ft. apply make_features_lookup.
Qed.

(** Claim C8 at the single-value argument: a class that supports the
    operations table only, asked for [FeatureType.MACHINES] as a single value,
    raises nothing and builds a machines table, although the same request made
    as the list [[FeatureType.MACHINES]] is refused with a ValidationError. *)
Theorem single_unsupported_feature_type_is_accepted (inst : JobShopInstance) :
  (MACHINES ∉ _supported_feature_types operations_only)
  ∧ _get_feature_types_list operations_only (FtOne MACHINES) = Ok [MACHINES]
  ∧ new_features operations_only inst (FtOne MACHINES)
    = Ok (<[MACHINES := np.zeros (num_machines inst) 1]> ∅)
  ∧ _get_feature_types_list operations_only (FtList [MACHINES])
    = Raise ValidationError.
Proof.
  split; [|split; [done|split; [done|]]].
  - simpl. rewrite elem_of_cons. intros [?|?%not_elem_of_nil]; done.
  - rewrite get_feature_types_list_of_list. apply decide_False.
    intros [H _]%Forall_cons. simpl in H.
    apply elem_of_cons in H as [?|?%not_elem_of_nil]; done.
Qed.

End FeatureObserver_facts.

(** ** The dispatching engine *)

Section Dispatcher_facts.

Import Dispatcher.

Implicit Types (d : state) (op : Operation) (inst : JobShopInstance).

Lemma minimum_le (ts : list Z) (t : Z) : t ∈ ts → minimum ts ≤ t.
Proof.
  destruct ts as [|t0 ts]; [by intros ?%not_elem_of_nil|]. simpl.
  revert t0. induction ts as [|t1 ts IH]; intros t0 Hin; simpl.
  - apply elem_of_cons in Hin as [->|?%not_elem_of_nil]; [lia|done].
  - assert (t = t1 ∨ t ∈ t0 :: ts) as [->|Hin'].
    { rewrite !elem_of_cons in Hin. rewrite elem_of_cons. tauto. }
    + lia.
    + specialize (IH t0 Hin'). lia.
Qed.

Lemma minimum_elem_of (ts : list Z) : ts ≠ [] → minimum ts ∈ ts.
Proof.
  destruct ts as [|t0 ts]; [done|]. intros _. simpl.
  revert t0. induction ts as [|t1 ts IH]; intros t0; simpl.
  - apply elem_of_cons; by left.
  - destruct (Z.min_spec t1 (foldr Z.min t0 ts)) as [[_ ->]|[_ ->]].
    + apply elem_of_cons; right. apply elem_of_cons; by left.
    + specialize (IH t0). apply elem_of_cons in IH as [->|IH].
      * apply elem_of_cons; by left.
      * apply elem_of_cons; right. apply elem_of_cons; by right.
Qed.

(** The three preconditions, and nothing else, make [check_commit] raise. *)
Lemma check_commit_spec d op machine start :
  check_commit d op machine start
  = if decide (machine ∉ machines op
               ∨ is_scheduled d op = true
               ∨ start < earliest_start_time d op (Some machine))
    then Raise ValidationError else Ok ().
Proof.
  unfold check_commit.
  destruct (decide (machine ∈ machines op)) as [Hm|Hm].
  - rewrite bool_decide_eq_true_2 by done. simpl.
    destruct (is_scheduled d op) eqn:Hs.
    + rewrite decide_True; [done|]. right; by left.
    + destruct (decide (start < earliest_start_time d op (Some machine))) as [Ht|Ht].
      * rewrite bool_decide_eq_true_2 by done.
        rewrite decide_True; [done|]. right; by right.
      * rewrite bool_decide_eq_false_2 by done.
        rewrite decide_False; [done|]. intros [?|[?|?]]; done.
  - rewrite bool_decide_eq_false_2 by done. simpl.
    rewrite decide_True; [done|]. by left.
Qed.

Lemma machine_lt_num_machines inst op m :
  op ∈ operations inst → m ∈ machines op → (m < num_machines inst)%nat.
Proof.
  intros Hop Hm. unfold num_machines.
  assert (m ∈ operations inst ≫= machines) as Hin.
  { apply list_elem_of_bind. by exists op. }
  destruct (operations inst ≫= machines) as [|m0 ms] eqn:E.
  - by apply not_elem_of_nil in Hin.
  - apply max_list_elem_of_le in Hin. lia.
Qed.

Lemma valid_instance_operation inst op :
  valid_instance inst → op ∈ operations inst →
  (job_id op < num_jobs inst)%nat ∧ machines op ≠ [] ∧ 0 ≤ duration op.
Proof.
  unfold valid_instance, operations, num_jobs. intros Hv Hop.
  apply list_elem_of_join in Hop as (ops & Hop & Hops).
  apply list_elem_of_lookup in Hops as [j Hj].
  assert ((j, ops) ∈ imap (λ j ops, (j, ops)) (jobs inst)) as Hin.
  { apply list_elem_of_lookup. exists j. by rewrite list_lookup_imap, Hj. }
  pose proof (proj1 (Forall_forall _ _) Hv _ Hin) as Hops. simpl in Hops.
  destruct (proj1 (Forall_forall _ _) Hops _ Hop) as (Hjob & ? & ?).
  split; [|done]. rewrite Hjob. by eapply lookup_lt_Some.
Qed.

Lemma earliest_start_time_None_le d op m :
  m ∈ machines op →
  earliest_start_time d op None ≤ earliest_start_time d op (Some m).
Proof.
  intros Hm. unfold earliest_start_time.
  assert (minimum ((λ m, machine_next_available_time d !!! m) <$> machines op)
          ≤ machine_next_available_time d !!! m); [|lia].
  apply minimum_le, list_elem_of_fmap. by exists m.
Qed.

Lemma elem_of_scheduled (s : Schedule) so :
  so ∈ Schedule.scheduled s ↔ ∃ m seq, s !! m = Some seq ∧ so ∈ seq.
Proof.
  unfold Schedule.scheduled. rewrite list_elem_of_join. split.
  - intros (seq & Hso & [m Hm]%list_elem_of_lookup). by exists m, seq.
  - intros (m & seq & Hm & Hso). exists seq. split; [done|].
    apply list_elem_of_lookup. by exists m.
Qed.

Lemma lookup_add (s : Schedule) so m seq' :
  alter (λ seq, seq ++ [so]) (machine_id so) s !! m = Some seq' ↔
  (m = machine_id so ∧ ∃ seq, s !! m = Some seq ∧ seq' = seq ++ [so])
  ∨ (m ≠ machine_id so ∧ s !! m = Some seq').
Proof.
  destruct (decide (m = machine_id so)) as [->|Hne].
  - rewrite list_lookup_alter_eq. destruct (s !! machine_id so) as [seq|]; simpl.
    + split.
      * intros [= <-]. left. split; [done|]. by exists seq.
      * intros [(_ & seq0 & [= <-] & ->)|[? _]]; done.
    + split; [done|]. intros [(_ & seq0 & ? & _)|[? _]]; done.
  - rewrite list_lookup_alter_ne by done. split.
    + intros H. right. done.
    + intros [[? _]|[_ ?]]; done.
Qed.

Lemma elem_of_scheduled_add (s : Schedule) so x :
  (machine_id so < length s)%nat →
  x ∈ Schedule.scheduled (alter (λ seq, seq ++ [so]) (machine_id so) s)
  ↔ x = so ∨ x ∈ Schedule.scheduled s.
Proof.
  intros Hlt. rewrite !elem_of_scheduled. split.
  - intros (m & seq' & Hm & Hx). apply lookup_add in Hm as [(-> & seq & Hm & ->)|[_ Hm]].
    + apply elem_of_app in Hx as [Hx|Hx].
      * right. by exists (machine_id so), seq.
      * left. apply elem_of_cons in Hx as [?|?%not_elem_of_nil]; done.
    + right. by exists m, seq'.
  - intros [->|(m & seq & Hm & Hx)].
    + destruct (lookup_lt_is_Some_2 s _ Hlt) as [seq Hseq].
      exists (machine_id so), (seq ++ [so]). split.
      * apply lookup_add. left. split; [done|]. by exists seq.
      * apply elem_of_app. right. apply elem_of_cons. by left.
    + destruct (decide (m = machine_id so)) as [->|Hne].
      * exists (machine_id so), (seq ++ [so]). split.
        -- apply lookup_add. left. split; [done|]. by exists seq.
        -- apply elem_of_app. by left.
      * exists m, seq. split; [|done]. apply lookup_add. by right.
Qed.

Lemma scheduled_replicate_nil n : Schedule.scheduled (replicate n []) = [].
Proof. unfold Schedule.scheduled. induction n; [done|]. simpl. done. Qed.

Lemma consistent_new inst : consistent inst (new inst).
Proof.
  split; simpl.
  - done.
  - apply length_replicate.
  - apply length_replicate.
  - apply length_replicate.
  - intros m seq so [-> _]%lookup_replicate ?%not_elem_of_nil. done.
  - unfold scheduled_operations. simpl. rewrite scheduled_replicate_nil. simpl.
    induction (operations inst) as [|o os IH]; [done|].
    rewrite filter_cons_True by apply not_elem_of_nil. by f_equal.
Qed.



(** Only a ValidationError leaves [commit_engine]. *)
Lemma commit_engine_raises d op machine start e :
  commit_engine d op machine start = Raise e → e = ValidationError.
Proof.
  unfold commit_engine. rewrite check_commit_spec.
  case_decide; simpl; [by intros [= <-]|].
  unfold Schedule.add. by destruct (Schedule.violates_order _ _); intros [= <-].
Qed.

Lemma scheduled_operations_committed inst d op machine start o :
  consistent inst d → machine ∈ machines op → op ∈ operations inst →
  o ∈ scheduled_operations (committed d op machine start)
  ↔ o = op ∨ o ∈ scheduled_operations d.
Proof.
  intros Hc Hm Hop. unfold scheduled_operations. simpl.
  assert (machine < length (schedule d))%nat as Hlt.
  { rewrite (consistent_schedule _ _ Hc). by eapply machine_lt_num_machines. }
  pose proof (λ x, elem_of_scheduled_add (schedule d)
    {| operation := op; start_time := start; machine_id := machine |} x Hlt)
    as Hadd. simpl in Hadd.
  rewrite !list_elem_of_fmap. split.
  - intros (so & -> & Hso). apply Hadd in Hso as [->|Hso]; [by left|].
    right. by exists so.
  - intros [->|(so & -> & Hso)].
    + eexists. split; [|apply Hadd; by left]. done.
    + exists so. split; [done|]. apply Hadd. by right.
Qed.

(** A valid commit of an operation of the instance keeps the indices
    consistent with the schedule. *)
Lemma consistent_committed inst d op machine start :
  valid_instance inst → consistent inst d → op ∈ operations inst →
  machine ∈ machines op →
  earliest_start_time d op (Some machine) ≤ start →
  consistent inst (committed d op machine start).
Proof.
  intros Hv Hc Hop Hm Hstart.
  destruct (valid_instance_operation _ _ Hv Hop) as (Hjob & _ & Hdur).
  pose proof (machine_lt_num_machines _ _ _ Hop Hm) as Hmlt.
  unfold earliest_start_time in Hstart.
  split; simpl.
  - apply (consistent_instance _ _ Hc).
  - rewrite length_alter. apply (consistent_schedule _ _ Hc).
  - rewrite length_insert. apply (consistent_machines _ _ Hc).
  - rewrite length_insert. apply (consistent_jobs _ _ Hc).
  - intros m seq' so Hseq' Hso. unfold end_time at 2 4. simpl.
    assert (∀ m' seq so', schedule d !! m' = Some seq → so' ∈ seq →
              machine_id so' = m' ∧ operation so' ∈ operations inst
              ∧ m' ∈ machines (operation so')
              ∧ end_time so'
                ≤ <[machine := start + duration op]>
                    (machine_next_available_time d) !!! m'
              ∧ end_time so'
                ≤ <[job_id op := start + duration op]>
                    (job_next_available_time d) !!! job_id (operation so'))
      as Hold.
    { intros m' seq so' Hseq Hso'.
      destruct (consistent_scheduled _ _ Hc _ _ _ Hseq Hso')
        as (? & ? & ? & Hem & Hej).
      repeat split; try done.
      - destruct (decide (machine = m')) as [->|Hne].
        + rewrite list_lookup_total_insert_eq
            by (rewrite (consistent_machines _ _ Hc); done). lia.
        + by rewrite list_lookup_total_insert_ne.
      - destruct (decide (job_id op = job_id (operation so'))) as [Heq|Hne].
        + rewrite <- Heq in *. rewrite list_lookup_total_insert_eq
            by (rewrite (consistent_jobs _ _ Hc); done). lia.
        + by rewrite list_lookup_total_insert_ne. }
    apply (lookup_add _
             {| operation := op; start_time := start; machine_id := machine |})
      in Hseq' as [(-> & seq & Hseq & ->)|[_ Hseq]]; simpl in *.
    + apply elem_of_app in Hso as [Hso|Hso]; [by eapply Hold|].
      apply elem_of_cons in Hso as [->|?%not_elem_of_nil]; [|done].
      unfold end_time. simpl. repeat split; try done.
      * rewrite list_lookup_total_insert_eq
          by (rewrite (consistent_machines _ _ Hc); done). lia.
      * rewrite list_lookup_total_insert_eq
          by (rewrite (consistent_jobs _ _ Hc); done). lia.
    + by eapply Hold.
  - rewrite (consistent_unscheduled _ _ Hc), list_filter_filter.
    apply list_filter_iff. intros o.
    rewrite (scheduled_operations_committed inst) by done.
    split; [intros [? ?] [?|?]; done|]. intros Hno. split.
    + intros ->. apply Hno. by left.
    + intros ?. apply Hno. by right.
Qed.

Section Observed_facts.

Context {Obs : Type}.
Context (update : state → list Obs → ScheduledOperation → Obs → outcome Obs).





(** Claim C1.  For every engine state and every operation with an eligible
    machine, [earliest_start_time(operation)] is the maximum of the job's
    next-available time and the minimum over the eligible machines of their
    next-available times, a minimum that one eligible machine attains and that
    bounds all of them from below; with a machine given, the machine term is
    the entry of that machine; and a commit whose start time is strictly
    below either value fails with a ValidationError. *)
Theorem earliest_start_time_is_the_feasibility_floor d op :
  machines op ≠ [] →
  earliest_start_time d op None
  = Z.max (job_next_available_time d !!! job_id op)
          (minimum ((λ m, machine_next_available_time d !!! m) <$> machines op))
  ∧ (∃ m0, m0 ∈ machines op
       ∧ earliest_start_time d op None
         = Z.max (job_next_available_time d !!! job_id op)
                 (machine_next_available_time d !!! m0)
       ∧ ∀ m, m ∈ machines op →
           machine_next_available_time d !!! m0
           ≤ machine_next_available_time d !!! m)
  ∧ (∀ m, earliest_start_time d op (Some m)
          = Z.max (job_next_available_time d !!! job_id op)
                  (machine_next_available_time d !!! m))
  ∧ (∀ subs m start,
       start < earliest_start_time d op (Some m)
       ∨ start < earliest_start_time d op None →
       commit update {| engine := d; subscribers := subs |} op m start
       = Raised ValidationError {| engine := d; subscribers := subs |}).
Proof.
  intros Hne. split; [done|]. split; [|split; [done|]].
  - set (ts := (λ m, machine_next_available_time d !!! m) <$> machines op).
    assert (minimum ts ∈ ts) as Hin.
    { apply minimum_elem_of. subst ts. by destruct (machines op). }
    pose proof Hin as Hin'. subst ts.
    apply list_elem_of_fmap in Hin' as (m0 & Hm0 & Hin').
    exists m0. split; [done|]. split.
    + unfold earliest_start_time. by rewrite Hm0.
    + intros m Hm. rewrite <- Hm0. apply minimum_le, list_elem_of_fmap.
      by exists m.
  - intros subs m start Hlow. unfold commit, commit_engine. simpl.
    rewrite check_commit_spec. rewrite decide_True; [done|].
    destruct (decide (m ∈ machines op)) as [Hm|Hm]; [|by left].
    right; right. destruct Hlow as [?|Hlow]; [done|].
    pose proof (earliest_start_time_None_le d op m Hm). lia.
Qed.


End Observed_facts.

End Dispatcher_facts.

Lemma flexible_valid : Dispatcher.valid_instance Example.flexible.
Proof. repeat constructor; done. Qed.

(** The engine over [flexible] once [f00], [f10] and [f20] are committed: job
    0 is free at 5, machine 1 at 7 and machine 2 at 4, so that [f01] may start
    at 5, on machine 2, and not before 7 on machine 1. *)
Lemma earliest_start_time_is_the_feasibility_floor_witness :
  Dispatcher.commit_engine (Dispatcher.new Example.flexible) Example.f00 0 0
  = Ok (Scenario.after_f00,
        {| operation := Example.f00; start_time := 0; machine_id := 0 |})
  ∧ Dispatcher.commit_engine Scenario.after_f00 Example.f10 1 0
    = Ok (Scenario.after_f00_f10,
          {| operation := Example.f10; start_time := 0; machine_id := 1 |})
  ∧ Dispatcher.commit_engine Scenario.after_f00_f10 Example.f20 2 0
    = Ok (Scenario.after_f00_f10_f20,
          {| operation := Example.f20; start_time := 0; machine_id := 2 |})
  ∧ Dispatcher.earliest_start_time Scenario.after_f00_f10_f20 Example.f01 None = 5
  ∧ Dispatcher.earliest_start_time Scenario.after_f00_f10_f20 Example.f01
      (Some 1%nat) = 7
  ∧ Dispatcher.earliest_start_time Scenario.after_f00_f10_f20 Example.f01
      (Some 2%nat) = 5
  ∧ Dispatcher.commit (Scenario.completion_update (λ _, []))
      {| Dispatcher.engine := Scenario.after_f00_f10_f20;
         Dispatcher.subscribers := [Scenario.machines_observer] |}
      Example.f01 1%nat 6
    = Raised ValidationError
        {| Dispatcher.engine := Scenario.after_f00_f10_f20;
           Dispatcher.subscribers := [Scenario.machines_observer] |}
  ∧ Dispatcher.commit (Scenario.completion_update (λ _, []))
      {| Dispatcher.engine := Scenario.after_f00_f10_f20;
         Dispatcher.subscribers := [Scenario.machines_observer] |}
      Example.f01 2%nat 4
    = Raised ValidationError
        {| Dispatcher.engine := Scenario.after_f00_f10_f20;
           Dispatcher.subscribers := [Scenario.machines_observer] |}.
Proof.
  assert (machines Example.f01 ≠ []) as Hne by done.
  destruct (earliest_start_time_is_the_feasibility_floor
              (Scenario.completion_update (λ _, []))
              Scenario.after_f00_f10_f20 Example.f01 Hne)
    as (Hmin & _ & Hmachine & Hcommit).
  split; [reflexivity|]. split; [reflexivity|]. split; [reflexivity|].
  split; [rewrite Hmin; reflexivity|].
  split; [rewrite Hmachine; reflexivity|].
  split; [rewrite Hmachine; reflexivity|].
  split; apply Hcommit.
  - left. rewrite Hmachine. reflexivity.
  - right. rewrite Hmin. reflexivity.
Defined.



(** ** IsCompletedObserver *)

Section IsCompletedObserver_facts.

Import IsCompletedObserver.

Implicit Types (self : IsCompletedObserver) (d : Dispatcher.state).

Lemma tracks_true ft self :
  tracks ft self = true ↔ is_Some (features self !! ft).
Proof. unfold tracks. apply bool_decide_eq_true. Qed.

Lemma tracks_false ft self :
  tracks ft self = false ↔ features self !! ft = None.
Proof.
  unfold tracks. rewrite bool_decide_eq_false. symmetry. apply eq_None_not_Some.
Qed.

Lemma remaining_on_machine_cons op ops m :
  remaining_on_machine (op :: ops) m
  = remaining_on_machine ops m + (if decide (m ∈ machines op) then 1 else 0).
Proof.
  unfold remaining_on_machine. case_decide.
  - rewrite filter_cons_True by done. simpl length. lia.
  - rewrite filter_cons_False by done. lia.
Qed.

Lemma remaining_in_job_cons op ops j :
  remaining_in_job (op :: ops) j
  = remaining_in_job ops j + (if decide (j = job_id op) then 1 else 0).
Proof.
  unfold remaining_in_job. case_decide.
  - rewrite filter_cons_True by done. simpl length. lia.
  - rewrite filter_cons_False by done. lia.
Qed.

(** Removing an operation that occurs once lowers by one the count of every
    machine eligible for it and of its job, and no other count. *)
Lemma remaining_on_machine_remove op ops m :
  NoDup ops → op ∈ ops →
  remaining_on_machine (filter (λ o, o ≠ op) ops) m
  = remaining_on_machine ops m - (if decide (m ∈ machines op) then 1 else 0).
Proof.
  induction ops as [|o ops IH]; intros Hnd Hin; [by apply not_elem_of_nil in Hin|].
  apply NoDup_cons in Hnd as [Hno Hnd].
  rewrite remaining_on_machine_cons.
  destruct (decide (o = op)) as [->|Hne].
  - rewrite filter_cons_False by (intros ?; done).
    assert (filter (λ o, o ≠ op) ops = ops) as ->; [|lia].
    clear IH Hin Hnd. induction ops as [|o ops IH]; [done|].
    rewrite filter_cons_True.
    + f_equal. apply IH. intros ?. apply Hno, elem_of_cons. by right.
    + intros ->. apply Hno, elem_of_cons. by left.
  - rewrite filter_cons_True by done. rewrite remaining_on_machine_cons.
    rewrite IH; [lia|done|].
    apply elem_of_cons in Hin as [?|?]; done.
Qed.

Lemma remaining_in_job_remove op ops j :
  NoDup ops → op ∈ ops →
  remaining_in_job (filter (λ o, o ≠ op) ops) j
  = remaining_in_job ops j - (if decide (j = job_id op) then 1 else 0).
Proof.
  induction ops as [|o ops IH]; intros Hnd Hin; [by apply not_elem_of_nil in Hin|].
  apply NoDup_cons in Hnd as [Hno Hnd].
  rewrite remaining_in_job_cons.
  destruct (decide (o = op)) as [->|Hne].
  - rewrite filter_cons_False by (intros ?; done).
    assert (filter (λ o, o ≠ op) ops = ops) as ->; [|lia].
    clear IH Hin Hnd. induction ops as [|o ops IH]; [done|].
    rewrite filter_cons_True.
    + f_equal. apply IH. intros ?. apply Hno, elem_of_cons. by right.
    + intros ->. apply Hno, elem_of_cons. by left.
  - rewrite filter_cons_True by done. rewrite remaining_in_job_cons.
    rewrite IH; [lia|done|].
    apply elem_of_cons in Hin as [?|?]; done.
Qed.

(** *** The two branches of [initialize_features] *)

Lemma item_fmap_seq (f : nat → Z) n r :
  np.item ((λ i, [f i]) <$> seq 0 n) r 0%nat
  = if decide (r < n)%nat then Some (f r) else None.
Proof.
  unfold np.item. rewrite list_lookup_fmap. case_decide as Hr.
  - by rewrite lookup_seq_lt.
  - by rewrite lookup_seq_ge by lia.
Qed.

Lemma shape_fmap_seq (f : nat → Z) n : np.shape ((λ i, [f i]) <$> seq 0 n) n 1.
Proof.
  split; [by rewrite length_fmap, length_seq|].
  apply Forall_fmap, Forall_forall. done.
Qed.

(** One turn of the counting loop. *)
Lemma count_operation_spec op self nm nj :
  np.shape (remaining_ops_per_machine self) nm 1 →
  np.shape (remaining_ops_per_job self) nj 1 →
  (job_id op < nj)%nat → Forall (λ m, (m < nm)%nat) (machines op) →
  ∃ self',
    count_operation op self = Done self'
    ∧ features self' = features self
    ∧ np.shape (remaining_ops_per_machine self') nm 1
    ∧ np.shape (remaining_ops_per_job self') nj 1
    ∧ (∀ m, np.item (remaining_ops_per_machine self') m 0%nat
            = (λ v, v + if tracks MACHINES self
                        then (if decide (m ∈ machines op) then 1 else 0) else 0)
                <$> np.item (remaining_ops_per_machine self) m 0%nat)
    ∧ (∀ j, np.item (remaining_ops_per_job self') j 0%nat
            = (λ v, v + if tracks JOBS self
                        then (if decide (j = job_id op) then 1 else 0) else 0)
                <$> np.item (remaining_ops_per_job self) j 0%nat).
Proof.
  intros HM HJ Hjob Hms. unfold count_operation.
  assert (∀ (o : option Z), (λ v, v + 0) <$> o = o) as Hid.
  { intros [v|]; simpl; [f_equal; lia|done]. }
  destruct (tracks JOBS self) eqn:Hj.
  - destruct (iadd1_is_Some (remaining_ops_per_job self) (job_id op) 1) as [J' HJ'].
    { by eapply shape_item. }
    rewrite HJ'. simpl.
    change (tracks MACHINES (with_job_counters J' self)) with (tracks MACHINES self).
    destruct (tracks MACHINES self) eqn:Hm.
    + destruct (iadd_is_Some (remaining_ops_per_machine self) (machines op) 1)
        as [M' HM'].
      { eapply Forall_impl; [exact Hms|]. intros m ?. by eapply shape_item. }
      simpl. rewrite HM'. eexists. split; [done|]. simpl.
      split_and!; [done|by eapply shape_iadd|by eapply shape_iadd1| |].
      * intros m. rewrite (iadd_spec _ _ _ _ HM' m). by case_decide.
      * intros j. rewrite (iadd1_spec _ _ _ _ HJ' j). by case_decide.
    + eexists. split; [done|]. simpl.
      split_and!; [done|done|by eapply shape_iadd1|done|].
      intros j. rewrite (iadd1_spec _ _ _ _ HJ' j). by case_decide.
  - simpl. destruct (tracks MACHINES self) eqn:Hm.
    + destruct (iadd_is_Some (remaining_ops_per_machine self) (machines op) 1)
        as [M' HM'].
      { eapply Forall_impl; [exact Hms|]. intros m ?. by eapply shape_item. }
      rewrite HM'. eexists. split; [done|]. simpl.
      split_and!; [done|by eapply shape_iadd|done| |done].
      intros m. rewrite (iadd_spec _ _ _ _ HM' m). by case_decide.
    + exists self. split_and!; done.
Qed.

(** The counting loop adds to every counter the number of listed operations
    that concern it. *)
Lemma for_each_count_operation_spec ops nm nj : ∀ self,
  np.shape (remaining_ops_per_machine self) nm 1 →
  np.shape (remaining_ops_per_job self) nj 1 →
  Forall (λ op, (job_id op < nj)%nat ∧ Forall (λ m, (m < nm)%nat) (machines op))
         ops →
  ∃ self',
    for_each count_operation ops self = Done self'
    ∧ features self' = features self
    ∧ np.shape (remaining_ops_per_machine self') nm 1
    ∧ np.shape (remaining_ops_per_job self') nj 1
    ∧ (∀ m, np.item (remaining_ops_per_machine self') m 0%nat
            = (λ v, v + if tracks MACHINES self
                        then remaining_on_machine ops m else 0)
                <$> np.item (remaining_ops_per_machine self) m 0%nat)
    ∧ (∀ j, np.item (remaining_ops_per_job self') j 0%nat
            = (λ v, v + if tracks JOBS self then remaining_in_job ops j else 0)
                <$> np.item (remaining_ops_per_job self) j 0%nat).
Proof.
  induction ops as [|op ops IH]; intros self HM HJ Hops.
  - exists self. split_and!; try done.
    + intros m. destruct (np.item _ m 0%nat); simpl; [|done].
      f_equal. unfold remaining_on_machine. simpl. destruct (tracks _ _); lia.
    + intros j. destruct (np.item _ j 0%nat); simpl; [|done].
      f_equal. unfold remaining_in_job. simpl. destruct (tracks _ _); lia.
  - apply Forall_cons in Hops as [[Hjob Hms] Hops].
    destruct (count_operation_spec op self nm nj HM HJ Hjob Hms)
      as (self1 & H1 & Hf1 & HM1 & HJ1 & Hm1 & Hj1).
    destruct (IH self1 HM1 HJ1 Hops) as (self' & H' & Hf' & HM' & HJ' & Hm' & Hj').
    exists self'. simpl. rewrite H1. simpl.
    split_and!; [done|congruence|done|done| |].
    + intros m. rewrite Hm', Hm1. unfold tracks. rewrite Hf1.
      rewrite remaining_on_machine_cons.
      destruct (np.item _ m 0%nat); simpl; [|done]. f_equal.
      destruct (bool_decide _); lia.
    + intros j. rewrite Hj', Hj1. unfold tracks. rewrite Hf1.
      rewrite remaining_in_job_cons.
      destruct (np.item _ j 0%nat); simpl; [|done]. f_equal.
      destruct (bool_decide _); lia.
Qed.

(** The branch that counts by itself returns, and its counters are the full
    scan for the tracked feature types and zeros for the others. *)
Lemma count_remaining_operations_spec d self :
  let inst := Dispatcher.instance d in
  np.shape (remaining_ops_per_machine self) (num_machines inst) 1 →
  np.shape (remaining_ops_per_job self) (num_jobs inst) 1 →
  Forall (λ op, (job_id op < num_jobs inst)%nat
                ∧ Forall (λ m, (m < num_machines inst)%nat) (machines op))
         (Dispatcher.unscheduled_operations d) →
  count_remaining_operations d self
  = Done {| features := features self;
            remaining_ops_per_machine :=
              if tracks MACHINES self then full_scan_machines d
              else np.zeros (num_machines inst) 1;
            remaining_ops_per_job :=
              if tracks JOBS self then full_scan_jobs d
              else np.zeros (num_jobs inst) 1 |}.
Proof.
  intros inst HM HJ Hops. unfold count_remaining_operations.
  rewrite (fill_col0_one_column _ _ 0 HM). simpl.
  rewrite (fill_col0_one_column _ _ 0 HJ). simpl.
  set (self0 := with_job_counters _ _).
  destruct (for_each_count_operation_spec (Dispatcher.unscheduled_operations d)
              (num_machines inst) (num_jobs inst) self0)
    as (self' & H' & Hf' & HM' & HJ' & Hm' & Hj').
  { apply (shape_zeros _ 1). }
  { apply (shape_zeros _ 1). }
  { done. }
  change (remaining_ops_per_machine self0) with (np.zeros (num_machines inst) 1) in Hm'.
  change (remaining_ops_per_job self0) with (np.zeros (num_jobs inst) 1) in Hj'.
  change (tracks MACHINES self0) with (tracks MACHINES self) in Hm'.
  change (tracks JOBS self0) with (tracks JOBS self) in Hj'.
  rewrite H'. f_equal. destruct self' as [f' M' J']. simpl in *. f_equal.
  - done.
  - eapply one_column_eq; [done| |].
    + destruct (tracks MACHINES self); [apply shape_fmap_seq|apply shape_zeros].
    + intros m. rewrite Hm', item_zeros.
      destruct (tracks MACHINES self).
      * unfold full_scan_machines. rewrite item_fmap_seq. unfold inst in *.
        repeat case_decide; simpl; try done; try (f_equal; lia); lia.
      * rewrite item_zeros. unfold inst in *.
        repeat case_decide; simpl; try done; try (f_equal; lia); lia.
  - eapply one_column_eq; [done| |].
    + destruct (tracks JOBS self); [apply shape_fmap_seq|apply shape_zeros].
    + intros j. rewrite Hj', item_zeros.
      destruct (tracks JOBS self).
      * unfold full_scan_jobs. rewrite item_fmap_seq. unfold inst in *.
        repeat case_decide; simpl; try done; try (f_equal; lia); lia.
      * rewrite item_zeros. unfold inst in *.
        repeat case_decide; simpl; try done; try (f_equal; lia); lia.
Qed.

Lemma final_state_for_each_keeps {A S B} (f : S → B)
    (body : A → S → outcome S) xs :
  (∀ x s, f (final_state (body x s)) = f s) →
  ∀ s, f (final_state (for_each body xs s)) = f s.
Proof.
  intros Hbody. induction xs as [|x xs IH]; intros s; [done|].
  simpl. specialize (Hbody x s).
  destruct (body x s) as [s1|e s1]; simpl in *; [|done].
  by rewrite IH.
Qed.

(** [initialize_features] changes counters only: the feature tables are as
    they were, whether it returns or raises. *)
Lemma initialize_features_keeps_features d subs self :
  features (final_state (initialize_features d subs self))
  = features self.
Proof.
  unfold initialize_features.
  destruct (_get_remaining_operations_observer _ _) as [observer_features|].
  - unfold copy_remaining_operations.
    destruct (tracks JOBS self); [destruct (observer_features !! JOBS)|];
      simpl; try done.
    + change (tracks MACHINES (with_job_counters _ self))
        with (tracks MACHINES self).
      destruct (tracks MACHINES self);
        [destruct (observer_features !! MACHINES)|]; done.
    + destruct (tracks MACHINES self);
        [destruct (observer_features !! MACHINES)|]; done.
  - unfold count_remaining_operations.
    destruct (np.fill_col0 (remaining_ops_per_machine self) 0); [|done]. simpl.
    destruct (np.fill_col0 (remaining_ops_per_job self) 0); [|done]. simpl.
    rewrite (final_state_for_each_keeps features); [done|].
    intros op s. unfold count_operation.
    destruct (tracks JOBS s);
      [destruct (np.iadd1 (remaining_ops_per_job s) (job_id op) 1)|];
      simpl; try done.
    + change (tracks MACHINES (with_job_counters _ s)) with (tracks MACHINES s).
      destruct (tracks MACHINES s); [|done].
      by destruct (np.iadd (remaining_ops_per_machine s) (machines op) 1).
    + destruct (tracks MACHINES s); [|done].
      by destruct (np.iadd (remaining_ops_per_machine s) (machines op) 1).
Qed.

Lemma unscheduled_in_range inst d :
  Dispatcher.valid_instance inst → Dispatcher.consistent inst d →
  Forall (λ op, (job_id op < num_jobs inst)%nat
                ∧ Forall (λ m, (m < num_machines inst)%nat) (machines op))
         (Dispatcher.unscheduled_operations d).
Proof.
  intros Hv Hc. unfold Dispatcher.unscheduled_operations.
  rewrite (Dispatcher.consistent_unscheduled _ _ Hc).
  apply Forall_forall. intros op [_ Hop]%list_elem_of_filter. split.
  - by destruct (valid_instance_operation _ _ Hv Hop).
  - apply Forall_forall. intros m Hm. by eapply machine_lt_num_machines.
Qed.

Lemma has_same_features_spec (feature_types observer_features : Features) :
  has_same_features feature_types observer_features = true
  ↔ ∀ ft, is_Some (feature_types !! ft) → is_Some (observer_features !! ft).
Proof.
  unfold has_same_features. rewrite forallb_forall. split.
  - intros H ft [t Ht]. eapply bool_decide_eq_true_1, H, list_elem_of_In.
    apply list_elem_of_fmap. exists (ft, t). split; [done|].
    by apply elem_of_map_to_list.
  - intros H ft Hft. apply bool_decide_eq_true_2, H.
    apply list_elem_of_In, list_elem_of_fmap in Hft as ([ft' t] & -> & Hin).
    apply elem_of_map_to_list in Hin. by exists t.
Qed.

Lemma get_remaining_operations_observer_covers subs (feature_types : Features)
    observer_features :
  _get_remaining_operations_observer subs feature_types = Some observer_features →
  ∀ ft, is_Some (feature_types !! ft) → is_Some (observer_features !! ft).
Proof.
  induction subs as [|o subs IH]; [done|]. simpl.
  destruct o as [other| | | |]; try done.
  destruct (has_same_features feature_types other) eqn:Hsame; [|done].
  intros [= <-]. by apply has_same_features_spec.
Qed.

Lemma copy_remaining_operations_covered observer_features self :
  (∀ ft, is_Some (features self !! ft) → is_Some (observer_features !! ft)) →
  ∃ self',
    copy_remaining_operations observer_features self = Done self'
    ∧ features self' = features self
    ∧ (if tracks MACHINES self
       then observer_features !! MACHINES = Some (remaining_ops_per_machine self')
       else remaining_ops_per_machine self' = remaining_ops_per_machine self)
    ∧ (if tracks JOBS self
       then observer_features !! JOBS = Some (remaining_ops_per_job self')
       else remaining_ops_per_job self' = remaining_ops_per_job self).
Proof.
  intros Hcov. unfold copy_remaining_operations.
  destruct (tracks JOBS self) eqn:HJ; destruct (tracks MACHINES self) eqn:HM.
  - destruct (Hcov JOBS) as [tj Htj]; [by apply tracks_true|].
    destruct (Hcov MACHINES) as [tm Htm]; [by apply tracks_true|].
    rewrite Htj. simpl.
    change (tracks MACHINES (with_job_counters tj self)) with (tracks MACHINES self).
    rewrite HM, Htm. eexists. by split_and!.
  - destruct (Hcov JOBS) as [tj Htj]; [by apply tracks_true|].
    rewrite Htj. simpl.
    change (tracks MACHINES (with_job_counters tj self)) with (tracks MACHINES self).
    rewrite HM. eexists. by split_and!.
  - destruct (Hcov MACHINES) as [tm Htm]; [by apply tracks_true|].
    simpl. rewrite HM, Htm. eexists. by split_and!.
  - simpl. rewrite HM. eexists. by split_and!.
Qed.

(** Claim C5, amended.  On a consistent engine state,
    [initialize_features] returns on both paths: when no remaining-operations
    observer covers the feature types of the observer it counts the
    unscheduled operations itself, without raising, and when one does it
    copies the tables of that observer as they are.  The counters of the
    counting path are the full-scan counts of the state, those of the copying
    path are the tables of the other observer, and the two paths leave the
    same observer exactly when those tables are the full-scan counts of the
    state for every feature type the observer tracks. *)
Theorem initialize_features_paths_agree inst d subs subs' self observer_features :
  Dispatcher.valid_instance inst → Dispatcher.consistent inst d →
  well_formed inst self →
  _get_remaining_operations_observer subs (features self)
  = Some observer_features →
  _get_remaining_operations_observer subs' (features self) = None →
  ∃ copied counted,
    initialize_features d subs self = Done copied
    ∧ initialize_features d subs' self = Done counted
    ∧ (tracks MACHINES self = true →
       remaining_ops_per_machine counted = full_scan_machines d
       ∧ observer_features !! MACHINES = Some (remaining_ops_per_machine copied))
    ∧ (tracks JOBS self = true →
       remaining_ops_per_job counted = full_scan_jobs d
       ∧ observer_features !! JOBS = Some (remaining_ops_per_job copied))
    ∧ (copied = counted
       ↔ (tracks MACHINES self = true →
          observer_features !! MACHINES = Some (full_scan_machines d))
         ∧ (tracks JOBS self = true →
            observer_features !! JOBS = Some (full_scan_jobs d))).
Proof.
  intros Hv Hc Hwf Hsome Hnone.
  pose proof (Dispatcher.consistent_instance _ _ Hc) as Hinst.
  unfold initialize_features. rewrite Hsome, Hnone.
  rewrite count_remaining_operations_spec; rewrite ?Hinst;
    [|apply Hwf|apply Hwf|by apply unscheduled_in_range].
  destruct (copy_remaining_operations_covered observer_features self)
    as (copied & -> & Hf & HM & HJ).
  { by eapply get_remaining_operations_observer_covers. }
  eexists copied, _. split; [done|]. split; [done|]. simpl.
  destruct (tracks MACHINES self) eqn:HtM; destruct (tracks JOBS self) eqn:HtJ.
  all: split; [by intros|]. all: split; [by intros|].
  all: split.
  all: try (intros ->; simpl in *; split; by intros).
  all: intros [HMs HJs]; destruct copied as [f M J]; simpl in *; subst f.
  all: f_equal.
  all: try (specialize (HMs eq_refl); rewrite HMs in HM; by injection HM).
  all: try (specialize (HJs eq_refl); rewrite HJs in HJ; by injection HJ).
  all: try (rewrite HM; by apply (wf_untracked_machines _ _ Hwf), tracks_false).
  all: try (rewrite HJ; by apply (wf_untracked_jobs _ _ Hwf), tracks_false).
Qed.

Lemma base_supports_all fts :
  Forall (λ ft, ft ∈ FeatureObserver._supported_feature_types FeatureObserver.base)
         fts.
Proof.
  apply Forall_forall. intros ft _. unfold FeatureObserver.base. simpl.
  unfold FeatureObserver.all_feature_types.
  destruct ft; repeat constructor.
Qed.

(** An observer built by [__init__] on a consistent state, with no
    remaining-operations observer among the subscribers, is well formed, and
    its counters are the full scan for the requested types. *)
Lemma init_well_formed inst d feature_types :
  Dispatcher.valid_instance inst → Dispatcher.consistent inst d →
  ∃ self,
    __init__ d [] feature_types = Ok self
    ∧ well_formed inst self
    ∧ (∀ ft t, features self !! ft = Some t →
         t = np.zeros (FeatureObserver.number_of_entities inst ft) 1)
    ∧ remaining_ops_per_machine self
      = (if tracks MACHINES self then full_scan_machines d
         else np.zeros (num_machines inst) 1)
    ∧ remaining_ops_per_job self
      = (if tracks JOBS self then full_scan_jobs d
         else np.zeros (num_jobs inst) 1).
Proof.
  intros Hv Hc. pose proof (Dispatcher.consistent_instance _ _ Hc) as Hinst.
  unfold __init__. rewrite Hinst.
  assert (∃ fts, FeatureObserver._get_feature_types_list FeatureObserver.base
                   feature_types = Ok fts) as [fts ->].
  { destruct feature_types as [|ft|fts]; [by eexists|by eexists|].
    exists fts. rewrite get_feature_types_list_of_list. apply decide_True.
    apply base_supports_all. }
  simpl.
  destruct (new_features_supported FeatureObserver.base inst 1 (FtList fts) fts)
    as (tables & -> & Hfeatures); [done| |].
  { right. split; [done|]. apply base_supports_all. }
  simpl. unfold initialize_features. simpl.
  rewrite count_remaining_operations_spec; rewrite ?Hinst; simpl;
    [|apply shape_zeros|apply shape_zeros|by apply unscheduled_in_range].
  eexists. split; [done|].
  assert (∀ ft t, tables !! ft = Some t →
            t = np.zeros (FeatureObserver.number_of_entities inst ft) 1) as Hz.
  { intros ft t. rewrite Hfeatures. case_decide; [|done]. by intros [= <-]. }
  split; [|split; [done|split; done]].
  split; simpl.
  - destruct (tracks MACHINES _); [|apply shape_zeros].
    unfold full_scan_machines. rewrite Hinst. apply shape_fmap_seq.
  - destruct (tracks JOBS _); [|apply shape_zeros].
    unfold full_scan_jobs. rewrite Hinst. apply shape_fmap_seq.
  - intros ft t Ht. rewrite (Hz ft t Ht). apply shape_zeros.
  - intros Hnone. unfold tracks. simpl. rewrite Hnone.
    by rewrite bool_decide_eq_false_2 by by intros [? ?].
  - intros Hnone. unfold tracks. simpl. rewrite Hnone.
    by rewrite bool_decide_eq_false_2 by by intros [? ?].
Qed.

Section Update_facts.

Context (completed_operations : Dispatcher.state → list Operation).

(** The machines branch of [update]: every row listed in the operation's
    eligible machines loses one remaining operation, and the completion flag
    of exactly those rows is rewritten from the new counter. *)
Lemma update_machines_spec (so : ScheduledOperation) self t :
  features self !! MACHINES = Some t →
  Forall (λ m, is_Some (np.item (remaining_ops_per_machine self) m 0%nat)
               ∧ is_Some (np.item t m 0%nat))
         (machines (operation so)) →
  ∃ counters t',
    update_machines so self
    = Done (with_features (<[MACHINES := t']> (features self))
              (with_machine_counters counters self))
    ∧ (∀ m, np.item counters m 0%nat
            = if decide (m ∈ machines (operation so))
              then (λ v, v - 1) <$> np.item (remaining_ops_per_machine self) m 0%nat
              else np.item (remaining_ops_per_machine self) m 0%nat)
    ∧ (∀ m, np.item t' m 0%nat
            = if decide (m ∈ machines (operation so))
              then (λ v, np.of_bool (bool_decide (v = 0)))
                     <$> np.item counters m 0%nat
              else np.item t m 0%nat)
    ∧ (∀ n k, np.shape (remaining_ops_per_machine self) n k → np.shape counters n k)
    ∧ (∀ n k, np.shape t n k → np.shape t' n k).
Proof.
  intros Ht Hrows. unfold update_machines. rewrite Ht.
  set (ms := machines (operation so)) in *.
  destruct (iadd_is_Some (remaining_ops_per_machine self) ms (-1)) as [counters Hc].
  { eapply Forall_impl; [exact Hrows|]. by intros m [? _]. }
  rewrite Hc. pose proof (iadd_spec _ _ _ _ Hc) as Hcs.
  assert (Forall (λ m, is_Some (np.item counters m 0%nat)) ms) as Hcrows.
  { apply Forall_forall. intros m Hm. rewrite Hcs, decide_True by done.
    apply fmap_is_Some.
    by destruct (proj1 (Forall_forall _ _) Hrows m Hm). }
  destruct (proj2 (mapM_is_Some _ _) Hcrows) as [vals Hvals].
  change (mapM _ ms) with (np.take counters ms) in Hvals. rewrite Hvals.
  apply take_Forall2 in Hvals.
  set (flags := (λ v, np.of_bool (bool_decide (v = 0))) <$> vals).
  destruct (put_is_Some ms t flags) as [t' Ht'].
  { eapply Forall_impl; [exact Hrows|]. by intros m [_ ?]. }
  rewrite Ht'. exists counters, t'. split; [done|].
  assert (Forall2 (λ i v, v = np.of_bool
                    (bool_decide (default 0 (np.item counters i 0%nat) = 0)))
            ms flags) as Hf.
  { apply Forall2_fmap_r. eapply Forall2_impl; [done|].
    intros i v Hi. simpl in *. by rewrite Hi. }
  split; [|split; [|split]].
  - intros m. rewrite Hcs. case_decide; [|done].
    destruct (np.item _ m 0%nat); simpl; [f_equal; lia|done].
  - intros m. rewrite (put_spec _ ms _ _ _ Hf Ht' m).
    case_decide as Hm; [|done].
    destruct (proj1 (Forall_forall _ _) Hcrows m Hm) as [v ->]. done.
  - intros n k Hs. by eapply shape_iadd.
  - intros n k Hs. by eapply shape_put.
Qed.

(** The jobs branch of [update]. *)
Lemma update_jobs_spec (so : ScheduledOperation) self t :
  features self !! JOBS = Some t →
  is_Some (np.item (remaining_ops_per_job self) (job_id (operation so)) 0%nat) →
  is_Some (np.item t (job_id (operation so)) 0%nat) →
  ∃ counters t',
    update_jobs so self
    = Done (with_features (<[JOBS := t']> (features self))
              (with_job_counters counters self))
    ∧ (∀ j, np.item counters j 0%nat
            = if decide (j = job_id (operation so))
              then (λ v, v - 1) <$> np.item (remaining_ops_per_job self) j 0%nat
              else np.item (remaining_ops_per_job self) j 0%nat)
    ∧ (∀ j, np.item t' j 0%nat
            = if decide (j = job_id (operation so))
              then (λ v, np.of_bool (bool_decide (v = 0)))
                     <$> np.item counters j 0%nat
              else np.item t j 0%nat)
    ∧ (∀ n k, np.shape (remaining_ops_per_job self) n k → np.shape counters n k)
    ∧ (∀ n k, np.shape t n k → np.shape t' n k).
Proof.
  intros Ht Hc Hrow. unfold update_jobs. rewrite Ht.
  set (job := job_id (operation so)) in *.
  destruct (iadd1_is_Some _ job (-1) Hc) as [counters Hcs]. rewrite Hcs.
  pose proof (iadd1_spec _ _ _ _ Hcs) as Hspec.
  destruct Hc as [c Hc].
  assert (np.item counters job 0%nat = Some (c - 1)) as Hjob.
  { rewrite Hspec, decide_True, Hc by done. simpl. f_equal; lia. }
  rewrite Hjob.
  destruct (set_item_is_Some t job (np.of_bool (bool_decide (c - 1 = 0))) Hrow)
    as [t' Ht'].
  rewrite Ht'. exists counters, t'. split; [done|].
  split; [|split; [|split]].
  - intros j. rewrite Hspec. case_decide; [|done].
    destruct (np.item _ j 0%nat); simpl; [f_equal; lia|done].
  - intros j. rewrite (item_set_item _ _ _ _ j Ht').
    destruct (decide (j = job)) as [->|Hj]; [by rewrite Hjob|done].
  - intros n k Hs. by eapply shape_iadd1.
  - intros n k Hs. by eapply shape_set_item.
Qed.

(** The operations branch of [update] leaves the counters and the other
    tables alone. *)
Lemma update_operations_spec d self :
  (∀ t, features self !! OPERATIONS = Some t →
        Forall (λ op, is_Some (np.item t (operation_id op) 0%nat))
               (completed_operations d)) →
  ∃ tables,
    update_operations completed_operations d self = Done (with_features tables self)
    ∧ (∀ ft, ft ≠ OPERATIONS → tables !! ft = features self !! ft)
    ∧ (features self !! OPERATIONS = None → tables !! OPERATIONS = None)
    ∧ (∀ t n k, features self !! OPERATIONS = Some t → np.shape t n k →
         ∃ t', tables !! OPERATIONS = Some t' ∧ np.shape t' n k).
Proof.
  intros Hrows. unfold update_operations.
  destruct (features self !! OPERATIONS) as [t|] eqn:Ht.
  - set (ids := operation_id <$> completed_operations d).
    destruct (put_is_Some ids t ((λ _, 1) <$> ids)) as [t' Ht'].
    { subst ids. apply Forall_fmap. by apply Hrows. }
    rewrite Ht'. eexists. split; [done|]. split; [|split].
    + intros ft Hft. by rewrite lookup_insert_ne.
    + done.
    + intros t0 n k [= <-] Hs. exists t'. rewrite lookup_insert_eq.
      split; [done|]. by eapply shape_put.
  - exists (features self). split; [by destruct self|].
    split; [done|]. split; [done|]. done.
Qed.

Lemma update_operations_total d self inst :
  well_formed inst self →
  Forall (λ op, (operation_id op < num_operations inst)%nat)
         (completed_operations d) →
  ∃ self',
    update_operations completed_operations d self = Done self'
    ∧ well_formed inst self'
    ∧ remaining_ops_per_machine self' = remaining_ops_per_machine self
    ∧ remaining_ops_per_job self' = remaining_ops_per_job self
    ∧ ∀ ft, ft ≠ OPERATIONS → features self' !! ft = features self !! ft.
Proof.
  intros Hwf Hids.
  destruct (update_operations_spec d self) as (f & Hupd & Hother & Hnone & Hsome).
  { intros t Ht. eapply Forall_impl; [exact Hids|]. intros op Hop. simpl in *.
    eapply shape_item; [|exact Hop]. by apply (wf_features _ _ Hwf OPERATIONS). }
  eexists. split; [exact Hupd|]. split; [|by simpl]. split; simpl.
  - apply Hwf.
  - apply Hwf.
  - intros ft t. destruct (decide (ft = OPERATIONS)) as [->|Hne].
    + destruct (features self !! OPERATIONS) as [t0|] eqn:Ht0.
      * destruct (Hsome t0 _ _ eq_refl (wf_features _ _ Hwf _ _ Ht0))
          as (t' & -> & Hs). by intros [= <-].
      * by rewrite Hnone.
    + rewrite Hother by done. apply Hwf.
  - rewrite Hother by done. apply Hwf.
  - rewrite Hother by done. apply Hwf.
Qed.

Lemma update_machines_total (so : ScheduledOperation) self inst :
  well_formed inst self →
  Forall (λ m, (m < num_machines inst)%nat) (machines (operation so)) →
  ∃ self',
    update_machines so self = Done self'
    ∧ well_formed inst self'
    ∧ remaining_ops_per_job self' = remaining_ops_per_job self
    ∧ (∀ ft, ft ≠ MACHINES → features self' !! ft = features self !! ft)
    ∧ match features self !! MACHINES with
      | None => self' = self
      | Some t =>
          ∃ t', features self' !! MACHINES = Some t'
            ∧ (∀ m, np.item (remaining_ops_per_machine self') m 0%nat
                    = if decide (m ∈ machines (operation so))
                      then (λ v, v - 1)
                             <$> np.item (remaining_ops_per_machine self) m 0%nat
                      else np.item (remaining_ops_per_machine self) m 0%nat)
            ∧ (∀ m, np.item t' m 0%nat
                    = if decide (m ∈ machines (operation so))
                      then (λ v, np.of_bool (bool_decide (v = 0)))
                             <$> np.item (remaining_ops_per_machine self') m 0%nat
                      else np.item t m 0%nat)
      end.
Proof.
  intros Hwf Hms.
  destruct (features self !! MACHINES) as [t|] eqn:Ht.
  - destruct (update_machines_spec so self t Ht)
      as (counters & t' & Hupd & Hc & Ht' & Hsc & Hst).
    { eapply Forall_impl; [exact Hms|]. intros m Hm. simpl in *. split.
      - eapply shape_item; [apply Hwf|done].
      - eapply shape_item; [|exact Hm]. by apply (wf_features _ _ Hwf MACHINES). }
    eexists. split; [exact Hupd|]. simpl. split; [|split; [done|split]].
    + split; simpl.
      * apply Hsc, Hwf.
      * apply Hwf.
      * intros ft t0. destruct (decide (ft = MACHINES)) as [->|Hne].
        -- rewrite lookup_insert_eq. intros [= <-].
           by apply Hst, (wf_features _ _ Hwf MACHINES).
        -- rewrite lookup_insert_ne by done. apply Hwf.
      * by rewrite lookup_insert_eq.
      * rewrite lookup_insert_ne by done. apply Hwf.
    + intros ft Hne. by rewrite lookup_insert_ne.
    + exists t'. by rewrite lookup_insert_eq.
  - exists self. unfold update_machines. rewrite Ht. done.
Qed.

Lemma update_jobs_total (so : ScheduledOperation) self inst :
  well_formed inst self →
  (job_id (operation so) < num_jobs inst)%nat →
  ∃ self',
    update_jobs so self = Done self'
    ∧ well_formed inst self'
    ∧ remaining_ops_per_machine self' = remaining_ops_per_machine self
    ∧ (∀ ft, ft ≠ JOBS → features self' !! ft = features self !! ft)
    ∧ match features self !! JOBS with
      | None => self' = self
      | Some t =>
          ∃ t', features self' !! JOBS = Some t'
            ∧ (∀ j, np.item (remaining_ops_per_job self') j 0%nat
                    = if decide (j = job_id (operation so))
                      then (λ v, v - 1)
                             <$> np.item (remaining_ops_per_job self) j 0%nat
                      else np.item (remaining_ops_per_job self) j 0%nat)
            ∧ (∀ j, np.item t' j 0%nat
                    = if decide (j = job_id (operation so))
                      then (λ v, np.of_bool (bool_decide (v = 0)))
                             <$> np.item (remaining_ops_per_job self') j 0%nat
                      else np.item t j 0%nat)
      end.
Proof.
  intros Hwf Hjob.
  destruct (features self !! JOBS) as [t|] eqn:Ht.
  - destruct (update_jobs_spec so self t Ht)
      as (counters & t' & Hupd & Hc & Ht' & Hsc & Hst).
    { eapply shape_item; [apply Hwf|done]. }
    { eapply shape_item; [|exact Hjob]. by apply (wf_features _ _ Hwf JOBS). }
    eexists. split; [exact Hupd|]. simpl. split; [|split; [done|split]].
    + split; simpl.
      * apply Hwf.
      * apply Hsc, Hwf.
      * intros ft t0. destruct (decide (ft = JOBS)) as [->|Hne].
        -- rewrite lookup_insert_eq. intros [= <-].
           by apply Hst, (wf_features _ _ Hwf JOBS).
        -- rewrite lookup_insert_ne by done. apply Hwf.
      * rewrite lookup_insert_ne by done. apply Hwf.
      * by rewrite lookup_insert_eq.
    + intros ft Hne. by rewrite lookup_insert_ne.
    + exists t'. by rewrite lookup_insert_eq.
  - exists self. unfold update_jobs. rewrite Ht. done.
Qed.

(** [update] as a whole, on a well-formed observer and an operation of the
    instance: it returns, and keeps the observer well formed. *)
Lemma update_total d subs (so : ScheduledOperation) self inst :
  well_formed inst self →
  Forall (λ m, (m < num_machines inst)%nat) (machines (operation so)) →
  (job_id (operation so) < num_jobs inst)%nat →
  Forall (λ op, (operation_id op < num_operations inst)%nat)
         (completed_operations d) →
  ∃ self1 self2 self',
    update_operations completed_operations d self = Done self1
    ∧ update_machines so self1 = Done self2
    ∧ update_jobs so self2 = Done self'
    ∧ update completed_operations d subs so self = Done self'
    ∧ well_formed inst self1 ∧ well_formed inst self2 ∧ well_formed inst self'.
Proof.
  intros Hwf Hms Hjob Hids.
  destruct (update_operations_total d self inst Hwf Hids) as (self1 & H1 & Hwf1 & _).
  destruct (update_machines_total so self1 inst Hwf1 Hms) as (self2 & H2 & Hwf2 & _).
  destruct (update_jobs_total so self2 inst Hwf2 Hjob) as (self' & H3 & Hwf' & _).
  exists self1, self2, self'. split_and!; try done.
  unfold update. rewrite H1. simpl. rewrite H2. simpl. done.
Qed.

(** The counters follow the engine: when they are the full-scan counts
    before a commit of an unscheduled operation, [update] leaves them the
    full-scan counts of the state after the commit. *)
Lemma update_keeps_counters_in_step inst d op machine start subs self :
  Dispatcher.valid_instance inst → Dispatcher.consistent inst d →
  NoDup (operations inst) →
  well_formed inst self →
  op ∈ Dispatcher.unscheduled_operations d →
  let d' := Dispatcher.committed d op machine start in
  let so := {| operation := op; start_time := start; machine_id := machine |} in
  Forall (λ o, (operation_id o < num_operations inst)%nat)
         (completed_operations d') →
  (tracks MACHINES self = true →
   remaining_ops_per_machine self = full_scan_machines d) →
  (tracks JOBS self = true → remaining_ops_per_job self = full_scan_jobs d) →
  ∃ self',
    update completed_operations d' subs so self = Done self'
    ∧ well_formed inst self'
    ∧ (tracks MACHINES self = true →
       remaining_ops_per_machine self' = full_scan_machines d')
    ∧ (tracks JOBS self = true →
       remaining_ops_per_job self' = full_scan_jobs d').
Proof.
  intros Hv Hc Hnd Hwf Hop d' so Hids HM HJ.
  pose proof (Dispatcher.consistent_instance _ _ Hc) as Hinst.
  pose proof (unscheduled_in_range inst d Hv Hc) as Hrange.
  destruct (proj1 (Forall_forall _ _) Hrange op Hop) as [Hjob Hms].
  assert (NoDup (Dispatcher.unscheduled_operations d)) as Hndu.
  { unfold Dispatcher.unscheduled_operations.
    rewrite (Dispatcher.consistent_unscheduled _ _ Hc). by apply NoDup_filter. }
  destruct (update_total d' subs so self inst Hwf Hms Hjob Hids)
    as (self1 & self2 & self' & H1 & H2 & H3 & Hupd & Hwf1 & Hwf2 & Hwf').
  destruct (update_operations_total d' self inst Hwf Hids)
    as (? & H1' & _ & HM1 & HJ1 & Hf1).
  rewrite H1 in H1'. injection H1' as <-.
  destruct (update_machines_total so self1 inst Hwf1 Hms)
    as (? & H2' & _ & HJ2 & Hf2 & Hmach).
  rewrite H2 in H2'. injection H2' as <-.
  destruct (update_jobs_total so self2 inst Hwf2 Hjob)
    as (? & H3' & _ & HM3 & Hf3 & Hjobs).
  rewrite H3 in H3'. injection H3' as <-.
  exists self'. split; [done|]. split; [done|]. split.
  - intros Htr. specialize (HM Htr). apply tracks_true in Htr as [t Ht].
    rewrite (Hf1 MACHINES), Ht in Hmach by done.
    destruct Hmach as (t' & _ & Hcount & _).
    rewrite HM3. eapply one_column_eq; [apply Hwf2| |].
    + unfold full_scan_machines. simpl. rewrite Hinst. apply shape_fmap_seq.
    + intros m. rewrite Hcount, HM1, HM. unfold full_scan_machines.
      rewrite !item_fmap_seq. simpl.
      unfold Dispatcher.unscheduled_operations. simpl.
      rewrite remaining_on_machine_remove by done.
      repeat case_decide; simpl; try done; f_equal; lia.
  - intros Htr. specialize (HJ Htr). apply tracks_true in Htr as [t Ht].
    rewrite (Hf2 JOBS), (Hf1 JOBS), Ht in Hjobs by done.
    destruct Hjobs as (t' & _ & Hcount & _).
    eapply one_column_eq; [apply Hwf'| |].
    + unfold full_scan_jobs. simpl. rewrite Hinst. apply shape_fmap_seq.
    + intros j. rewrite Hcount, HJ2, HJ1, HJ. unfold full_scan_jobs.
      rewrite !item_fmap_seq. simpl.
      unfold Dispatcher.unscheduled_operations. simpl.
      rewrite remaining_in_job_remove by done.
      repeat case_decide; simpl; try done; f_equal; lia.
Qed.

(** Claim C10.  On a commit, [update] lowers by one the remaining-operations
    counter of every machine in the eligible-machines list of the committed
    operation, whichever machine the operation was assigned to, and rewrites
    the completion flag of those rows only, each from its new counter; the
    counters and flags of all other machines stay as they were.  And the
    counter of a machine is the number of unscheduled operations the machine
    is eligible for, each counted once: this is what the counting loop of
    [initialize_features] leaves in it on a consistent engine state, and what
    [update] leaves in it again after the commit of an unscheduled operation,
    on whichever machine and at whatever time it is committed. *)
Theorem update_decrements_every_eligible_machine :
  (∀ d subs (so : ScheduledOperation) self inst t,
     well_formed inst self →
     features self !! MACHINES = Some t →
     Forall (λ m, (m < num_machines inst)%nat) (machines (operation so)) →
     (job_id (operation so) < num_jobs inst)%nat →
     Forall (λ op, (operation_id op < num_operations inst)%nat)
            (completed_operations d) →
     ∃ self' t',
       update completed_operations d subs so self = Done self'
       ∧ features self' !! MACHINES = Some t'
       ∧ (∀ m, m ∈ machines (operation so) →
            ∃ c, np.item (remaining_ops_per_machine self) m 0%nat = Some c
              ∧ np.item (remaining_ops_per_machine self') m 0%nat = Some (c - 1)
              ∧ np.item t' m 0%nat = Some (if decide (c - 1 = 0) then 1 else 0))
       ∧ (∀ m, m ∉ machines (operation so) →
            np.item (remaining_ops_per_machine self') m 0%nat
            = np.item (remaining_ops_per_machine self) m 0%nat
            ∧ np.item t' m 0%nat = np.item t m 0%nat)
       ∧ (∀ so' : ScheduledOperation, operation so' = operation so →
            update completed_operations d subs so' self = Done self')
       ∧ (∀ ops, NoDup ops → operation so ∈ ops →
            (∀ m, (m < num_machines inst)%nat →
               np.item (remaining_ops_per_machine self) m 0%nat
               = Some (remaining_on_machine ops m)) →
            ∀ m, (m < num_machines inst)%nat →
              np.item (remaining_ops_per_machine self') m 0%nat
              = Some (remaining_on_machine
                        (filter (λ o, o ≠ operation so) ops) m)))
  ∧ (∀ inst d subs self t op machine start,
       Dispatcher.valid_instance inst → Dispatcher.consistent inst d →
       NoDup (operations inst) →
       well_formed inst self →
       features self !! MACHINES = Some t →
       _get_remaining_operations_observer subs (features self) = None →
       op ∈ Dispatcher.unscheduled_operations d →
       let d' := Dispatcher.committed d op machine start in
       let so :=
         {| operation := op; start_time := start; machine_id := machine |} in
       Forall (λ o, (operation_id o < num_operations inst)%nat)
              (completed_operations d') →
       ∃ counted self',
         initialize_features d subs self = Done counted
         ∧ update completed_operations d' subs so counted = Done self'
         ∧ ∀ m, (m < num_machines inst)%nat →
             np.item (remaining_ops_per_machine counted) m 0%nat
             = Some (remaining_on_machine (Dispatcher.unscheduled_operations d) m)
             ∧ np.item (remaining_ops_per_machine self') m 0%nat
               = Some (remaining_on_machine
                         (Dispatcher.unscheduled_operations d') m)
             ∧ remaining_on_machine (Dispatcher.unscheduled_operations d') m
               = remaining_on_machine (Dispatcher.unscheduled_operations d) m
                 - (if decide (m ∈ machines op) then 1 else 0)).
Proof.
  split.
  { intros d subs so self inst t.
    intros Hwf Ht Hms Hjob Hids.
    destruct (update_total d subs so self inst Hwf Hms Hjob Hids)
      as (self1 & self2 & self' & H1 & H2 & H3 & Hupd & Hwf1 & Hwf2 & Hwf').
    destruct (update_operations_total d self inst Hwf Hids)
      as (? & H1' & _ & HM1 & _ & Hf1).
    rewrite H1 in H1'. injection H1' as <-.
    destruct (update_machines_total so self1 inst Hwf1 Hms)
      as (? & H2' & _ & _ & _ & Hmach).
    rewrite H2 in H2'. injection H2' as <-.
    destruct (update_jobs_total so self2 inst Hwf2 Hjob)
      as (? & H3' & _ & HM3 & Hf3 & _).
    rewrite H3 in H3'. injection H3' as <-.
    rewrite (Hf1 MACHINES) in Hmach by done. rewrite Ht in Hmach.
    destruct Hmach as (t' & Ht' & Hc & Hflag).
    rewrite HM1 in Hc. rewrite <- HM3 in Hc, Hflag.
    assert (∀ m, m ∈ machines (operation so) →
              is_Some (np.item (remaining_ops_per_machine self) m 0%nat)) as Hrows.
    { intros m Hm. eapply shape_item; [apply Hwf|].
      by apply (proj1 (Forall_forall _ _) Hms). }
    exists self', t'. split; [done|]. split; [by rewrite Hf3|].
    split; [|split; [|split]].
    - intros m Hm. destruct (Hrows m Hm) as [c Hcm]. exists c.
      split; [done|]. rewrite Hflag, Hc, !decide_True, Hcm by done. simpl.
      split; [done|]. unfold np.of_bool.
      destruct (decide (c - 1 = 0)) as [Hz|Hz].
      + by rewrite bool_decide_eq_true_2.
      + by rewrite bool_decide_eq_false_2.
    - intros m Hm. by rewrite Hflag, Hc, !decide_False.
    - intros so' Hso'. rewrite <- Hupd.
      unfold update, update_machines, update_jobs. by rewrite Hso'.
    - intros ops Hnd Hin Hcount m Hm.
      rewrite Hc, (Hcount m Hm), remaining_on_machine_remove by done.
      by destruct (decide (m ∈ machines (operation so))); simpl; f_equal; lia.
  }
  intros inst d subs self t op machine start Hv Hc Hnd Hwf Ht Hnone Hop d' so
    Hids.
  pose proof (Dispatcher.consistent_instance _ _ Hc) as Hinst.
  assert (tracks MACHINES self = true) as HtM by (apply tracks_true; by eexists).
  assert (NoDup (Dispatcher.unscheduled_operations d)) as Hndu.
  { unfold Dispatcher.unscheduled_operations.
    rewrite (Dispatcher.consistent_unscheduled _ _ Hc). by apply NoDup_filter. }
  unfold initialize_features. rewrite Hnone.
  rewrite count_remaining_operations_spec; rewrite ?Hinst;
    [|apply Hwf|apply Hwf|by apply unscheduled_in_range].
  set (counted := {| features := features self |}).
  assert (well_formed inst counted) as Hwfc.
  { split; simpl.
    - rewrite HtM. unfold full_scan_machines. rewrite Hinst.
      apply shape_fmap_seq.
    - destruct (tracks JOBS self); [|apply shape_zeros].
      unfold full_scan_jobs. rewrite Hinst. apply shape_fmap_seq.
    - apply Hwf.
    - intros HnoM. by rewrite Ht in HnoM.
    - intros HnoJ. by rewrite (proj2 (tracks_false JOBS self) HnoJ). }
  destruct (update_keeps_counters_in_step inst d op machine start subs counted
              Hv Hc Hnd Hwfc Hop Hids)
    as (self' & Hupd & _ & HM' & _).
  { intros _. simpl. by rewrite HtM. }
  { intros HJ. simpl. unfold tracks in HJ. simpl in HJ.
    fold (tracks JOBS self) in HJ. by rewrite HJ. }
  exists counted, self'. split; [done|]. split; [done|].
  intros m Hm. rewrite HM' by done. simpl. rewrite HtM.
  unfold full_scan_machines. simpl. rewrite Hinst, !item_fmap_seq.
  rewrite !decide_True by done. split; [done|]. split; [done|].
  unfold Dispatcher.unscheduled_operations. simpl.
  by rewrite remaining_on_machine_remove.
Qed.

(** A completion flag is raised only over a zero counter: flags that are 0
    or sit over a zero counter stay so through [update]. *)
Lemma update_flags_sound inst d subs (so : ScheduledOperation) self self' t t' :
  well_formed inst self →
  Forall (λ m, (m < num_machines inst)%nat) (machines (operation so)) →
  (job_id (operation so) < num_jobs inst)%nat →
  Forall (λ o, (operation_id o < num_operations inst)%nat)
         (completed_operations d) →
  update completed_operations d subs so self = Done self' →
  features self !! MACHINES = Some t →
  features self' !! MACHINES = Some t' →
  (∀ m, np.item t m 0%nat = Some 1 →
        np.item (remaining_ops_per_machine self) m 0%nat = Some 0) →
  ∀ m, np.item t' m 0%nat = Some 1 →
       np.item (remaining_ops_per_machine self') m 0%nat = Some 0.
Proof.
  intros Hwf Hms Hjob Hids Hupd Ht Ht' Hsound m Hflag.
  destruct (update_total d subs so self inst Hwf Hms Hjob Hids)
    as (self1 & self2 & self0 & H1 & H2 & H3 & Hupd0 & Hwf1 & Hwf2 & _).
  rewrite Hupd in Hupd0. injection Hupd0 as <-.
  destruct (update_operations_total d self inst Hwf Hids)
    as (? & H1' & _ & HM1 & _ & Hf1).
  rewrite H1 in H1'. injection H1' as <-.
  destruct (update_machines_total so self1 inst Hwf1 Hms)
    as (? & H2' & _ & _ & _ & Hmach).
  rewrite H2 in H2'. injection H2' as <-.
  destruct (update_jobs_total so self2 inst Hwf2 Hjob)
    as (? & H3' & _ & HM3 & Hf3 & _).
  rewrite H3 in H3'. injection H3' as <-.
  rewrite (Hf1 MACHINES), Ht in Hmach by done.
  destruct Hmach as (t2 & Ht2 & Hc & Hflags).
  rewrite (Hf3 MACHINES), Ht2 in Ht' by done. injection Ht' as <-.
  rewrite HM3. rewrite Hflags in Hflag. rewrite Hc, HM1 in *.
  destruct (decide (m ∈ machines (operation so))) as [Hm|Hm].
  - destruct (np.item (remaining_ops_per_machine self) m 0%nat) as [c|];
      simpl in *; [|done].
    unfold np.of_bool in Hflag. f_equal.
    destruct (decide (c - 1 = 0)) as [Hz|Hz]; [done|].
    by rewrite bool_decide_eq_false_2 in Hflag.
  - by apply Hsound.
Qed.

End Update_facts.

End IsCompletedObserver_facts.

(** Claim C3 on an observer that subscribes late.  On the instance with one
    operation per machine, [opA] is committed first, which completes machine 0
    and job 0; an observer for machines and jobs is then built, and [opB] is
    committed.  After the update every counter is 0 and equals the full-scan
    count, but only machine 1 and job 1 are flagged completed: the rows of
    machine 0 and job 0, completed before the observer existed, stay 0. *)
Theorem completed_before_subscription_is_never_flagged
    (completed_operations : Dispatcher.state → list Operation) :
  Dispatcher.commit_engine (Dispatcher.new Example.one_each) Example.opA 0 0
  = Ok (Scenario.after_A, Scenario.scheduled_A)
  ∧ IsCompletedObserver.__init__ Scenario.after_A [] (FtList [MACHINES; JOBS])
    = Ok Scenario.late_observer
  ∧ Dispatcher.commit_engine Scenario.after_A Example.opB 1 0
    = Ok (Scenario.after_A_B, Scenario.scheduled_B)
  ∧ IsCompletedObserver.update completed_operations Scenario.after_A_B
      [IsCompleted Scenario.late_observer] Scenario.scheduled_B
      Scenario.late_observer
    = Done Scenario.late_observer_after_B
  ∧ remaining_ops_per_machine Scenario.late_observer_after_B
    = IsCompletedObserver.full_scan_machines Scenario.after_A_B
  ∧ remaining_ops_per_job Scenario.late_observer_after_B
    = IsCompletedObserver.full_scan_jobs Scenario.after_A_B
  ∧ np.item (remaining_ops_per_machine Scenario.late_observer_after_B) 0 0
    = Some 0
  ∧ features Scenario.late_observer_after_B !! MACHINES = Some [[0]; [1]]
  ∧ np.item (remaining_ops_per_job Scenario.late_observer_after_B) 0 0 = Some 0
  ∧ features Scenario.late_observer_after_B !! JOBS = Some [[0]; [1]].
Proof.
  split_and!; try reflexivity.
  all: vm_compute; reflexivity.
Qed.

(** *** The scenario as an instance of the general statements *)

Lemma one_each_valid : Dispatcher.valid_instance Example.one_each.
Proof. repeat constructor; done. Qed.

Lemma after_A_consistent : Dispatcher.consistent Example.one_each Scenario.after_A.
Proof.
  apply consistent_committed.
  - apply one_each_valid.
  - apply consistent_new.
  - apply elem_of_cons. by left.
  - apply elem_of_cons. by left.
  - by vm_compute.
Qed.

Lemma late_observer_well_formed :
  IsCompletedObserver.well_formed Example.one_each Scenario.late_observer.
Proof.
  split.
  - split; [reflexivity|repeat constructor].
  - split; [reflexivity|repeat constructor].
  - intros ft t Ht. destruct ft; vm_compute in Ht; try discriminate;
      injection Ht as <-; (split; [reflexivity|repeat constructor]).
  - intros H. vm_compute in H. discriminate.
  - intros H. vm_compute in H. discriminate.
Qed.

(** The observer built on [after_A] beside a remaining-operations observer
    whose tables are in step with that state. *)
Lemma initialize_features_paths_agree_witness :
  ∃ copied counted,
    IsCompletedObserver.initialize_features Scenario.after_A
      [RemainingOperations Scenario.remaining_operations_tables]
      Scenario.late_observer = Done copied
    ∧ IsCompletedObserver.initialize_features Scenario.after_A []
        Scenario.late_observer = Done counted
    ∧ remaining_ops_per_machine counted = [[0]; [1]]
    ∧ copied = counted.
Proof.
  destruct (initialize_features_paths_agree Example.one_each Scenario.after_A
              [RemainingOperations Scenario.remaining_operations_tables] []
              Scenario.late_observer Scenario.remaining_operations_tables
              one_each_valid after_A_consistent late_observer_well_formed
              eq_refl eq_refl)
    as (copied & counted & Hcopy & Hcount & HM & _ & Hiff).
  exists copied, counted. split; [exact Hcopy|]. split; [exact Hcount|].
  split; [exact (proj1 (HM eq_refl))|].
  apply (proj2 Hiff). split; intros _; reflexivity.
Defined.

(** A counterexample to claim C5 as the specification states it.  On the
    fresh engine over [one_each], where one operation is left for each machine and each
    job, the observer is initialized beside a remaining-operations observer
    whose tables still say that nothing is left, as at a reset of the engine
    that reaches the completion observer first.  The copying path takes the
    counters 0 from those tables; the counting path counts 1 for every machine
    and job. *)
Lemma stale_tables_are_copied_as_they_are :
  IsCompletedObserver._get_remaining_operations_observer
    [RemainingOperations Scenario.finished_tables]
    (features Scenario.fresh_observer)
  = Some Scenario.finished_tables
  ∧ ∃ copied counted,
      IsCompletedObserver.initialize_features (Dispatcher.new Example.one_each)
        [RemainingOperations Scenario.finished_tables] Scenario.fresh_observer
      = Done copied
      ∧ IsCompletedObserver.initialize_features (Dispatcher.new Example.one_each)
          [] Scenario.fresh_observer
        = Done counted
      ∧ remaining_ops_per_machine copied = [[0]; [0]]
      ∧ remaining_ops_per_job copied = [[0]; [0]]
      ∧ remaining_ops_per_machine counted = [[1]; [1]]
      ∧ remaining_ops_per_job counted = [[1]; [1]].
Proof.
  split; [reflexivity|].
  eexists _, _. split; [vm_compute; reflexivity|].
  split; [vm_compute; reflexivity|]. by split_and!.
Qed.

Lemma after_f00_consistent :
  Dispatcher.consistent Example.flexible Scenario.after_f00.
Proof.
  apply consistent_committed.
  - apply flexible_valid.
  - apply consistent_new.
  - apply elem_of_cons. by left.
  - apply elem_of_cons. by left.
  - by vm_compute.
Qed.

Lemma machines_observer_well_formed :
  IsCompletedObserver.well_formed Example.flexible Scenario.machines_observer.
Proof.
  split.
  - split; [reflexivity|repeat constructor].
  - split; [reflexivity|repeat constructor].
  - intros ft t Ht. destruct ft; vm_compute in Ht; try discriminate;
      injection Ht as <-; (split; [reflexivity|repeat constructor]).
  - intros H. vm_compute in H. discriminate.
  - intros _. reflexivity.
Qed.

(** On [after_f00] the operations [f01], [f10] and [f20] are unscheduled:
    none is left for machine 0, and two for each of the machines 1 and 2.
    [f01], which machine 1 and machine 2 can both run, is committed on
    machine 2: the counters of machine 1 and of machine 2 both go from 2 to 1,
    and no flag is raised. *)
Lemma update_decrements_every_eligible_machine_witness :
  ∃ counted self' t',
    IsCompletedObserver.initialize_features Scenario.after_f00 []
      Scenario.machines_observer = Done counted
    ∧ remaining_ops_per_machine counted = [[0]; [2]; [2]]
    ∧ IsCompletedObserver.update (λ _, []) Scenario.after_f00_f01 []
        Scenario.scheduled_f01 counted = Done self'
    ∧ np.item (remaining_ops_per_machine self') 0 0 = Some 0
    ∧ np.item (remaining_ops_per_machine self') 1 0 = Some 1
    ∧ np.item (remaining_ops_per_machine self') 2 0 = Some 1
    ∧ features self' !! MACHINES = Some t'
    ∧ np.item t' 1 0 = Some 0
    ∧ np.item t' 2 0 = Some 0.
Proof.
  destruct (update_decrements_every_eligible_machine (λ _, [])) as [Hdec Hcount].
  assert (NoDup (operations Example.flexible)) as Hnd.
  { apply (bool_decide_unpack _). by vm_compute. }
  assert (Example.f01 ∈ Dispatcher.unscheduled_operations Scenario.after_f00)
    as Hop.
  { apply elem_of_cons. by left. }
  destruct (Hcount Example.flexible Scenario.after_f00 []
              Scenario.machines_observer [[0]; [0]; [0]] Example.f01 2%nat 5
              flexible_valid after_f00_consistent Hnd
              machines_observer_well_formed eq_refl eq_refl Hop (Forall_nil_2 _))
    as (counted & self' & Hinit & Hupd & Hcounters).
  pose proof Hinit as Hcounted. vm_compute in Hcounted.
  injection Hcounted as Hcounted.
  assert (IsCompletedObserver.well_formed Example.flexible counted) as Hwf.
  { rewrite <- Hcounted. split.
    - split; [reflexivity|repeat constructor].
    - split; [reflexivity|repeat constructor].
    - intros ft t Ht. destruct ft; vm_compute in Ht; try discriminate;
        injection Ht as <-; (split; [reflexivity|repeat constructor]).
    - intros H. vm_compute in H. discriminate.
    - intros _. reflexivity. }
  assert (features counted !! MACHINES = Some [[0]; [0]; [0]]) as Ht.
  { by rewrite <- Hcounted. }
  destruct (Hdec Scenario.after_f00_f01 [] Scenario.scheduled_f01 counted
              Example.flexible [[0]; [0]; [0]] Hwf Ht)
    as (self2 & t' & Hupd2 & Ht' & Hin & _).
  { repeat constructor. }
  { repeat constructor. }
  { constructor. }
  assert (Done self2 = Done self') as [= ->] by (rewrite <- Hupd2; exact Hupd).
  exists counted, self', t'. split; [exact Hinit|].
  split; [by rewrite <- Hcounted|]. split; [exact Hupd|].
  split; [exact (proj1 (proj2 (Hcounters 0%nat ltac:(vm_compute; lia))))|].
  split; [exact (proj1 (proj2 (Hcounters 1%nat ltac:(vm_compute; lia))))|].
  split; [exact (proj1 (proj2 (Hcounters 2%nat ltac:(vm_compute; lia))))|].
  split; [exact Ht'|].
  destruct (Hin 1%nat) as (c1 & Hc1 & _ & Hflag1).
  { apply elem_of_cons. by left. }
  destruct (Hin 2%nat) as (c2 & Hc2 & _ & Hflag2).
  { apply elem_of_cons. right. apply elem_of_cons. by left. }
  rewrite <- Hcounted in Hc1, Hc2.
  injection Hc1 as <-. injection Hc2 as <-. split; [exact Hflag1|exact Hflag2].
Defined.

(** ** The inherited [update] and EarliestStartTimeObserver *)

Section EarliestStartTimeObserver_facts.

Import EarliestStartTimeObserver.

Implicit Types (features : Features) (d : Dispatcher.state).

Lemma for_each_fmap {A B S} (h : A → B) (body : B → S → outcome S) xs : ∀ s,
  for_each (λ x, body (h x)) xs s = for_each body (h <$> xs) s.
Proof.
  induction xs as [|x xs IH]; intros s; [done|].
  simpl. destruct (body (h x) s); simpl; [apply IH|done].
Qed.

(** A loop of stores into one table: it returns when every row exists, the
    rows that are not written keep their value, and a row written once holds
    the value written, as a float32. *)
Lemma store_loop ft (xs : list (nat * Z)) : ∀ features t,
  features !! ft = Some t →
  Forall (λ x, is_Some (np.item t x.1 0%nat)) xs →
  ∃ t',
    for_each (λ '(i, v), store ft i v) xs features = Done (<[ft := t']> features)
    ∧ (∀ r, is_Some (np.item t' r 0%nat) ↔ is_Some (np.item t r 0%nat))
    ∧ (NoDup xs.*1 → ∀ i v, (i, v) ∈ xs →
         np.item t' i 0%nat = Some (np.float32 v))
    ∧ (∀ r, r ∉ xs.*1 → np.item t' r 0%nat = np.item t r 0%nat).
Proof.
  induction xs as [|[i v] xs IH]; intros features t Ht Hrows.
  - exists t. simpl. rewrite insert_id by done. split_and!; try done.
    intros _ i v ?%not_elem_of_nil. done.
  - apply Forall_cons in Hrows as [Hi Hrows]. simpl in Hi.
    destruct (set_item_is_Some t i (np.float32 v) Hi) as [t1 Ht1].
    assert (∀ r, np.item t1 r 0%nat
                 = if decide (r = i) then Some (np.float32 v)
                   else np.item t r 0%nat) as Hitem.
    { intros r. by apply item_set_item. }
    destruct (IH (<[ft := t1]> features) t1) as (t' & Hloop & Hsome & Hin & Hout).
    { by rewrite lookup_insert_eq. }
    { eapply Forall_impl; [exact Hrows|]. intros [r w] Hr. simpl in *.
      rewrite Hitem. by case_decide. }
    exists t'. simpl. unfold store at 1. rewrite Ht, Ht1. simpl.
    rewrite Hloop, insert_insert_eq. split_and!; [done| | |].
    + intros r. rewrite Hsome, Hitem. case_decide; [subst|done].
      split; [done|by eexists].
    + intros [Hni Hnd]%NoDup_cons j w [[= -> ->]|Hjw]%elem_of_cons.
      * rewrite Hout by done. rewrite Hitem. by rewrite decide_True.
      * by apply Hin.
    + intros r Hr. simpl in Hr. rewrite Hout, Hitem.
      * rewrite decide_False; [done|]. intros ->. apply Hr, elem_of_cons. by left.
      * intros ?. apply Hr, elem_of_cons. by right.
Qed.

(** The loops over the machines and over the jobs leave every other table as
    it was, whether they return or raise. *)
Lemma store_loop_other ft ft' (now : Z) (xs : list (nat * Z)) : ∀ features,
  ft' ≠ ft →
  final_state (for_each (λ '(i, start_time), store ft i (start_time - now))
                        xs features) !! ft'
  = features !! ft'.
Proof.
  induction xs as [|[i v] xs IH]; intros features Hne; [done|].
  simpl. unfold store at 1.
  destruct (features !! ft) as [t|]; [|done].
  destruct (np.set_item t i 0%nat (np.float32 (v - now))) as [t1|]; [|done].
  simpl. rewrite IH by done. by rewrite lookup_insert_ne.
Qed.

Lemma final_state_and_then {S} (o : outcome S) (f : S → outcome S) :
  final_state (o ;;; f)
  = match o with Done s => final_state (f s) | Raised _ s => s end.
Proof. by destruct o. Qed.

(** Claim C9.  For an observer class that does not override [update],
    calling [update] with any scheduled operation is calling
    [initialize_features] on the current state: same resulting object, same
    exception if one is raised. *)
Theorem inherited_update_is_initialize_features {S} (m : methods S)
    (d : Dispatcher.state) (subs : list Subscriber)
    (scheduled_operation : ScheduledOperation) (self : S) :
  cls_update m = None →
  FeatureObserverMethods.update m d subs scheduled_operation self
  = cls_initialize_features m d subs self.
Proof. intros Hno. unfold FeatureObserverMethods.update. by rewrite Hno. Qed.

Lemma update_operation_features_spec d features t :
  features !! OPERATIONS = Some t →
  Forall (λ op, is_Some (np.item t (operation_id op) 0%nat))
         (Dispatcher.unscheduled_operations d) →
  NoDup (operation_id <$> Dispatcher.unscheduled_operations d) →
  ∃ t',
    _update_operation_features d features = Done (<[OPERATIONS := t']> features)
    ∧ (∀ r, is_Some (np.item t' r 0%nat) ↔ is_Some (np.item t r 0%nat))
    ∧ (∀ op, op ∈ Dispatcher.unscheduled_operations d →
         np.item t' (operation_id op) 0%nat
         = Some (np.float32 (Dispatcher.earliest_start_time d op None
                             - Dispatcher.current_time d)))
    ∧ (∀ r, r ∉ operation_id <$> Dispatcher.unscheduled_operations d →
         np.item t' r 0%nat = np.item t r 0%nat).
Proof.
  intros Ht Hrows Hnd. unfold _update_operation_features.
  set (g := λ op, (operation_id op,
                   Dispatcher.earliest_start_time d op None
                   - Dispatcher.current_time d)).
  rewrite (for_each_fmap g (λ '(i, v), store OPERATIONS i v)).
  assert ((g <$> Dispatcher.unscheduled_operations d).*1
          = operation_id <$> Dispatcher.unscheduled_operations d) as Hids.
  { rewrite <- list_fmap_compose. done. }
  destruct (store_loop OPERATIONS (g <$> Dispatcher.unscheduled_operations d)
              features t Ht) as (t' & Hloop & Hsome & Hin & Hout).
  { apply Forall_fmap. eapply Forall_impl; [exact Hrows|]. done. }
  exists t'. split_and!; [done|done| |].
  - intros op Hop. apply Hin; [by rewrite Hids|].
    apply list_elem_of_fmap. by exists op.
  - intros r Hr. apply Hout. by rewrite Hids.
Qed.

(** The loops over the machines and over the jobs return when their table
    has a row per entry of the index they read. *)
Lemma update_time_features_total ft (times : list Z) now features t :
  features !! ft = Some t →
  (∀ i, (i < length times)%nat → is_Some (np.item t i 0%nat)) →
  ∃ t', for_each (λ '(i, start_time), store ft i (start_time - now))
                 (imap (λ i x, (i, x)) times) features
        = Done (<[ft := t']> features).
Proof.
  intros Ht Hrows.
  set (g := λ x : nat * Z, (x.1, x.2 - now)).
  assert (∀ xs f,
            for_each (λ '(i, start_time), store ft i (start_time - now)) xs f
            = for_each (λ '(i, v), store ft i v) (g <$> xs) f) as Hfmap.
  { induction xs as [|[i x] xs IH]; intros f; [done|]. simpl.
    destruct (store ft i (x - now) f); simpl; [apply IH|done]. }
  rewrite Hfmap.
  destruct (store_loop ft (g <$> imap (λ i x, (i, x)) times) features t Ht)
    as (t' & Hloop & _).
  { apply Forall_fmap, Forall_forall. intros [i x] Hix. simpl.
    apply Hrows. apply list_elem_of_lookup in Hix as [k Hk].
    rewrite list_lookup_imap in Hk.
    destruct (times !! k) eqn:Hk'; simpl in Hk; [|done].
    injection Hk as <- <-. by eapply lookup_lt_Some. }
  by exists t'.
Qed.

(** Claim C4, amended.  After [update], which [EarliestStartTimeObserver]
    inherits and which is [initialize_features], the operations table holds
    in the row of every unscheduled operation the float32 nearest to
    [earliest_start_time(operation) - current_time()], which is that value
    itself when it is at most 2^24 in magnitude; all the unscheduled
    operations are rewritten whatever operation was committed, and the other
    rows are as before.  This holds of the table [update] leaves behind also
    when a later step of the update raises, and [update] returns when the
    machines and jobs tables have a row per machine and per job. *)
Theorem update_rewrites_every_unscheduled_operation d subs
    (scheduled_operation : ScheduledOperation) features t :
  features !! OPERATIONS = Some t →
  Forall (λ op, is_Some (np.item t (operation_id op) 0%nat))
         (Dispatcher.unscheduled_operations d) →
  NoDup (operation_id <$> Dispatcher.unscheduled_operations d) →
  FeatureObserverMethods.update class_methods d subs scheduled_operation features
  = initialize_features d subs features
  ∧ ∃ t',
    final_state (FeatureObserverMethods.update class_methods d subs
                   scheduled_operation features) !! OPERATIONS = Some t'
    ∧ (∀ op, op ∈ Dispatcher.unscheduled_operations d →
         np.exact_in_float32 (Dispatcher.earliest_start_time d op None
                              - Dispatcher.current_time d) →
         np.item t' (operation_id op) 0%nat
         = Some (Dispatcher.earliest_start_time d op None
                 - Dispatcher.current_time d))
    ∧ (∀ op, op ∈ Dispatcher.unscheduled_operations d →
         Z.abs (Dispatcher.earliest_start_time d op None
                - Dispatcher.current_time d) < 2 ^ 53 →
         np.item t' (operation_id op) 0%nat
         = Some (np.float32 (Dispatcher.earliest_start_time d op None
                             - Dispatcher.current_time d)))
    ∧ (∀ r, r ∉ operation_id <$> Dispatcher.unscheduled_operations d →
         np.item t' r 0%nat = np.item t r 0%nat)
    ∧ (∀ tm tj,
         features !! MACHINES = Some tm → features !! JOBS = Some tj →
         (∀ i, (i < length (Dispatcher.machine_next_available_time d))%nat →
               is_Some (np.item tm i 0%nat)) →
         (∀ i, (i < length (Dispatcher.job_next_available_time d))%nat →
               is_Some (np.item tj i 0%nat)) →
         ∃ features',
           FeatureObserverMethods.update class_methods d subs
             scheduled_operation features = Done features').
Proof.
  intros Ht Hrows Hnd. split; [done|].
  destruct (update_operation_features_spec d features t Ht Hrows Hnd)
    as (t' & Hops & _ & Hin & Hout).
  exists t'.
  unfold FeatureObserverMethods.update, FeatureObserverMethods.base_update.
  simpl. unfold initialize_features. rewrite Hops. simpl.
  split_and!; [| | |done|].
  - rewrite final_state_and_then.
    unfold _update_machine_features, _update_job_features.
    destruct (for_each _ _ (<[OPERATIONS:=t']> features)) as [f1|e f1] eqn:Hm.
    + rewrite store_loop_other by done.
      replace f1 with (final_state (Done f1)) by done. rewrite <- Hm.
      rewrite store_loop_other by done. by rewrite lookup_insert_eq.
    + replace f1 with (final_state (Raised e f1)) by done. rewrite <- Hm.
      rewrite store_loop_other by done. by rewrite lookup_insert_eq.
  - intros op Hop Hexact. rewrite (Hin op Hop). f_equal.
    by apply float32_exact.
  - intros op Hop _. by apply Hin.
  - intros tm tj Htm Htj Hmrows Hjrows.
    unfold _update_machine_features, _update_job_features.
    destruct (update_time_features_total MACHINES
                (Dispatcher.machine_next_available_time d)
                (Dispatcher.current_time d) (<[OPERATIONS:=t']> features) tm)
      as (tm' & ->); [by rewrite lookup_insert_ne|done|].
    simpl.
    destruct (update_time_features_total JOBS
                (Dispatcher.job_next_available_time d)
                (Dispatcher.current_time d)
                (<[MACHINES:=tm']> (<[OPERATIONS:=t']> features)) tj)
      as (tj' & ->); [by rewrite !lookup_insert_ne|done|].
    by eexists.
Qed.

End EarliestStartTimeObserver_facts.

Lemma inherited_update_is_initialize_features_witness :
  FeatureObserverMethods.update EarliestStartTimeObserver.class_methods
    Scenario.after_op00 [] Scenario.scheduled_op00 Scenario.zero_features
  = EarliestStartTimeObserver.initialize_features
      Scenario.after_op00 [] Scenario.zero_features.
Proof.
  apply (inherited_update_is_initialize_features
           EarliestStartTimeObserver.class_methods
           Scenario.after_op00 [] Scenario.scheduled_op00 Scenario.zero_features
           eq_refl).
Defined.

(** After [op00] is committed on machine 0 at time 0, the second operation of
    job 0 can start at 3 at the earliest and the current time is 0. *)
Lemma update_rewrites_every_unscheduled_operation_witness :
  ∃ t',
    final_state (FeatureObserverMethods.update
                   EarliestStartTimeObserver.class_methods Scenario.after_op00 []
                   Scenario.scheduled_op00 Scenario.zero_features)
      !! OPERATIONS = Some t'
    ∧ np.item t' 1 0 = Some 3.
Proof.
  assert (Forall (λ op, is_Some (np.item (np.zeros 4 1) (operation_id op) 0%nat))
            (Dispatcher.unscheduled_operations Scenario.after_op00)) as Hrows.
  { repeat constructor; by eexists. }
  assert (NoDup (operation_id
                   <$> Dispatcher.unscheduled_operations Scenario.after_op00))
    as Hnd.
  { apply (bool_decide_unpack _). by vm_compute. }
  destruct (update_rewrites_every_unscheduled_operation Scenario.after_op00 []
              Scenario.scheduled_op00 Scenario.zero_features (np.zeros 4 1)
              eq_refl Hrows Hnd)
    as (_ & t' & Ht' & Hin & _).
  exists t'. split; [exact Ht'|].
  apply (Hin Example.op01); [apply elem_of_cons; by left|].
  vm_compute. split; discriminate.
Defined.

(** A counterexample to claim C4 as the specification states it.  On the
    engine over [long_job] after [l00], which lasts 16777217 = 2^24 + 1, is committed on
    machine 0 at time 0, the operation [l01] is unscheduled and can start at
    16777217 at the earliest, the current time being 0; after [update] its row
    of the operations table holds 16777216. *)
Lemma a_long_wait_is_rounded :
  Example.l01 ∈ Dispatcher.unscheduled_operations Scenario.after_l00
  ∧ Dispatcher.earliest_start_time Scenario.after_l00 Example.l01 None
    - Dispatcher.current_time Scenario.after_l00 = 16777217
  ∧ ∃ features' t',
      FeatureObserverMethods.update EarliestStartTimeObserver.class_methods
        Scenario.after_l00 [] Scenario.scheduled_l00 Scenario.long_job_features
      = Done features'
      ∧ features' !! OPERATIONS = Some t'
      ∧ np.item t' (operation_id Example.l01) 0 = Some 16777216.
Proof.
  split; [apply elem_of_cons; by left|]. split; [reflexivity|].
  eexists _, _. split; [vm_compute; reflexivity|]. split; reflexivity.
Qed.

(** ** The graph: removals happen once *)

Section JobShopGraph_facts.

Import JobShopGraph.

Implicit Types (g : JobShopGraph) (calls : list nat).

Lemma removals_app calls2 calls1 g :
  removals (calls2 ++ calls1) g = removals calls2 (removals calls1 g).
Proof. unfold removals. by rewrite foldr_app. Qed.

Lemma nodes_by_type_removals calls g :
  nodes_by_type (removals calls g) = nodes_by_type g.
Proof. induction calls as [|id calls IH]; [done|]. simpl. exact IH. Qed.

Lemma removal_log_removals calls g :
  removal_log (removals calls g) = calls ++ removal_log g.
Proof. induction calls as [|id calls IH]; [done|]. simpl. by rewrite IH. Qed.

Lemma length_removed_removals calls g :
  length (removed_nodes (removals calls g)) = length (removed_nodes g).
Proof.
  induction calls as [|id calls IH]; [done|]. simpl. by rewrite length_insert.
Qed.

Lemma removed_removals calls g id :
  (∀ c, c ∈ calls → (c < length (removed_nodes g))%nat) →
  removed_nodes (removals calls g) !! id
  = if decide (id ∈ calls) then Some true else removed_nodes g !! id.
Proof.
  induction calls as [|c calls IH]; intros Hrange.
  - change (removals [] g) with g.
    destruct (decide (id ∈ [])) as [?%not_elem_of_nil|]; done.
  - change (removals (c :: calls) g) with (remove_node (removals calls g) c).
    cbn [remove_node with_removed removed_nodes].
    destruct (decide (id = c)) as [->|Hne].
    + rewrite list_lookup_insert_eq.
      * rewrite decide_True; [done|]. apply elem_of_cons. by left.
      * rewrite length_removed_removals. apply Hrange, elem_of_cons. by left.
    + rewrite list_lookup_insert_ne by done. rewrite IH.
      * destruct (decide (id ∈ calls)) as [Hin|Hin].
        -- rewrite decide_True; [done|]. apply elem_of_cons. by right.
        -- rewrite decide_False; [done|]. rewrite elem_of_cons. by intros [?|?].
      * intros c' Hc'. apply Hrange, elem_of_cons. by right.
Qed.

Lemma grows_refl g : grows g g.
Proof.
  exists []. split; [done|]. split; [constructor|].
  intros id ?%not_elem_of_nil. done.
Qed.

Lemma grows_in_range g calls id :
  (∀ c, c ∈ calls → removed_nodes g !! c = Some false) →
  id ∈ calls → (id < length (removed_nodes g))%nat.
Proof. intros H Hin. eapply lookup_lt_Some. by apply H. Qed.

Lemma grows_trans g1 g2 g3 : grows g1 g2 → grows g2 g3 → grows g1 g3.
Proof.
  intros (c1 & -> & Hnd1 & Hf1) (c2 & -> & Hnd2 & Hf2).
  assert (∀ id, removed_nodes (removals c1 g1) !! id
                = if decide (id ∈ c1) then Some true else removed_nodes g1 !! id)
    as Hlookup.
  { intros id. apply removed_removals. intros c. by apply grows_in_range. }
  exists (c2 ++ c1). split; [by rewrite removals_app|]. split.
  - apply NoDup_app. split; [done|]. split; [|done].
    intros id Hin2 Hin1. specialize (Hf2 id Hin2).
    rewrite Hlookup, decide_True in Hf2 by done. done.
  - intros id [Hin2|Hin1]%elem_of_app; [|by apply Hf1].
    specialize (Hf2 id Hin2). rewrite Hlookup in Hf2.
    by destruct (decide (id ∈ c1)).
Qed.

Lemma grows_remove_node g id :
  removed_nodes g !! id = Some false → grows g (remove_node g id).
Proof.
  intros Hid. exists [id]. split; [done|]. split.
  - apply NoDup_singleton.
  - intros c ->%list_elem_of_singleton. done.
Qed.

Lemma grows_nodes_by_type g g' : grows g g' → nodes_by_type g' = nodes_by_type g.
Proof. intros (calls & -> & _). apply nodes_by_type_removals. Qed.

(** A node that is removed stays removed. *)
Lemma grows_removed g g' id :
  grows g g' → removed_nodes g !! id = Some true →
  removed_nodes g' !! id = Some true.
Proof.
  intros (calls & -> & _ & Hf) Hid. rewrite removed_removals.
  - by case_decide.
  - intros c. by apply grows_in_range.
Qed.

(** The calls behind a growth, as the history shows them. *)
Lemma grows_log g g' :
  grows g g' →
  ∃ calls, removal_log g' = calls ++ removal_log g
    ∧ NoDup calls
    ∧ ∀ id, id ∈ calls → removed_nodes g !! id = Some false.
Proof.
  intros (calls & -> & Hnd & Hf). exists calls.
  by rewrite removal_log_removals.
Qed.

Lemma stable_Done : stable Done.
Proof.
  split; [|split].
  - intros g. apply grows_refl.
  - by intros g g1 g' _ _.
  - by intros g e u.
Qed.

Lemma stable_Raised e : stable (Raised e).
Proof.
  split; [|split].
  - intros g. apply grows_refl.
  - by intros g g1 g'.
  - by intros g e' u [= -> ->].
Qed.

Lemma stable_seq step1 step2 :
  stable step1 → stable step2 → stable (λ g, step1 g ;;; step2).
Proof.
  intros (Hg1 & Hd1 & Hr1) (Hg2 & Hd2 & Hr2). split; [|split].
  - intros g. specialize (Hg1 g).
    destruct (step1 g) as [g1|e g1]; simpl in *; [|done].
    eapply grows_trans; [done|]. apply Hg2.
  - intros g g2 g' H Hgrows.
    destruct (step1 g) as [g1|e g1] eqn:H1; simpl in H; [|done].
    pose proof (Hg2 g1) as Hgrows2. rewrite H in Hgrows2. simpl in Hgrows2.
    rewrite (Hd1 g g1 g' H1) by by eapply grows_trans. simpl.
    by eapply Hd2.
  - intros g e u H.
    destruct (step1 g) as [g1|e1 g1] eqn:H1; simpl in H.
    + pose proof (Hg2 g1) as Hgrows2. rewrite H in Hgrows2. simpl in Hgrows2.
      rewrite (Hd1 g g1 u H1 Hgrows2). simpl. by eapply Hr2.
    + injection H as -> ->. by rewrite (Hr1 g e u H1).
Qed.

Lemma stable_for_each {A} (body : A → JobShopGraph → outcome JobShopGraph) xs :
  (∀ x, stable (body x)) → stable (for_each body xs).
Proof.
  intros Hbody. induction xs as [|x xs IH]; [apply stable_Done|].
  apply (stable_seq (body x) (for_each body xs)); [apply Hbody|apply IH].
Qed.

(** A stable step run after itself does nothing more, and ends as it did. *)
Lemma stable_rerun step g :
  stable step → step (final_state (step g)) = step g.
Proof.
  intros (_ & Hd & Hr). destruct (step g) as [g1|e g1] eqn:H; simpl.
  - eapply Hd; [done|apply grows_refl].
  - by eapply Hr.
Qed.

(** Removing a node unless it is removed, the node being looked up in the
    part of the graph that removals do not change. *)
Lemma stable_remove_unless_removed (lookup : JobShopGraph → result Node) :
  (∀ g g', nodes_by_type g' = nodes_by_type g → lookup g' = lookup g) →
  stable (λ g, remove_unless_removed (lookup g) g).
Proof.
  intros Hlookup.
  assert (∀ g, grows g (final_state (remove_unless_removed (lookup g) g))) as Hg.
  { intros g. unfold remove_unless_removed, is_removed.
    destruct (lookup g) as [node|e]; [|apply grows_refl].
    destruct (removed_nodes g !! node_id node) as [[|]|] eqn:Hid; simpl;
      [apply grows_refl|by apply grows_remove_node|apply grows_refl]. }
  split; [done|]. split.
  - intros g g1 g' H Hgrows.
    pose proof (Hg g) as Hgrows1. rewrite H in Hgrows1. simpl in Hgrows1.
    assert (lookup g' = lookup g) as Hl.
    { apply Hlookup. rewrite (grows_nodes_by_type _ _ Hgrows).
      by apply grows_nodes_by_type. }
    unfold remove_unless_removed, is_removed in *. rewrite Hl.
    destruct (lookup g) as [node|e]; [|done].
    assert (removed_nodes g1 !! node_id node = Some true) as Hid1.
    { destruct (removed_nodes g !! node_id node) as [[|]|] eqn:Hid;
        simpl in H; [by injection H as <-| |done].
      injection H as <-. simpl. apply list_lookup_insert_eq.
      by eapply lookup_lt_Some. }
    by rewrite (grows_removed _ _ _ Hgrows Hid1).
  - intros g e u H. unfold remove_unless_removed, is_removed in *.
    destruct (lookup g) as [node|e0] eqn:Hl.
    + destruct (removed_nodes g !! node_id node) as [[|]|] eqn:Hid;
        simpl in H; [done|done|].
      injection H as <- <-. by rewrite Hl, Hid.
    + injection H as <- <-. by rewrite Hl.
Qed.

Lemma stable_remove_completed_operations completed :
  stable (remove_completed_operations completed).
Proof.
  apply stable_for_each. intros op.
  apply (stable_remove_unless_removed (λ g, get_operation_node g (operation_id op))).
  intros g g' Hn. unfold get_operation_node. by rewrite Hn.
Qed.

(** A guard that reads only what removals do not change. *)
Lemma stable_guard (guard : JobShopGraph → bool) step :
  (∀ g g', nodes_by_type g' = nodes_by_type g → guard g' = guard g) →
  stable step → stable (λ g, if guard g then step g else Done g).
Proof.
  intros Hguard (Hg & Hd & Hr). split; [|split].
  - intros g. destruct (guard g); [apply Hg|apply grows_refl].
  - intros g g1 g' H Hgrows.
    assert (grows g g') as Hgg'.
    { eapply grows_trans; [|done].
      destruct (guard g); [|by injection H as <-; apply grows_refl].
      specialize (Hg g). by rewrite H in Hg. }
    rewrite (Hguard g g') by by apply grows_nodes_by_type.
    destruct (guard g); [by eapply Hd|done].
  - intros g e u H.
    assert (grows g u) as Hgu.
    { destruct (guard g); [|done]. specialize (Hg g). by rewrite H in Hg. }
    rewrite (Hguard g u) by by apply grows_nodes_by_type.
    destruct (guard g); [by eapply Hr|done].
Qed.

End JobShopGraph_facts.

(** ** ResidualGraphUpdater *)

Section ResidualGraphUpdater_facts.

Import JobShopGraph ResidualGraphUpdater.

Implicit Types (self : ResidualGraphUpdater) (subs : list Subscriber).

Lemma completion_table_with_graph subs self g ft :
  completion_table subs (with_graph g self) ft = completion_table subs self ft.
Proof. done. Qed.

Lemma remove_completed_machine_nodes_on_graph subs self g :
  _remove_completed_machine_nodes subs (with_graph g self)
  = on_graph (machine_nodes_step (completion_table subs self MACHINES))
             (with_graph g self).
Proof.
  unfold _remove_completed_machine_nodes, machine_nodes_step.
  rewrite completion_table_with_graph.
  destruct (completion_table subs self MACHINES); done.
Qed.

Lemma remove_completed_job_nodes_on_graph subs self g :
  _remove_completed_job_nodes subs (with_graph g self)
  = on_graph (job_nodes_step (completion_table subs self JOBS))
             (with_graph g self).
Proof.
  unfold _remove_completed_job_nodes, job_nodes_step.
  rewrite completion_table_with_graph.
  destruct (completion_table subs self JOBS); done.
Qed.

Lemma find_observer_Some condition subs : ∀ position ref,
  find_observer condition subs position = Some ref →
  ∃ o, (position ≤ ref)%nat ∧ subs !! (ref - position)%nat = Some o
       ∧ condition o = true.
Proof.
  induction subs as [|o subs IH]; intros position ref H; [done|].
  simpl in H. destruct (condition o) eqn:Ho.
  - injection H as <-. exists o. rewrite Nat.sub_diag. done.
  - destruct (IH _ _ H) as (o' & Hle & Hlookup & Ho'). exists o'.
    split; [lia|]. split; [|done].
    replace (ref - position)%nat with (S (ref - S position)) by lia. done.
Qed.

(** The observer [create_or_get_observer] returns is an [IsCompletedObserver]
    of the resulting subscriber list that has a table for every requested
    feature type. *)
Lemma create_or_get_observer_covers d subs feature_types ref subs' :
  create_or_get_observer d subs (has_all_features feature_types) feature_types
  = Ok (ref, subs') →
  ∃ o, subs' !! ref = Some (IsCompleted o)
       ∧ ∀ ft, ft ∈ feature_types → is_Some (features o !! ft).
Proof.
  unfold create_or_get_observer. intros H.
  destruct (find_observer _ subs 0) as [found|] eqn:Hfind.
  - injection H as <- <-.
    destruct (find_observer_Some _ _ _ _ Hfind) as (o & _ & Hlookup & Hcond).
    rewrite Nat.sub_0_r in Hlookup.
    destruct o as [|o| | |]; simpl in Hcond; try done.
    exists o. split; [done|]. intros ft Hft.
    rewrite forallb_forall in Hcond.
    specialize (Hcond ft (proj1 (list_elem_of_In _ _) Hft)).
    by apply bool_decide_eq_true in Hcond.
  - destruct (IsCompletedObserver.__init__ d subs (FtList feature_types))
      as [o|e] eqn:Hinit; simpl in H; [|done].
    injection H as <- <-. exists o. split.
    + by rewrite lookup_app_r, Nat.sub_diag.
    + intros ft Hft. unfold IsCompletedObserver.__init__ in Hinit.
      rewrite get_feature_types_list_of_list in Hinit.
      rewrite decide_True in Hinit by apply base_supports_all. simpl in Hinit.
      destruct (new_features_supported FeatureObserver.base
                  (Dispatcher.instance d) 1 (FtList feature_types) feature_types)
        as (tables & Hnew & Hfeatures); [done| |].
      { right. split; [done|]. apply base_supports_all. }
      rewrite Hnew in Hinit. simpl in Hinit.
      pose proof (initialize_features_keeps_features d subs
                    {| features := tables;
                       remaining_ops_per_machine :=
                         np.zeros (num_machines (Dispatcher.instance d)) 1;
                       remaining_ops_per_job :=
                         np.zeros (num_jobs (Dispatcher.instance d)) 1 |})
        as Hkeep.
      destruct (IsCompletedObserver.initialize_features _ _ _) as [o'|];
        [|done].
      injection Hinit as <-. simpl in Hkeep. rewrite Hkeep, Hfeatures.
      by rewrite decide_True.
Qed.

(** Claim C6.  For an updater that [__init__] has built, the accessor
    [is_completed_observer] raises UninitializedAttributeError exactly when
    both removal flags were False; with a flag set it returns, without error,
    an [IsCompletedObserver] among the subscribers that has the machines table
    when machine nodes are to be removed and the jobs table when job nodes
    are. *)
Theorem is_completed_observer_raises_iff_no_removal_mode d subs graph
    (is_singleton subscribe remove_machines remove_jobs : bool) self subs' :
  __init__ d subs graph is_singleton subscribe remove_machines remove_jobs
  = Ok (self, subs') →
  (is_completed_observer self = Raise UninitializedAttributeError
   ↔ remove_machines = false ∧ remove_jobs = false)
  ∧ (remove_machines = true ∨ remove_jobs = true →
     ∃ ref o,
       is_completed_observer self = Ok ref
       ∧ subs' !! ref = Some (IsCompleted o)
       ∧ (remove_machines = true → is_Some (features o !! MACHINES))
       ∧ (remove_jobs = true → is_Some (features o !! JOBS))).
Proof.
  unfold __init__, _initialize_is_completed_observer_attribute. simpl.
  intros Hinit.
  set (feature_types := (if remove_machines then [MACHINES] else [])
                        ++ (if remove_jobs then [JOBS] else [])) in *.
  destruct (decide (remove_machines = false ∧ remove_jobs = false))
    as [[-> ->]|Hsome].
  - simpl in Hinit.
    destruct (subscribe_updater _ _ _ _) as [subs1|]; simpl in Hinit; [|done].
    injection Hinit as <- <-. split; [done|]. by intros [?|?].
  - assert (feature_types ≠ []) as Hne.
    { subst feature_types. destruct remove_machines, remove_jobs; try done.
      exfalso. by apply Hsome. }
    destruct feature_types as [|ft fts] eqn:Hfts; [done|]. rewrite <- Hfts in *.
    destruct (create_or_get_observer d subs _ feature_types)
      as [[ref subs1]|e] eqn:Hcreate; simpl in Hinit; [|done].
    destruct (subscribe_updater _ _ subs1 _) as [subs2|] eqn:Hsub;
      simpl in Hinit; [|done].
    injection Hinit as <- <-.
    destruct (create_or_get_observer_covers _ _ _ _ _ Hcreate)
      as (o & Hlookup & Hcovers).
    assert (subs2 !! ref = Some (IsCompleted o)) as Hlookup2.
    { unfold subscribe_updater in Hsub.
      destruct (negb subscribe); [by injection Hsub as <-|].
      destruct (is_singleton && _); [done|]. injection Hsub as <-.
      apply lookup_app_l_Some. done. }
    split.
    + split; [done|]. intros [-> ->]. exfalso. by apply Hsome.
    + intros _. exists ref, o. split; [done|]. split; [done|].
      split; intros ->; apply Hcovers; unfold feature_types.
      * apply elem_of_app. left. apply elem_of_cons. by left.
      * apply elem_of_app. right. apply elem_of_cons. by left.
Qed.

Lemma stable_machine_nodes_step table : stable (machine_nodes_step table).
Proof.
  destruct table as [t|e]; [|apply stable_Raised].
  apply stable_for_each. intros [machine_id is_completed].
  destruct (bool_decide (is_completed = 1)); [|apply stable_Done].
  apply (stable_remove_unless_removed (λ g, get_machine_node g machine_id)).
  intros g g' Hn. unfold get_machine_node. by rewrite Hn.
Qed.

Lemma stable_job_nodes_step table : stable (job_nodes_step table).
Proof.
  destruct table as [t|e]; [|apply stable_Raised].
  apply stable_for_each. intros [job_id is_completed].
  destruct (row_equals_one is_completed) as [[|]|e];
    [|apply stable_Done|apply stable_Raised].
  apply (stable_remove_unless_removed (λ g, get_job_node g job_id)).
  intros g g' Hn. unfold get_job_node. by rewrite Hn.
Qed.

Lemma stable_graph_update completed remove_machines remove_jobs
    machines_table jobs_table :
  stable (graph_update completed remove_machines remove_jobs
            machines_table jobs_table).
Proof.
  unfold graph_update.
  apply (stable_seq
           (λ g, remove_completed_operations completed g ;;; _)
           (λ g, if remove_jobs && bool_decide (nodes_by_type g JOB ≠ [])
                 then job_nodes_step jobs_table g else Done g)).
  - apply (stable_seq (remove_completed_operations completed)
             (λ g, if remove_machines
                      && bool_decide (nodes_by_type g MACHINE ≠ [])
                   then machine_nodes_step machines_table g else Done g)).
    + apply stable_remove_completed_operations.
    + apply (stable_guard
               (λ g, remove_machines
                     && bool_decide (nodes_by_type g MACHINE ≠ []))).
      * intros g g' Hn. by rewrite Hn.
      * apply stable_machine_nodes_step.
  - apply (stable_guard
             (λ g, remove_jobs && bool_decide (nodes_by_type g JOB ≠ []))).
    + intros g g' Hn. by rewrite Hn.
    + apply stable_job_nodes_step.
Qed.

Section Update_facts.

Context (completed_operations : Dispatcher.state → list Operation).

(** [update] changes the graph of the updater, by [graph_update], and nothing
    else of it. *)
Lemma update_on_graph d subs (so : ScheduledOperation) self :
  update completed_operations d subs so self
  = on_graph (graph_update (completed_operations d)
                (remove_completed_machine_nodes self)
                (remove_completed_job_nodes self)
                (completion_table subs self MACHINES)
                (completion_table subs self JOBS))
             self.
Proof.
  unfold update, graph_update. unfold on_graph.
  destruct (remove_completed_operations _ _) as [g1|e g1]; simpl; [|done].
  change (remove_completed_machine_nodes (with_graph g1 self))
    with (remove_completed_machine_nodes self).
  destruct (remove_completed_machine_nodes self
            && bool_decide (nodes_by_type g1 MACHINE ≠ [])).
  - rewrite remove_completed_machine_nodes_on_graph. unfold on_graph.
    simpl.
    destruct (machine_nodes_step _ g1) as [g2|e g2]; simpl; [|done].
    change (remove_completed_job_nodes (with_graph g2 (with_graph g1 self)))
      with (remove_completed_job_nodes self).
    destruct (remove_completed_job_nodes self
              && bool_decide (nodes_by_type g2 JOB ≠ [])); [|done].
    change (with_graph g2 (with_graph g1 self)) with (with_graph g2 self).
    rewrite remove_completed_job_nodes_on_graph. unfold on_graph. simpl.
    by destruct (job_nodes_step _ g2).
  - simpl.
    change (remove_completed_job_nodes (with_graph g1 self))
      with (remove_completed_job_nodes self).
    destruct (remove_completed_job_nodes self
              && bool_decide (nodes_by_type g1 JOB ≠ [])); [|done].
    rewrite remove_completed_job_nodes_on_graph. unfold on_graph. simpl.
    by destruct (job_nodes_step _ g1).
Qed.

(** Claim C7.  During an [update], [remove_node] is called only on nodes that
    are not removed: the calls the update adds to the history name no node
    twice and no node that was removed before the update.  And an update run
    again on the same engine state, from the updater the first run left, ends
    as the first run did and leaves the updater, graph included, unchanged. *)
Theorem update_removes_each_node_once d subs
    (scheduled_operation : ScheduledOperation) self :
  (∃ calls,
     removal_log (job_shop_graph
                    (final_state (update completed_operations d subs
                                    scheduled_operation self)))
     = calls ++ removal_log (job_shop_graph self)
     ∧ NoDup calls
     ∧ ∀ id, id ∈ calls →
         removed_nodes (job_shop_graph self) !! id = Some false)
  ∧ (∀ again : ScheduledOperation,
       update completed_operations d subs again
         (final_state (update completed_operations d subs
                         scheduled_operation self))
       = update completed_operations d subs scheduled_operation self).
Proof.
  rewrite !update_on_graph.
  set (step := graph_update _ _ _ _ _).
  pose proof (stable_graph_update (completed_operations d)
                (remove_completed_machine_nodes self)
                (remove_completed_job_nodes self)
                (completion_table subs self MACHINES)
                (completion_table subs self JOBS)) as Hstable.
  fold step in Hstable. split.
  - apply grows_log.
    replace (job_shop_graph (final_state (on_graph step self)))
      with (final_state (step (job_shop_graph self)))
      by (unfold on_graph; by destruct (step (job_shop_graph self))).
    apply Hstable.
  - intros again. rewrite update_on_graph.
    assert (∀ s' g', s' = with_graph g' self →
              graph_update (completed_operations d)
                (remove_completed_machine_nodes s')
                (remove_completed_job_nodes s')
                (completion_table subs s' MACHINES)
                (completion_table subs s' JOBS) = step) as Hsame.
    { by intros s' g' ->. }
    pose proof (stable_rerun step (job_shop_graph self) Hstable) as Hrerun.
    destruct (step (job_shop_graph self)) as [g1|e g1] eqn:Hstep;
      cbn [final_state] in Hrerun.
    + assert (on_graph step self = Done (with_graph g1 self)) as ->.
      { unfold on_graph. by rewrite Hstep. }
      cbn [final_state]. rewrite (Hsame _ g1 eq_refl).
      unfold on_graph. cbn [job_shop_graph with_graph]. by rewrite Hrerun.
    + assert (on_graph step self = Raised e (with_graph g1 self)) as ->.
      { unfold on_graph. by rewrite Hstep. }
      cbn [final_state]. rewrite (Hsame _ g1 eq_refl).
      unfold on_graph. cbn [job_shop_graph with_graph]. by rewrite Hrerun.
Qed.

End Update_facts.

End ResidualGraphUpdater_facts.

(** The updater for both removal modes on the fresh engine over [one_each],
    with no subscriber yet: the constructor creates the completion observer,
    subscribes it and then the updater. *)
Lemma is_completed_observer_raises_iff_no_removal_mode_witness :
  ∃ ref o,
    ResidualGraphUpdater.is_completed_observer Scenario.updater = Ok ref
    ∧ [IsCompleted Scenario.fresh_observer; ResidualGraph Scenario.updater] !! ref
      = Some (IsCompleted o)
    ∧ is_Some (features o !! MACHINES)
    ∧ is_Some (features o !! JOBS).
Proof.
  assert (ResidualGraphUpdater.__init__ (Dispatcher.new Example.one_each) []
            Scenario.graph false true true true
          = Ok (Scenario.updater,
                [IsCompleted Scenario.fresh_observer;
                 ResidualGraph Scenario.updater])) as Hinit.
  { vm_compute. reflexivity. }
  destruct (is_completed_observer_raises_iff_no_removal_mode _ _ _ _ _ _ _ _ _
              Hinit) as [_ Hsome].
  destruct (Hsome (or_introl eq_refl)) as (ref & o & Href & Ho & HM & HJ).
  exists ref, o. split; [exact Href|]. split; [exact Ho|].
  split; [exact (HM eq_refl)|exact (HJ eq_refl)].
Defined.
(** * Further properties of the observers and of the updater *)

(** ** FeatureObserver: the tables of the constructor, and zeroing them *)

Section FeatureObserver_tables.

Import FeatureObserver.

Implicit Types (cls : class) (fts : list FeatureType) (features : Features).

Lemma fill_shape (t : Table) n k v :
  np.shape t n k → np.fill t v = replicate n (replicate k v).
Proof.
  intros [<- Hrows]. unfold np.fill.
  induction t as [|row t IH]; [done|].
  apply Forall_cons in Hrows as [<- Hrows]. cbn. f_equal; [|by apply IH].
  clear. induction row as [|x row IH]; [done|]. cbn. by f_equal.
Qed.

Lemma set_features_to_zero_lookup exclude features ft :
  set_features_to_zero exclude features !! ft
  = (λ t, if decide (ft ∈ excluded exclude) then t else np.fill t 0)
      <$> features !! ft.
Proof.
  unfold set_features_to_zero. rewrite map_lookup_imap.
  by destruct (features !! ft).
Qed.

(** X1: [set_features_to_zero(exclude)] keeps the set of tables, leaves every
    excluded table as it is, whether [exclude] is a single feature type or a
    list, and turns every other table into zeros of the same shape. *)
Theorem set_features_to_zero_clears_all_but_excluded exclude features :
  (∀ ft, is_Some (set_features_to_zero exclude features !! ft)
         ↔ is_Some (features !! ft))
  ∧ (∀ ft t, features !! ft = Some t → ft ∈ excluded exclude →
       set_features_to_zero exclude features !! ft = Some t)
  ∧ (∀ ft t n k, features !! ft = Some t → ft ∉ excluded exclude →
       np.shape t n k →
       set_features_to_zero exclude features !! ft = Some (np.zeros n k)).
Proof.
  split_and!.
  - intros ft. rewrite set_features_to_zero_lookup.
    destruct (features !! ft); simpl; split; intros [? ?]; by eauto.
  - intros ft t Ht Hex. rewrite set_features_to_zero_lookup, Ht. simpl.
    by rewrite decide_True.
  - intros ft t n k Ht Hex Hshape. rewrite set_features_to_zero_lookup, Ht.
    simpl. rewrite decide_False by done. by rewrite (fill_shape _ n k).
Qed.

(** X2: [_get_feature_types_list] raises only for a list argument that holds
    an unsupported type, and then a ValidationError; what it returns for a list
    is that list, all of it supported, and for [None] the supported types. *)
Theorem get_feature_types_list_raises_iff cls arg :
  (∀ e, _get_feature_types_list cls arg = Raise e
        ↔ e = ValidationError
          ∧ ∃ fts ft, arg = FtList fts ∧ ft ∈ fts
                      ∧ ft ∉ _supported_feature_types cls)
  ∧ (∀ fts, _get_feature_types_list cls arg = Ok fts →
       match arg with
       | FtNone => fts = _supported_feature_types cls
       | FtOne ft => fts = [ft]
       | FtList requested =>
           fts = requested
           ∧ Forall (λ ft, ft ∈ _supported_feature_types cls) requested
       end).
Proof.
  destruct arg as [|ft|requested].
  - split; [|by intros fts [= <-]].
    intros e. split; [done|]. by intros (_ & ? & ? & ? & _).
  - split; [|by intros fts [= <-]].
    intros e. split; [done|]. by intros (_ & ? & ? & ? & _).
  - rewrite get_feature_types_list_of_list.
    destruct (decide (Forall (λ ft, ft ∈ _supported_feature_types cls) requested))
      as [Hall|Hnot].
    + split; [|by intros fts [= <-]].
      intros e. split; [done|]. intros (_ & fts & ft & [= <-] & Hin & Hft).
      rewrite Forall_forall in Hall. exfalso. by apply Hft, Hall.
    + split; [|done]. intros e. split.
      * intros [= <-]. split; [done|].
        apply not_Forall_Exists in Hnot; [|apply _].
        apply Exists_exists in Hnot as (ft & Hin & Hft).
        by exists requested, ft.
      * by intros [-> _].
Qed.

(** X3: with [_feature_size] declared as a dictionary the constructor never
    binds its local [feature_size]: every request that passes the validation
    and is not empty raises NameError, and the empty request builds an observer
    without tables. *)
Theorem dict_feature_size_is_never_read cls inst arg sizes fts :
  _feature_size cls = SizeDict sizes →
  _get_feature_types_list cls arg = Ok fts →
  new_features cls inst arg = if decide (fts = []) then Ok ∅ else Raise NameError.
Proof.
  intros Hsizes Hfts. unfold new_features. rewrite Hfts. simpl.
  unfold mbind at 1, result_bind.
  unfold feature_dimensions, local_feature_size. rewrite Hsizes.
  destruct fts as [|ft fts]; [done|]. rewrite decide_False by done. done.
Qed.

(** X4: with [_feature_size] declared as an int the constructor builds, for
    every request that passes the validation, exactly one table of zeros per
    requested feature type, a type listed twice included, with a row per
    entity and as many columns as the property [feature_size] reports. *)
Theorem new_features_tables cls inst n arg fts :
  _feature_size cls = SizeInt n →
  _get_feature_types_list cls arg = Ok fts →
  ∃ features,
    new_features cls inst arg = Ok features
    ∧ (∀ ft, features !! ft
             = if decide (ft ∈ fts)
               then Some (np.zeros (number_of_entities inst ft) n) else None)
    ∧ (∀ ft, feature_size cls features !! ft
             = if decide (ft ∈ fts) then Some n else None)
    ∧ (∀ ft t, features !! ft = Some t →
         np.shape t (number_of_entities inst ft) n).
Proof.
  intros Hn Hfts. eexists. split_and!.
  - unfold new_features. rewrite Hfts. simpl. unfold mbind at 1, result_bind.
    rewrite (feature_dimensions_int _ _ n) by done. done.
  - intros ft. apply make_features_lookup.
  - intros ft. unfold feature_size. rewrite Hn, lookup_fmap.
    rewrite make_features_lookup. by case_decide.
  - intros ft t. rewrite make_features_lookup. case_decide; [|done].
    intros [= <-]. apply shape_zeros.
Qed.

End FeatureObserver_tables.

Lemma dict_feature_size_is_never_read_witness :
  FeatureObserver.new_features Scenario.sized_by_dict Example.two_by_two FtNone
  = Raise NameError.
Proof.
  exact (dict_feature_size_is_never_read Scenario.sized_by_dict
           Example.two_by_two FtNone _ _ eq_refl eq_refl).
Defined.

Lemma new_features_tables_witness :
  ∃ features,
    FeatureObserver.new_features FeatureObserver.base Example.two_by_two
      (FtList [MACHINES; MACHINES]) = Ok features
    ∧ features !! MACHINES = Some [[0]; [0]]
    ∧ features !! JOBS = None.
Proof.
  destruct (new_features_tables FeatureObserver.base Example.two_by_two 1
              (FtList [MACHINES; MACHINES]) [MACHINES; MACHINES]
              eq_refl eq_refl) as (features & Hnew & Hlookup & _).
  exists features. split; [exact Hnew|].
  split; [exact (Hlookup MACHINES)|exact (Hlookup JOBS)].
Defined.

(** ** IsCompletedObserver: the search for the counters, the constructor,
    [reset] and the three branches of [update] *)

Section IsCompletedObserver_more.

Import IsCompletedObserver.

Implicit Types (self : IsCompletedObserver) (d : Dispatcher.state).

(** X5: [_get_remaining_operations_observer] returns the first subscriber that
    is a remaining-operations observer with a table for every feature type the
    completion observer has, and None exactly when the subscribers hold no
    such observer. *)
Theorem get_remaining_operations_observer_finds_the_first subs
    (feature_types : Features) :
  match _get_remaining_operations_observer subs feature_types with
  | Some observer_features =>
      ∃ i, subs !! i = Some (RemainingOperations observer_features)
        ∧ (∀ ft, is_Some (feature_types !! ft) → is_Some (observer_features !! ft))
        ∧ ∀ j other, (j < i)%nat → subs !! j = Some (RemainingOperations other) →
            ∃ ft, is_Some (feature_types !! ft) ∧ other !! ft = None
  | None =>
      ∀ other, RemainingOperations other ∈ subs →
        ∃ ft, is_Some (feature_types !! ft) ∧ other !! ft = None
  end.
Proof.
  assert (∀ other, has_same_features feature_types other = false →
            ∃ ft, is_Some (feature_types !! ft) ∧ other !! ft = None) as Hmiss.
  { intros other Hno. unfold has_same_features in Hno.
    apply not_true_iff_false in Hno. rewrite forallb_forall in Hno.
    destruct (decide (Forall (λ ft, is_Some (other !! ft))
                        (fst <$> map_to_list feature_types))) as [Hall|Hex].
    - exfalso. apply Hno. intros ft Hft%list_elem_of_In.
      apply bool_decide_eq_true_2. by apply (proj1 (Forall_forall _ _) Hall).
    - apply not_Forall_Exists in Hex; [|apply _].
      apply Exists_exists in Hex as (ft & Hin & Hft). exists ft. split.
      + apply list_elem_of_fmap in Hin as ([ft' t] & -> & Hin).
        apply elem_of_map_to_list in Hin. by exists t.
      + simpl in Hft. by apply eq_None_not_Some. }
  induction subs as [|o subs IH]; simpl.
  - by intros other ?%not_elem_of_nil.
  - assert (∀ X : Prop,
      (∀ other, o = RemainingOperations other →
                has_same_features feature_types other = false) →
      match _get_remaining_operations_observer subs feature_types with
      | Some observer_features =>
          ∃ i, (o :: subs) !! i = Some (RemainingOperations observer_features)
            ∧ (∀ ft, is_Some (feature_types !! ft) →
                     is_Some (observer_features !! ft))
            ∧ ∀ j other, (j < i)%nat →
                (o :: subs) !! j = Some (RemainingOperations other) →
                ∃ ft, is_Some (feature_types !! ft) ∧ other !! ft = None
      | None =>
          ∀ other, RemainingOperations other ∈ o :: subs →
            ∃ ft, is_Some (feature_types !! ft) ∧ other !! ft = None
      end) as Hskip.
    { intros _ Ho.
      destruct (_get_remaining_operations_observer subs feature_types)
        as [observer_features|].
      - destruct IH as (i & Hi & Hcov & Hfirst). exists (S i).
        split; [done|]. split; [done|]. intros [|j] other Hj Hother.
        + simpl in Hother. injection Hother as ->. by apply Hmiss, Ho.
        + apply (Hfirst j); [lia|done].
      - intros other [Heq|Hin]%elem_of_cons; [by apply Hmiss, Ho|by apply IH]. }
    destruct o as [observer_features| | | |];
      try (apply (Hskip True); by intros).
    destruct (has_same_features feature_types observer_features) eqn:Hsame.
    + exists 0%nat. split; [done|].
      split; [by apply has_same_features_spec|]. intros; lia.
    + apply (Hskip True). by intros other [= <-].
Qed.


Lemma count_operation_raises op self e self' :
  count_operation op self = Raised e self' → e = IndexError.
Proof.
  unfold count_operation.
  destruct (tracks JOBS self);
    [destruct (np.iadd1 (remaining_ops_per_job self) (job_id op) 1)|]; simpl;
    try (by intros [= <- _]).
  - change (tracks MACHINES (with_job_counters _ self)) with (tracks MACHINES self).
    destruct (tracks MACHINES self); [|done].
    destruct (np.iadd (remaining_ops_per_machine self) (machines op) 1); [done|].
    by intros [= <- _].
  - destruct (tracks MACHINES self); [|done].
    destruct (np.iadd (remaining_ops_per_machine self) (machines op) 1); [done|].
    by intros [= <- _].
Qed.

(** X6: [initialize_features] never touches a feature table, whether it
    returns or raises, so it never raises a completion flag.  When a
    remaining-operations observer is found it cannot raise: the counters of
    the tracked feature types become that observer's tables and the others
    stay.  Counting by itself can only raise IndexError. *)
Theorem initialize_features_changes_counters_only d subs self :
  features (final_state (initialize_features d subs self)) = features self
  ∧ (∀ e self', initialize_features d subs self = Raised e self' →
       e = IndexError
       ∧ _get_remaining_operations_observer subs (features self) = None)
  ∧ (∀ observer_features,
       _get_remaining_operations_observer subs (features self)
       = Some observer_features →
       ∃ self',
         initialize_features d subs self = Done self'
         ∧ (if tracks MACHINES self
            then observer_features !! MACHINES
                 = Some (remaining_ops_per_machine self')
            else remaining_ops_per_machine self' = remaining_ops_per_machine self)
         ∧ (if tracks JOBS self
            then observer_features !! JOBS = Some (remaining_ops_per_job self')
            else remaining_ops_per_job self' = remaining_ops_per_job self)).
Proof.
  split; [apply initialize_features_keeps_features|].
  unfold initialize_features.
  destruct (_get_remaining_operations_observer subs (features self))
    as [observer_features|] eqn:Hget.
  - destruct (copy_remaining_operations_covered observer_features self)
      as (self' & Hcopy & _ & HM & HJ).
    { by eapply get_remaining_operations_observer_covers. }
    split.
    + intros e s. by rewrite Hcopy.
    + intros ? [= <-]. by exists self'.
  - split; [|done]. intros e self' Hraised. split; [|done].
    unfold count_remaining_operations in Hraised.
    destruct (np.fill_col0 (remaining_ops_per_machine self) 0);
      simpl in Hraised; [|by injection Hraised as <- _].
    destruct (np.fill_col0 (remaining_ops_per_job _) 0);
      simpl in Hraised; [|by injection Hraised as <- _].
    apply for_each_Raised in Hraised as (op & s1 & _ & Hop).
    by eapply count_operation_raises.
Qed.

Lemma initialize_features_from_any_counters inst d subs self1 self2 :
  Dispatcher.valid_instance inst → Dispatcher.consistent inst d →
  features self1 = features self2 →
  np.shape (remaining_ops_per_machine self1) (num_machines inst) 1 →
  np.shape (remaining_ops_per_job self1) (num_jobs inst) 1 →
  np.shape (remaining_ops_per_machine self2) (num_machines inst) 1 →
  np.shape (remaining_ops_per_job self2) (num_jobs inst) 1 →
  (features self1 !! MACHINES = None →
   remaining_ops_per_machine self1 = remaining_ops_per_machine self2) →
  (features self1 !! JOBS = None →
   remaining_ops_per_job self1 = remaining_ops_per_job self2) →
  ∃ self',
    initialize_features d subs self1 = Done self'
    ∧ initialize_features d subs self2 = Done self'.
Proof.
  intros Hv Hc Hf HM1 HJ1 HM2 HJ2 HuM HuJ.
  pose proof (Dispatcher.consistent_instance _ _ Hc) as Hinst.
  assert (∀ ft, tracks ft self2 = tracks ft self1) as Htracks.
  { intros ft. unfold tracks. by rewrite Hf. }
  unfold initialize_features. rewrite <- Hf.
  destruct (_get_remaining_operations_observer subs (features self1))
    as [observer_features|] eqn:Hget.
  - pose proof (get_remaining_operations_observer_covers _ _ _ Hget) as Hcov.
    destruct (copy_remaining_operations_covered observer_features self1 Hcov)
      as (s1 & H1 & Hf1 & HMa & HJa).
    destruct (copy_remaining_operations_covered observer_features self2)
      as (s2 & H2 & Hf2 & HMb & HJb); [by rewrite <- Hf|].
    exists s1. split; [done|]. rewrite H2. f_equal.
    rewrite !Htracks in *.
    destruct s1 as [f1 m1 j1], s2 as [f2 m2 j2]. simpl in *. f_equal.
    + congruence.
    + destruct (tracks MACHINES self1) eqn:HM; [congruence|].
      apply tracks_false in HM. rewrite HMa, HMb. symmetry. by apply HuM.
    + destruct (tracks JOBS self1) eqn:HJ; [congruence|].
      apply tracks_false in HJ. rewrite HJa, HJb. symmetry. by apply HuJ.
  - rewrite !count_remaining_operations_spec; rewrite ?Hinst; try done;
      try by apply unscheduled_in_range.
    eexists. split; [done|]. by rewrite !Htracks, Hf.
Qed.

(** X7: on a consistent engine state the constructor never raises, whatever
    the subscribers are.  It builds one table of zeros per requested feature
    type, so no flag is raised yet; the counter of a requested type is the
    table of the remaining-operations observer it found, or else the count
    over the unscheduled operations, and the counter of any other type is
    zero. *)
Theorem init_builds_zero_tables_and_counters inst d subs feature_types :
  Dispatcher.valid_instance inst → Dispatcher.consistent inst d →
  ∃ fts self,
    FeatureObserver._get_feature_types_list FeatureObserver.base feature_types
    = Ok fts
    ∧ __init__ d subs feature_types = Ok self
    ∧ (∀ ft, features self !! ft
             = if decide (ft ∈ fts)
               then Some (np.zeros (FeatureObserver.number_of_entities inst ft) 1)
               else None)
    ∧ flags_sound self
    ∧ match _get_remaining_operations_observer subs (features self) with
      | Some observer_features =>
          (if tracks MACHINES self
           then observer_features !! MACHINES
                = Some (remaining_ops_per_machine self)
           else remaining_ops_per_machine self = np.zeros (num_machines inst) 1)
          ∧ (if tracks JOBS self
             then observer_features !! JOBS = Some (remaining_ops_per_job self)
             else remaining_ops_per_job self = np.zeros (num_jobs inst) 1)
      | None =>
          well_formed inst self
          ∧ remaining_ops_per_machine self
            = (if tracks MACHINES self then full_scan_machines d
               else np.zeros (num_machines inst) 1)
          ∧ remaining_ops_per_job self
            = (if tracks JOBS self then full_scan_jobs d
               else np.zeros (num_jobs inst) 1)
      end.
Proof.
  intros Hv Hc. pose proof (Dispatcher.consistent_instance _ _ Hc) as Hinst.
  unfold __init__. rewrite Hinst.
  assert (∃ fts, FeatureObserver._get_feature_types_list FeatureObserver.base
                   feature_types = Ok fts) as [fts Hfts].
  { destruct feature_types as [|ft|fts]; [by eexists|by eexists|].
    exists fts. rewrite get_feature_types_list_of_list. apply decide_True.
    apply base_supports_all. }
  exists fts. rewrite Hfts. simpl.
  destruct (new_features_supported FeatureObserver.base inst 1 (FtList fts) fts)
    as (tables & -> & Hfeatures); [done| |].
  { right. split; [done|]. apply base_supports_all. }
  simpl.
  set (self0 := {| features := tables;
                   remaining_ops_per_machine := np.zeros (num_machines inst) 1;
                   remaining_ops_per_job := np.zeros (num_jobs inst) 1 |}).
  assert (∀ self, features self = tables → flags_sound self) as Hflags.
  { intros self Hf. split; intros t r; rewrite Hf, Hfeatures;
      (case_decide; [|done]); intros [= <-]; rewrite item_zeros;
      by case_decide. }
  assert (∀ ft t, tables !! ft = Some t →
            np.shape t (FeatureObserver.number_of_entities inst ft) 1) as Hshapes.
  { intros ft t. rewrite Hfeatures. case_decide; [|done].
    intros [= <-]. apply shape_zeros. }
  unfold initialize_features. change (features self0) with tables.
  destruct (_get_remaining_operations_observer subs tables)
    as [observer_features|] eqn:Hget.
  - pose proof (get_remaining_operations_observer_covers _ _ _ Hget) as Hcov.
    destruct (copy_remaining_operations_covered observer_features self0 Hcov)
      as (self & Hcopy & Hf & HM & HJ).
    rewrite Hcopy. exists self. split; [done|]. split; [done|].
    split; [by rewrite Hf|]. split; [by apply Hflags|].
    rewrite Hf. change (features self0) with tables. rewrite Hget.
    assert (∀ ft, tracks ft self = tracks ft self0) as Htracks.
    { intros ft. unfold tracks. by rewrite Hf. }
    rewrite !Htracks. done.
  - rewrite count_remaining_operations_spec; rewrite ?Hinst; simpl;
      [|apply shape_zeros|apply shape_zeros|by apply unscheduled_in_range].
    eexists. split; [done|]. split; [done|]. split; [done|].
    split; [by apply Hflags|]. simpl. rewrite Hget.
    split; [|split; done].
    split; simpl.
    + destruct (tracks MACHINES _); [|apply shape_zeros].
      unfold full_scan_machines. rewrite Hinst. apply shape_fmap_seq.
    + destruct (tracks JOBS _); [|apply shape_zeros].
      unfold full_scan_jobs. rewrite Hinst. apply shape_fmap_seq.
    + done.
    + intros Hnone. unfold tracks. simpl. rewrite Hnone.
      by rewrite bool_decide_eq_false_2 by by intros [? ?].
    + intros Hnone. unfold tracks. simpl. rewrite Hnone.
      by rewrite bool_decide_eq_false_2 by by intros [? ?].
Qed.

Section Update_more.

Context (completed_operations : Dispatcher.state → list Operation).

(** X8: [reset] brings an observer back to what the constructor builds on the
    same engine state and subscribers, for the feature types the observer has:
    the same zero tables and the same counters. *)
Theorem reset_is_a_fresh_construction inst d subs self fts :
  Dispatcher.valid_instance inst → Dispatcher.consistent inst d →
  well_formed inst self →
  (∀ ft, ft ∈ fts ↔ is_Some (features self !! ft)) →
  ∃ self',
    FeatureObserverMethods.reset features with_features
      (class_methods completed_operations) d subs self = Done self'
    ∧ __init__ d subs (FtList fts) = Ok self'.
Proof.
  intros Hv Hc Hwf Hfts.
  pose proof (Dispatcher.consistent_instance _ _ Hc) as Hinst.
  unfold FeatureObserverMethods.reset.
  cbn [cls_initialize_features class_methods].
  unfold __init__. rewrite Hinst.
  rewrite get_feature_types_list_of_list, decide_True by apply base_supports_all.
  simpl.
  destruct (new_features_supported FeatureObserver.base inst 1 (FtList fts) fts)
    as (tables & -> & Hfeatures); [done| |].
  { right. split; [done|]. apply base_supports_all. }
  simpl.
  assert (FeatureObserver.set_features_to_zero FtNone (features self) = tables)
    as Hzero.
  { apply map_eq. intros ft.
    rewrite set_features_to_zero_lookup, Hfeatures. simpl.
    destruct (features self !! ft) as [t|] eqn:Ht; simpl.
    - rewrite decide_True by (apply Hfts; by eexists).
      f_equal. apply fill_shape. by apply (wf_features _ _ Hwf).
    - rewrite decide_False; [done|].
      intros [t Ht']%Hfts. congruence. }
  rewrite Hzero.
  assert (∀ ft, tables !! ft = None → features self !! ft = None) as Hnone.
  { intros ft. rewrite <- Hzero, set_features_to_zero_lookup.
    by destruct (features self !! ft). }
  destruct (initialize_features_from_any_counters inst d subs
              (with_features tables self)
              {| features := tables;
                 remaining_ops_per_machine := np.zeros (num_machines inst) 1;
                 remaining_ops_per_job := np.zeros (num_jobs inst) 1 |})
    as (self' & H1 & H2); simpl; try done;
    try apply Hwf; try apply shape_zeros.
  - intros Ht. by apply (wf_untracked_machines _ _ Hwf), Hnone.
  - intros Ht. by apply (wf_untracked_jobs _ _ Hwf), Hnone.
  - exists self'. by rewrite H1, H2.
Qed.

(** What [update] does to each table and counter, on an observer with the
    shapes of its constructor and for ids inside the instance. *)
Lemma update_effect d subs (so : ScheduledOperation) self inst :
  well_formed inst self →
  Forall (λ m, (m < num_machines inst)%nat) (machines (operation so)) →
  (job_id (operation so) < num_jobs inst)%nat →
  Forall (λ op, (operation_id op < num_operations inst)%nat)
         (completed_operations d) →
  ∃ self',
    update completed_operations d subs so self = Done self'
    ∧ well_formed inst self'
    ∧ match features self !! OPERATIONS with
      | None => features self' !! OPERATIONS = None
      | Some t =>
          ∃ t', features self' !! OPERATIONS = Some t'
            ∧ ∀ r, np.item t' r 0%nat
                   = if decide (r ∈ operation_id <$> completed_operations d)
                     then Some 1 else np.item t r 0%nat
      end
    ∧ match features self !! MACHINES with
      | None =>
          features self' !! MACHINES = None
          ∧ remaining_ops_per_machine self' = remaining_ops_per_machine self
      | Some t =>
          ∃ t', features self' !! MACHINES = Some t'
            ∧ (∀ m, np.item (remaining_ops_per_machine self') m 0%nat
                    = if decide (m ∈ machines (operation so))
                      then (λ v, v - 1)
                             <$> np.item (remaining_ops_per_machine self) m 0%nat
                      else np.item (remaining_ops_per_machine self) m 0%nat)
            ∧ (∀ m, np.item t' m 0%nat
                    = if decide (m ∈ machines (operation so))
                      then (λ v, np.of_bool (bool_decide (v = 0)))
                             <$> np.item (remaining_ops_per_machine self') m 0%nat
                      else np.item t m 0%nat)
      end
    ∧ match features self !! JOBS with
      | None =>
          features self' !! JOBS = None
          ∧ remaining_ops_per_job self' = remaining_ops_per_job self
      | Some t =>
          ∃ t', features self' !! JOBS = Some t'
            ∧ (∀ j, np.item (remaining_ops_per_job self') j 0%nat
                    = if decide (j = job_id (operation so))
                      then (λ v, v - 1)
                             <$> np.item (remaining_ops_per_job self) j 0%nat
                      else np.item (remaining_ops_per_job self) j 0%nat)
            ∧ (∀ j, np.item t' j 0%nat
                    = if decide (j = job_id (operation so))
                      then (λ v, np.of_bool (bool_decide (v = 0)))
                             <$> np.item (remaining_ops_per_job self') j 0%nat
                      else np.item t j 0%nat)
      end.
Proof.
  intros Hwf Hms Hjob Hids.
  destruct (update_total completed_operations d subs so self inst Hwf Hms Hjob Hids)
    as (self1 & self2 & self' & H1 & H2 & H3 & Hupd & Hwf1 & Hwf2 & Hwf').
  destruct (update_operations_total completed_operations d self inst Hwf Hids)
    as (? & H1' & _ & HM1 & HJ1 & Hf1).
  rewrite H1 in H1'. injection H1' as <-.
  destruct (update_machines_total so self1 inst Hwf1 Hms)
    as (? & H2' & _ & HJ2 & Hf2 & Hmach).
  rewrite H2 in H2'. injection H2' as <-.
  destruct (update_jobs_total so self2 inst Hwf2 Hjob)
    as (? & H3' & _ & HM3 & Hf3 & Hjobs).
  rewrite H3 in H3'. injection H3' as <-.
  exists self'. split; [done|]. split; [done|]. split_and!.
  - rewrite (Hf3 OPERATIONS), (Hf2 OPERATIONS) by done.
    unfold update_operations in H1.
    destruct (features self !! OPERATIONS) as [t|] eqn:Ht.
    + destruct (np.put t _ _) as [t'|] eqn:Hput; [|done].
      injection H1 as <-. simpl. rewrite lookup_insert_eq. exists t'.
      split; [done|].
      apply (put_spec (λ _, 1) (operation_id <$> completed_operations d) t
               ((λ _, 1) <$> (operation_id <$> completed_operations d)));
        [|done].
      apply Forall2_fmap_r, Forall_Forall2_diag. by apply Forall_true.
    + by injection H1 as <-.
  - rewrite (Hf1 MACHINES) in Hmach by done.
    destruct (features self !! MACHINES) as [t|] eqn:Ht.
    + destruct Hmach as (t' & Ht' & Hc & Hflag).
      exists t'. rewrite (Hf3 MACHINES) by done. split; [done|].
      rewrite HM3, <- HM1. done.
    + subst self2. rewrite (Hf3 MACHINES), (Hf1 MACHINES) by done.
      split; [done|]. by rewrite HM3.
  - rewrite (Hf2 JOBS), (Hf1 JOBS) in Hjobs by done.
    destruct (features self !! JOBS) as [t|] eqn:Ht.
    + destruct Hjobs as (t' & Ht' & Hc & Hflag).
      exists t'. split; [done|]. rewrite <- HJ1, <- HJ2. done.
    + subst self'. rewrite (Hf2 JOBS), (Hf1 JOBS) by done.
      split; [done|]. by rewrite HJ2.
Qed.

(** X9: the operations branch of [update] raises the flag of every operation
    the engine reports as completed and touches no other row, so a flag that
    is raised stays raised. *)
Theorem update_marks_completed_operations d subs (so : ScheduledOperation)
    self inst t :
  well_formed inst self →
  features self !! OPERATIONS = Some t →
  Forall (λ m, (m < num_machines inst)%nat) (machines (operation so)) →
  (job_id (operation so) < num_jobs inst)%nat →
  Forall (λ op, (operation_id op < num_operations inst)%nat)
         (completed_operations d) →
  ∃ self' t',
    update completed_operations d subs so self = Done self'
    ∧ features self' !! OPERATIONS = Some t'
    ∧ (∀ op, op ∈ completed_operations d →
         np.item t' (operation_id op) 0%nat = Some 1)
    ∧ (∀ r, r ∉ operation_id <$> completed_operations d →
         np.item t' r 0%nat = np.item t r 0%nat)
    ∧ (∀ r, np.item t r 0%nat = Some 1 → np.item t' r 0%nat = Some 1).
Proof.
  intros Hwf Ht Hms Hjob Hids.
  destruct (update_effect d subs so self inst Hwf Hms Hjob Hids)
    as (self' & Hupd & _ & Hops & _).
  rewrite Ht in Hops. destruct Hops as (t' & Ht' & Hrows).
  exists self', t'. split_and!; try done.
  - intros op Hop. rewrite Hrows, decide_True; [done|].
    apply list_elem_of_fmap. by exists op.
  - intros r Hr. by rewrite Hrows, decide_False.
  - intros r Hr. rewrite Hrows. by case_decide.
Qed.

(** X10: on a commit, the jobs branch of [update] lowers by one the counter of
    the job of the committed operation and rewrites the completion flag of
    that job from the new counter; the counters and flags of all other jobs
    stay.  So counters that held the number of operations of each job in a
    duplicate-free list hold it for the list without the committed
    operation. *)
Theorem update_decrements_the_job d subs (so : ScheduledOperation) self inst t :
  well_formed inst self →
  features self !! JOBS = Some t →
  Forall (λ m, (m < num_machines inst)%nat) (machines (operation so)) →
  (job_id (operation so) < num_jobs inst)%nat →
  Forall (λ op, (operation_id op < num_operations inst)%nat)
         (completed_operations d) →
  ∃ self' t' c,
    update completed_operations d subs so self = Done self'
    ∧ features self' !! JOBS = Some t'
    ∧ np.item (remaining_ops_per_job self) (job_id (operation so)) 0%nat = Some c
    ∧ np.item (remaining_ops_per_job self') (job_id (operation so)) 0%nat
      = Some (c - 1)
    ∧ np.item t' (job_id (operation so)) 0%nat
      = Some (if decide (c - 1 = 0) then 1 else 0)
    ∧ (∀ j, j ≠ job_id (operation so) →
         np.item (remaining_ops_per_job self') j 0%nat
         = np.item (remaining_ops_per_job self) j 0%nat
         ∧ np.item t' j 0%nat = np.item t j 0%nat)
    ∧ (∀ ops, NoDup ops → operation so ∈ ops →
         (∀ j, (j < num_jobs inst)%nat →
            np.item (remaining_ops_per_job self) j 0%nat
            = Some (remaining_in_job ops j)) →
         ∀ j, (j < num_jobs inst)%nat →
           np.item (remaining_ops_per_job self') j 0%nat
           = Some (remaining_in_job (filter (λ o, o ≠ operation so) ops) j)).
Proof.
  intros Hwf Ht Hms Hjob Hids.
  destruct (update_effect d subs so self inst Hwf Hms Hjob Hids)
    as (self' & Hupd & _ & _ & _ & Hjobs).
  rewrite Ht in Hjobs. destruct Hjobs as (t' & Ht' & Hc & Hflag).
  destruct (shape_item (remaining_ops_per_job self) (num_jobs inst)
              (job_id (operation so))) as [c Hcj]; [apply Hwf|done|].
  exists self', t', c. split_and!; try done.
  - by rewrite Hc, decide_True, Hcj.
  - rewrite Hflag, Hc, !decide_True, Hcj by done. simpl. unfold np.of_bool.
    destruct (decide (c - 1 = 0)) as [Hz|Hz].
    + by rewrite bool_decide_eq_true_2.
    + by rewrite bool_decide_eq_false_2.
  - intros j Hj. by rewrite Hflag, Hc, !decide_False.
  - intros ops Hnd Hin Hcount j Hj.
    rewrite Hc, (Hcount j Hj), remaining_in_job_remove by done.
    by destruct (decide (j = job_id (operation so))); simpl; f_equal; lia.
Qed.

(** X11: an observer that is in step with the engine stays so through a
    commit.  When, before an unscheduled operation is committed, the counters
    of the tracked types are the counts over the unscheduled operations and no
    flag is raised over a counter that is not zero, then after [update] the
    counters are the counts of the new state, and a machine or job whose flag
    is raised has no unscheduled operation left. *)
Theorem update_keeps_the_observer_in_step inst d op machine start subs self :
  Dispatcher.valid_instance inst → Dispatcher.consistent inst d →
  NoDup (operations inst) →
  well_formed inst self →
  op ∈ Dispatcher.unscheduled_operations d →
  let d' := Dispatcher.committed d op machine start in
  let so := {| operation := op; start_time := start; machine_id := machine |} in
  Forall (λ o, (operation_id o < num_operations inst)%nat)
         (completed_operations d') →
  (tracks MACHINES self = true →
   remaining_ops_per_machine self = full_scan_machines d) →
  (tracks JOBS self = true → remaining_ops_per_job self = full_scan_jobs d) →
  flags_sound self →
  ∃ self',
    update completed_operations d' subs so self = Done self'
    ∧ well_formed inst self'
    ∧ (tracks MACHINES self' = true →
       remaining_ops_per_machine self' = full_scan_machines d')
    ∧ (tracks JOBS self' = true →
       remaining_ops_per_job self' = full_scan_jobs d')
    ∧ flags_sound self'
    ∧ (∀ t m, features self' !! MACHINES = Some t →
         np.item t m 0%nat = Some 1 →
         remaining_on_machine (Dispatcher.unscheduled_operations d') m = 0)
    ∧ (∀ t j, features self' !! JOBS = Some t →
         np.item t j 0%nat = Some 1 →
         remaining_in_job (Dispatcher.unscheduled_operations d') j = 0).
Proof.
  intros Hv Hc Hnd Hwf Hop d' so Hids HM HJ [HfM HfJ].
  pose proof (unscheduled_in_range inst d Hv Hc) as Hrange.
  destruct (proj1 (Forall_forall _ _) Hrange op Hop) as [Hjob Hms].
  destruct (update_keeps_counters_in_step completed_operations inst d op machine
              start subs self Hv Hc Hnd Hwf Hop Hids HM HJ)
    as (self' & Hupd & Hwf' & HM' & HJ').
  destruct (update_effect d' subs so self inst Hwf Hms Hjob Hids)
    as (? & Hupd' & _ & _ & Hmach & Hjobs).
  fold d' so in Hupd. rewrite Hupd in Hupd'. injection Hupd' as <-.
  unfold so in Hmach, Hjobs. simpl in Hmach, Hjobs.
  assert (∀ ft, tracks ft self' = true → tracks ft self = true) as Htracks.
  { intros ft [t' Ht']%tracks_true. apply tracks_true.
    pose proof (update_effect d' subs so self inst Hwf Hms Hjob Hids)
      as (? & Hupd' & _ & Hops & Hmach' & Hjobs').
    rewrite Hupd in Hupd'. injection Hupd' as <-.
    destruct ft.
    - destruct (features self !! OPERATIONS); [done|]. congruence.
    - destruct (features self !! MACHINES); [done|].
      destruct Hmach' as [? _]. congruence.
    - destruct (features self !! JOBS); [done|].
      destruct Hjobs' as [? _]. congruence. }
  assert (flags_sound self') as Hsound.
  { split.
    - intros t' m Ht' Hflag.
      destruct (features self !! MACHINES) as [t|] eqn:Ht;
        [|destruct Hmach; congruence].
      destruct Hmach as (t2 & Ht2 & Hcount & Hflags).
      rewrite Ht' in Ht2. injection Ht2 as <-.
      rewrite Hflags in Hflag.
      destruct (decide (m ∈ machines op)) as [Hm|Hm].
      + destruct (np.item (remaining_ops_per_machine self') m 0%nat) as [c|];
          simpl in *; [|done].
        unfold np.of_bool in Hflag. f_equal.
        destruct (decide (c = 0)) as [Hz|Hz]; [done|].
        by rewrite bool_decide_eq_false_2 in Hflag.
      + rewrite Hcount, decide_False by done. by eapply HfM.
    - intros t' j Ht' Hflag.
      destruct (features self !! JOBS) as [t|] eqn:Ht;
        [|destruct Hjobs; congruence].
      destruct Hjobs as (t2 & Ht2 & Hcount & Hflags).
      rewrite Ht' in Ht2. injection Ht2 as <-.
      rewrite Hflags in Hflag.
      destruct (decide (j = job_id op)) as [Hj|Hj].
      + destruct (np.item (remaining_ops_per_job self') j 0%nat) as [c|];
          simpl in *; [|done].
        unfold np.of_bool in Hflag. f_equal.
        destruct (decide (c = 0)) as [Hz|Hz]; [done|].
        by rewrite bool_decide_eq_false_2 in Hflag.
      + rewrite Hcount, decide_False by done. by eapply HfJ. }
  exists self'. split_and!; try done.
  - intros Htr. by apply HM', Htracks.
  - intros Htr. by apply HJ', Htracks.
  - intros t m Ht Hflag. destruct Hsound as [Hsound _].
    pose proof (Hsound t m Ht Hflag) as Hzero.
    rewrite HM' in Hzero by (apply Htracks, tracks_true; by eexists).
    unfold full_scan_machines in Hzero. rewrite item_fmap_seq in Hzero.
    case_decide; [|done]. by injection Hzero.
  - intros t j Ht Hflag. destruct Hsound as [_ Hsound].
    pose proof (Hsound t j Ht Hflag) as Hzero.
    rewrite HJ' in Hzero by (apply Htracks, tracks_true; by eexists).
    unfold full_scan_jobs in Hzero. rewrite item_fmap_seq in Hzero.
    case_decide; [|done]. by injection Hzero.
Qed.

(** X19: on an observer with the shapes of its constructor, [update] returns
    for every committed operation and every list of completed operations
    whose ids lie inside the instance.  It keeps the shapes and the set of
    feature types, creating no table and dropping none, and it leaves the
    counter of a feature type the observer does not track as it was. *)
Theorem update_returns_and_keeps_the_shapes d subs (so : ScheduledOperation)
    self inst :
  well_formed inst self →
  Forall (λ m, (m < num_machines inst)%nat) (machines (operation so)) →
  (job_id (operation so) < num_jobs inst)%nat →
  Forall (λ op, (operation_id op < num_operations inst)%nat)
         (completed_operations d) →
  ∃ self',
    update completed_operations d subs so self = Done self'
    ∧ well_formed inst self'
    ∧ (∀ ft, is_Some (features self' !! ft) ↔ is_Some (features self !! ft))
    ∧ (features self !! MACHINES = None →
       remaining_ops_per_machine self' = remaining_ops_per_machine self)
    ∧ (features self !! JOBS = None →
       remaining_ops_per_job self' = remaining_ops_per_job self).
Proof.
  intros Hwf Hms Hjob Hids.
  destruct (update_effect d subs so self inst Hwf Hms Hjob Hids)
    as (self' & Hupd & Hwf' & Hops & Hmach & Hjobs).
  exists self'. split_and!; try done.
  - intros [| |].
    + destruct (features self !! OPERATIONS);
        [destruct Hops as (t' & -> & _)|rewrite Hops]; split; by eauto.
    + destruct (features self !! MACHINES);
        [destruct Hmach as (t' & -> & _)|destruct Hmach as [-> _]];
        split; by eauto.
    + destruct (features self !! JOBS);
        [destruct Hjobs as (t' & -> & _)|destruct Hjobs as [-> _]];
        split; by eauto.
  - intros Hnone. rewrite Hnone in Hmach. by destruct Hmach.
  - intros Hnone. rewrite Hnone in Hjobs. by destruct Hjobs.
Qed.

(** X21: what the flags of an observer mean that was built on the fresh
    engine and has seen every commit.  Such an observer is in step with the
    engine after its construction and stays so through every commit of an
    unscheduled operation on a machine eligible for it: its counters are the
    counts over the unscheduled operations, and the flag of a machine (of a
    job) is 1 exactly when no unscheduled operation is left for it and some
    committed operation was eligible for the machine (belonged to the job).  A
    machine or job without any operation is never flagged. *)
Theorem flags_follow_the_engine inst :
  Dispatcher.valid_instance inst → NoDup (operations inst) →
  (∀ feature_types,
     ∃ self,
       __init__ (Dispatcher.new inst) [] feature_types = Ok self
       ∧ in_step inst (Dispatcher.new inst) self)
  ∧ (∀ d op machine start subs self,
       Dispatcher.consistent inst d →
       op ∈ Dispatcher.unscheduled_operations d →
       machine ∈ machines op →
       Forall (λ o, (operation_id o < num_operations inst)%nat)
              (completed_operations (Dispatcher.committed d op machine start)) →
       in_step inst d self →
       ∃ self',
         update completed_operations (Dispatcher.committed d op machine start)
           subs {| operation := op; start_time := start; machine_id := machine |}
           self = Done self'
         ∧ in_step inst (Dispatcher.committed d op machine start) self').
Proof.
  intros Hv Hnd. split.
  - intros feature_types.
    destruct (init_well_formed inst (Dispatcher.new inst) feature_types Hv
                (consistent_new inst)) as (self & Hinit & Hwf & Hzero & HM & HJ).
    assert (Dispatcher.scheduled_operations (Dispatcher.new inst) = []) as Hnone.
    { unfold Dispatcher.scheduled_operations. simpl.
      by rewrite scheduled_replicate_nil. }
    exists self. split; [done|]. split; try done.
    + intros Htr. by rewrite HM, Htr.
    + intros Htr. by rewrite HJ, Htr.
    + intros t m Ht Hm. rewrite (Hzero _ _ Ht), item_zeros.
      simpl. rewrite decide_True by lia. f_equal.
      unfold machine_flag. rewrite Hnone, bool_decide_eq_false_2; [done|].
      by intros [_ ?%Exists_nil].
    + intros t j Ht Hj. rewrite (Hzero _ _ Ht), item_zeros.
      simpl. rewrite decide_True by lia. f_equal.
      unfold job_flag. rewrite Hnone, bool_decide_eq_false_2; [done|].
      by intros [_ ?%Exists_nil].
  - intros d op machine start subs self Hc Hop Hmachine Hids
      [Hwf HMc HJc HMf HJf].
    set (d' := Dispatcher.committed d op machine start) in *.
    set (so := {| operation := op; start_time := start; machine_id := machine |}).
    pose proof (Dispatcher.consistent_instance _ _ Hc) as Hinst.
    pose proof (unscheduled_in_range inst d Hv Hc) as Hrange.
    destruct (proj1 (Forall_forall _ _) Hrange op Hop) as [Hjob Hms].
    assert (NoDup (Dispatcher.unscheduled_operations d)) as Hndu.
    { unfold Dispatcher.unscheduled_operations.
      rewrite (Dispatcher.consistent_unscheduled _ _ Hc). by apply NoDup_filter. }
    assert (op ∈ operations inst) as Hopi.
    { unfold Dispatcher.unscheduled_operations in Hop.
      rewrite (Dispatcher.consistent_unscheduled _ _ Hc) in Hop.
      by apply list_elem_of_filter in Hop as [_ ?]. }
    assert (∀ o, o ∈ Dispatcher.scheduled_operations d'
                 ↔ o = op ∨ o ∈ Dispatcher.scheduled_operations d) as Hsched.
    { intros o. by apply (scheduled_operations_committed inst). }
    destruct (update_keeps_counters_in_step completed_operations inst d op machine
                start subs self Hv Hc Hnd Hwf Hop Hids HMc HJc)
      as (self' & Hupd & Hwf' & HM' & HJ').
    destruct (update_effect d' subs so self inst Hwf Hms Hjob Hids)
      as (? & Hupd' & _ & _ & Hmach & Hjobs).
    fold d' so in Hupd, HM', HJ'. rewrite Hupd in Hupd'. injection Hupd' as <-.
    unfold so in Hmach, Hjobs. simpl in Hmach, Hjobs.
    exists self'. split; [done|]. split; [done| | | |].
    + intros [t' Ht']%tracks_true. apply HM', tracks_true.
      destruct (features self !! MACHINES); [by eexists|].
      destruct Hmach. congruence.
    + intros [t' Ht']%tracks_true. apply HJ', tracks_true.
      destruct (features self !! JOBS); [by eexists|].
      destruct Hjobs. congruence.
    + intros t' m Ht' Hm.
      destruct (features self !! MACHINES) as [t|] eqn:Ht;
        [|destruct Hmach; congruence].
      destruct Hmach as (t2 & Ht2 & _ & Hflags).
      rewrite Ht' in Ht2. injection Ht2 as <-. rewrite Hflags.
      rewrite HM' by (apply tracks_true; by eexists).
      unfold full_scan_machines. rewrite item_fmap_seq.
      change (Dispatcher.instance d') with (Dispatcher.instance d).
      rewrite Hinst.
      destruct (decide (m < num_machines inst)%nat) as [_|?]; [|done].
      destruct (decide (m ∈ machines op)) as [Hin|Hout].
      * simpl. f_equal. unfold machine_flag. f_equal.
        apply bool_decide_ext. split; [|by intros [? _]].
        intros Hz. split; [done|]. apply Exists_exists. exists op.
        split; [|done]. apply Hsched. by left.
      * rewrite (HMf t m eq_refl Hm). f_equal. unfold machine_flag. f_equal.
        apply bool_decide_ext.
        change (Dispatcher.unscheduled_operations d')
          with (filter (λ o, o ≠ op) (Dispatcher.unscheduled_operations d)).
        rewrite remaining_on_machine_remove by done.
        rewrite decide_False by done. rewrite !Exists_exists.
        split; intros [Hz (o & Ho & Hmo)]; (split; [lia|]); exists o;
          (split; [|done]).
        -- apply Hsched. by right.
        -- apply Hsched in Ho as [->|Ho]; [done|done].
    + intros t' j Ht' Hj.
      destruct (features self !! JOBS) as [t|] eqn:Ht;
        [|destruct Hjobs; congruence].
      destruct Hjobs as (t2 & Ht2 & _ & Hflags).
      rewrite Ht' in Ht2. injection Ht2 as <-. rewrite Hflags.
      rewrite HJ' by (apply tracks_true; by eexists).
      unfold full_scan_jobs. rewrite item_fmap_seq.
      change (Dispatcher.instance d') with (Dispatcher.instance d).
      rewrite Hinst.
      destruct (decide (j < num_jobs inst)%nat) as [_|?]; [|done].
      destruct (decide (j = job_id op)) as [Hin|Hout].
      * simpl. f_equal. unfold job_flag. f_equal.
        apply bool_decide_ext. split; [|by intros [? _]].
        intros Hz. split; [done|]. apply Exists_exists. exists op.
        split; [|done]. apply Hsched. by left.
      * rewrite (HJf t j eq_refl Hj). f_equal. unfold job_flag. f_equal.
        apply bool_decide_ext.
        change (Dispatcher.unscheduled_operations d')
          with (filter (λ o, o ≠ op) (Dispatcher.unscheduled_operations d)).
        rewrite remaining_in_job_remove by done.
        rewrite decide_False by done. rewrite !Exists_exists.
        split; intros [Hz (o & Ho & Hjo)]; (split; [lia|]); exists o;
          (split; [|done]).
        -- apply Hsched. by right.
        -- apply Hsched in Ho as [->|Ho]; [done|done].
Qed.

End Update_more.

End IsCompletedObserver_more.

(** *** The scenarios as instances of the statements above *)

Lemma fresh_observer_well_formed :
  IsCompletedObserver.well_formed Example.one_each Scenario.fresh_observer.
Proof.
  split.
  - split; [reflexivity|repeat constructor].
  - split; [reflexivity|repeat constructor].
  - intros ft t Ht. destruct ft; vm_compute in Ht; try discriminate;
      injection Ht as <-; (split; [reflexivity|repeat constructor]).
  - intros H. vm_compute in H. discriminate.
  - intros H. vm_compute in H. discriminate.
Qed.

Lemma full_observer_well_formed :
  IsCompletedObserver.well_formed Example.one_each Scenario.full_observer.
Proof.
  split.
  - split; [reflexivity|repeat constructor].
  - split; [reflexivity|repeat constructor].
  - intros ft t Ht. destruct ft; vm_compute in Ht; try discriminate;
      injection Ht as <-; (split; [reflexivity|repeat constructor]).
  - intros H. vm_compute in H. discriminate.
  - intros H. vm_compute in H. discriminate.
Qed.

Lemma fresh_observer_flags_sound :
  IsCompletedObserver.flags_sound Scenario.fresh_observer.
Proof.
  split; intros t r Ht Hflag; vm_compute in Ht; injection Ht as <-;
    destruct r as [|[|r]]; vm_compute in Hflag; discriminate.
Qed.

Lemma init_builds_zero_tables_and_counters_witness :
  ∃ self,
    IsCompletedObserver.__init__ Scenario.after_A
      [RemainingOperations Scenario.remaining_operations_tables]
      (FtList [MACHINES; JOBS]) = Ok self
    ∧ features self !! MACHINES = Some [[0]; [0]]
    ∧ IsCompletedObserver.flags_sound self.
Proof.
  destruct (init_builds_zero_tables_and_counters Example.one_each Scenario.after_A
              [RemainingOperations Scenario.remaining_operations_tables]
              (FtList [MACHINES; JOBS]) one_each_valid after_A_consistent)
    as (fts & self & Hfts & Hinit & Hfeatures & Hflags & _).
  injection Hfts as <-.
  exists self. split; [exact Hinit|]. split; [exact (Hfeatures MACHINES)|].
  exact Hflags.
Defined.

Lemma reset_is_a_fresh_construction_witness :
  ∃ self',
    FeatureObserverMethods.reset features IsCompletedObserver.with_features
      (IsCompletedObserver.class_methods (λ _, [])) Scenario.after_A []
      Scenario.late_observer = Done self'
    ∧ IsCompletedObserver.__init__ Scenario.after_A [] (FtList [MACHINES; JOBS])
      = Ok self'.
Proof.
  apply (reset_is_a_fresh_construction (λ _, []) Example.one_each
           Scenario.after_A [] Scenario.late_observer [MACHINES; JOBS]
           one_each_valid after_A_consistent late_observer_well_formed).
  intros ft. split.
  - intros Hin. destruct ft; [|eexists; reflexivity|eexists; reflexivity].
    apply elem_of_cons in Hin as [?|Hin]; [done|].
    apply elem_of_cons in Hin as [?|Hin]; [done|].
    by apply not_elem_of_nil in Hin.
  - intros [t Ht].
    destruct ft; [vm_compute in Ht; discriminate| |]; repeat constructor.
Defined.

Lemma update_marks_completed_operations_witness :
  ∃ self' t',
    IsCompletedObserver.update (λ _, [Example.opA]) Scenario.after_A []
      Scenario.scheduled_A Scenario.full_observer = Done self'
    ∧ features self' !! OPERATIONS = Some t'
    ∧ np.item t' 0 0 = Some 1
    ∧ np.item t' 1 0 = Some 0.
Proof.
  assert (Forall (λ m, (m < num_machines Example.one_each)%nat)
            (machines (operation Scenario.scheduled_A))) as Hms.
  { repeat constructor. }
  assert (job_id (operation Scenario.scheduled_A) < num_jobs Example.one_each)%nat
    as Hjob. { repeat constructor. }
  assert (Forall (λ op, (operation_id op < num_operations Example.one_each)%nat)
            [Example.opA]) as Hids.
  { repeat constructor. }
  destruct (update_marks_completed_operations (λ _, [Example.opA])
              Scenario.after_A [] Scenario.scheduled_A Scenario.full_observer
              Example.one_each [[0]; [0]] full_observer_well_formed eq_refl
              Hms Hjob Hids)
    as (self' & t' & Hupd & Ht' & Hin & Hout & _).
  exists self', t'. split; [exact Hupd|]. split; [exact Ht'|]. split.
  - apply (Hin Example.opA). apply elem_of_cons. by left.
  - rewrite (Hout 1%nat); [reflexivity|].
    intros Hin'. apply elem_of_cons in Hin' as [?|Hin']; [done|].
    by apply not_elem_of_nil in Hin'.
Defined.

Lemma update_decrements_the_job_witness :
  ∃ self' t',
    IsCompletedObserver.update (λ _, []) Scenario.after_A_B [] Scenario.scheduled_B
      Scenario.late_observer = Done self'
    ∧ features self' !! JOBS = Some t'
    ∧ np.item (remaining_ops_per_job self') 1 0 = Some 0
    ∧ np.item t' 1 0 = Some 1.
Proof.
  assert (Forall (λ m, (m < num_machines Example.one_each)%nat)
            (machines (operation Scenario.scheduled_B))) as Hms.
  { repeat constructor. }
  assert (job_id (operation Scenario.scheduled_B) < num_jobs Example.one_each)%nat
    as Hjob. { repeat constructor. }
  destruct (update_decrements_the_job (λ _, []) Scenario.after_A_B
              [] Scenario.scheduled_B Scenario.late_observer Example.one_each
              [[0]; [0]] late_observer_well_formed eq_refl Hms Hjob
              (Forall_nil_2 _))
    as (self' & t' & c & Hupd & Ht' & Hc & Hc' & Hflag & _).
  exists self', t'. split; [exact Hupd|]. split; [exact Ht'|].
  injection Hc as <-. split; [exact Hc'|exact Hflag].
Defined.

Lemma update_keeps_the_observer_in_step_witness :
  ∃ self',
    IsCompletedObserver.update (λ _, []) Scenario.after_A [] Scenario.scheduled_A
      Scenario.fresh_observer = Done self'
    ∧ remaining_ops_per_machine self'
      = IsCompletedObserver.full_scan_machines Scenario.after_A
    ∧ IsCompletedObserver.flags_sound self'.
Proof.
  assert (NoDup (operations Example.one_each)) as Hnd.
  { apply (bool_decide_unpack _). by vm_compute. }
  assert (Example.opA
            ∈ Dispatcher.unscheduled_operations (Dispatcher.new Example.one_each))
    as Hop.
  { apply elem_of_cons. by left. }
  destruct (update_keeps_the_observer_in_step (λ _, []) Example.one_each
              (Dispatcher.new Example.one_each) Example.opA 0 0 []
              Scenario.fresh_observer one_each_valid
              (consistent_new Example.one_each) Hnd fresh_observer_well_formed
              Hop (Forall_nil_2 _) (λ _, eq_refl) (λ _, eq_refl)
              fresh_observer_flags_sound)
    as (self' & Hupd & _ & HM & _ & Hflags & _).
  exists self'. split; [exact Hupd|]. split; [|exact Hflags].
  apply HM. pose proof Hupd as Hself. vm_compute in Hself.
  injection Hself as <-. reflexivity.
Defined.

Lemma update_returns_and_keeps_the_shapes_witness :
  ∃ self',
    IsCompletedObserver.update (λ _, [Example.opA]) Scenario.after_A []
      Scenario.scheduled_A Scenario.full_observer = Done self'
    ∧ IsCompletedObserver.well_formed Example.one_each self'.
Proof.
  assert (Forall (λ m, (m < num_machines Example.one_each)%nat)
            (machines (operation Scenario.scheduled_A))) as Hms.
  { repeat constructor. }
  assert (job_id (operation Scenario.scheduled_A) < num_jobs Example.one_each)%nat
    as Hjob. { repeat constructor. }
  assert (Forall (λ op, (operation_id op < num_operations Example.one_each)%nat)
            [Example.opA]) as Hids.
  { repeat constructor. }
  destruct (update_returns_and_keeps_the_shapes (λ _, [Example.opA])
              Scenario.after_A [] Scenario.scheduled_A Scenario.full_observer
              Example.one_each full_observer_well_formed Hms Hjob Hids)
    as (self' & Hupd & Hwf & _).
  exists self'. split; [exact Hupd|exact Hwf].
Defined.

(** An observer for machines and jobs built on the fresh engine over
    [one_each], and the commit of [opA]. *)
Lemma flags_follow_the_engine_witness :
  ∃ self self',
    IsCompletedObserver.__init__ (Dispatcher.new Example.one_each) []
      (FtList [MACHINES; JOBS]) = Ok self
    ∧ IsCompletedObserver.update (λ _, []) Scenario.after_A []
        Scenario.scheduled_A self = Done self'
    ∧ IsCompletedObserver.in_step Example.one_each Scenario.after_A self'.
Proof.
  assert (NoDup (operations Example.one_each)) as Hnd.
  { apply (bool_decide_unpack _). by vm_compute. }
  destruct (flags_follow_the_engine (λ _, []) Example.one_each one_each_valid Hnd)
    as [Hbase Hstep].
  destruct (Hbase (FtList [MACHINES; JOBS])) as (self & Hinit & Hin).
  destruct (Hstep (Dispatcher.new Example.one_each) Example.opA 0%nat 0 [] self
              (consistent_new Example.one_each))
    as (self' & Hupd & Hin'); try done.
  - apply elem_of_cons. by left.
  - apply elem_of_cons. by left.
  - exists self, self'. split; [exact Hinit|]. split; [exact Hupd|exact Hin'].
Defined.

(** ** EarliestStartTimeObserver: the machines and jobs tables, and a missing
    table *)

Section EarliestStartTimeObserver_more.

Import EarliestStartTimeObserver.

Implicit Types (features : Features) (d : Dispatcher.state).

(** The loop over an index of times writes, in the row of every entry, the
    time left until that entry, as a float32, and no other row. *)
Lemma time_features_spec ft (times : list Z) now features t :
  features !! ft = Some t →
  (∀ i, (i < length times)%nat → is_Some (np.item t i 0%nat)) →
  ∃ t',
    for_each (λ '(i, start_time), store ft i (start_time - now))
             (imap (λ i x, (i, x)) times) features
    = Done (<[ft := t']> features)
    ∧ (∀ i v, times !! i = Some v →
         np.item t' i 0%nat = Some (np.float32 (v - now)))
    ∧ (∀ i, (length times ≤ i)%nat → np.item t' i 0%nat = np.item t i 0%nat).
Proof.
  intros Ht Hrows.
  set (g := λ x : nat * Z, (x.1, x.2 - now)).
  assert (∀ xs f,
            for_each (λ '(i, start_time), store ft i (start_time - now)) xs f
            = for_each (λ '(i, v), store ft i v) (g <$> xs) f) as Hfmap.
  { induction xs as [|[i x] xs IH]; intros f; [done|]. simpl.
    destruct (store ft i (x - now) f); simpl; [apply IH|done]. }
  rewrite Hfmap.
  assert ((g <$> imap (λ i x, (i, x)) times).*1 = seq 0 (length times)) as Hids.
  { apply list_eq. intros i.
    rewrite !list_lookup_fmap, list_lookup_imap.
    destruct (times !! i) as [v|] eqn:Hi; simpl.
    - symmetry. apply lookup_seq. split; [done|]. by eapply lookup_lt_Some.
    - symmetry. apply lookup_seq_ge. by apply lookup_ge_None. }
  destruct (store_loop ft (g <$> imap (λ i x, (i, x)) times) features t Ht)
    as (t' & Hloop & _ & Hin & Hout).
  { apply Forall_fmap, Forall_forall. intros [i x] Hix. simpl.
    apply Hrows. apply list_elem_of_lookup in Hix as [k Hk].
    rewrite list_lookup_imap in Hk.
    destruct (times !! k) eqn:Hk'; simpl in Hk; [|done].
    injection Hk as <- <-. by eapply lookup_lt_Some. }
  exists t'. split; [done|]. split.
  - intros i v Hi. apply Hin; [rewrite Hids; apply NoDup_seq|].
    apply list_elem_of_fmap. exists (i, v). split; [done|].
    apply list_elem_of_lookup. exists i. by rewrite list_lookup_imap, Hi.
  - intros i Hi. apply Hout. rewrite Hids, elem_of_seq. lia.
Qed.

(** X12: when the three tables exist and have a row for every unscheduled
    operation, machine and job of the engine, [initialize_features] returns,
    and afterwards the machines table holds, for every machine, the time from
    [current_time()] to the moment the machine is next available when that
    time is at most 2^24 in magnitude, the integers a float32 holds as they
    are, and the jobs table the same for every job; rows past the last machine
    or job are as before. *)
Theorem initialize_features_writes_waiting_times d subs features t tm tj :
  features !! OPERATIONS = Some t →
  features !! MACHINES = Some tm →
  features !! JOBS = Some tj →
  Forall (λ op, is_Some (np.item t (operation_id op) 0%nat))
         (Dispatcher.unscheduled_operations d) →
  (∀ i, (i < length (Dispatcher.machine_next_available_time d))%nat →
        is_Some (np.item tm i 0%nat)) →
  (∀ i, (i < length (Dispatcher.job_next_available_time d))%nat →
        is_Some (np.item tj i 0%nat)) →
  ∃ features' tm' tj',
    initialize_features d subs features = Done features'
    ∧ features' !! MACHINES = Some tm'
    ∧ features' !! JOBS = Some tj'
    ∧ (∀ i v, Dispatcher.machine_next_available_time d !! i = Some v →
         np.exact_in_float32 (v - Dispatcher.current_time d) →
         np.item tm' i 0%nat = Some (v - Dispatcher.current_time d))
    ∧ (∀ i, (length (Dispatcher.machine_next_available_time d) ≤ i)%nat →
         np.item tm' i 0%nat = np.item tm i 0%nat)
    ∧ (∀ i v, Dispatcher.job_next_available_time d !! i = Some v →
         np.exact_in_float32 (v - Dispatcher.current_time d) →
         np.item tj' i 0%nat = Some (v - Dispatcher.current_time d))
    ∧ (∀ i, (length (Dispatcher.job_next_available_time d) ≤ i)%nat →
         np.item tj' i 0%nat = np.item tj i 0%nat).
Proof.
  intros Ht Htm Htj Hrows Hmrows Hjrows.
  unfold initialize_features, _update_operation_features.
  set (g := λ op, (operation_id op,
                   Dispatcher.earliest_start_time d op None
                   - Dispatcher.current_time d)).
  rewrite (for_each_fmap g (λ '(i, v), store OPERATIONS i v)).
  destruct (store_loop OPERATIONS (g <$> Dispatcher.unscheduled_operations d)
              features t Ht) as (t' & -> & _).
  { apply Forall_fmap. eapply Forall_impl; [exact Hrows|]. done. }
  simpl. unfold _update_machine_features, _update_job_features.
  destruct (time_features_spec MACHINES
              (Dispatcher.machine_next_available_time d)
              (Dispatcher.current_time d) (<[OPERATIONS:=t']> features) tm)
    as (tm' & -> & Hmin & Hmout); [by rewrite lookup_insert_ne|done|].
  simpl.
  destruct (time_features_spec JOBS
              (Dispatcher.job_next_available_time d)
              (Dispatcher.current_time d)
              (<[MACHINES:=tm']> (<[OPERATIONS:=t']> features)) tj)
    as (tj' & -> & Hjin & Hjout); [by rewrite !lookup_insert_ne|done|].
  eexists _, tm', tj'. split; [done|].
  rewrite lookup_insert_ne, !lookup_insert_eq by done. split_and!; try done.
  - intros i v Hi Hexact. rewrite (Hmin i v Hi). f_equal. by apply float32_exact.
  - intros i v Hi Hexact. rewrite (Hjin i v Hi). f_equal. by apply float32_exact.
Qed.

(** X13: [initialize_features] reads all three tables.  On an observer
    without an operations table it raises KeyError and changes nothing as soon
    as one operation is unscheduled, and it can only return when every table
    whose loop is not empty exists. *)
Theorem initialize_features_needs_every_table d subs features :
  (features !! OPERATIONS = None → Dispatcher.unscheduled_operations d ≠ [] →
   initialize_features d subs features = Raised KeyError features)
  ∧ (∀ features', initialize_features d subs features = Done features' →
       (Dispatcher.unscheduled_operations d ≠ [] →
        is_Some (features !! OPERATIONS))
       ∧ (Dispatcher.machine_next_available_time d ≠ [] →
          is_Some (features !! MACHINES))
       ∧ (Dispatcher.job_next_available_time d ≠ [] →
          is_Some (features !! JOBS))).
Proof.
  assert (∀ ft (now : Z) (xs : list (nat * Z)) f f',
            for_each (λ '(i, start_time), store ft i (start_time - now)) xs f
            = Done f' →
            xs ≠ [] → is_Some (f !! ft)) as Hloop.
  { intros ft now [|[i v] xs] f f' Hdone Hne; [done|].
    simpl in Hdone. unfold store at 1 in Hdone.
    destruct (f !! ft); [by eexists|done]. }
  assert (∀ (times : list Z), times ≠ [] → imap (λ i x, (i, x)) times ≠ [])
    as Himap.
  { by intros [|x times]. }
  split.
  - intros Hnone Hne. unfold initialize_features, _update_operation_features.
    destruct (Dispatcher.unscheduled_operations d) as [|op ops]; [done|].
    simpl. unfold store at 1. by rewrite Hnone.
  - intros features' Hdone. unfold initialize_features in Hdone.
    destruct (_update_operation_features d features) as [f1|] eqn:H1; [|done].
    simpl in Hdone.
    destruct (_update_machine_features d f1) as [f2|] eqn:H2; [|done].
    simpl in Hdone.
    assert (∀ ft, ft ≠ OPERATIONS → f1 !! ft = features !! ft) as Hf1.
    { intros ft Hft. replace f1 with (final_state (Done f1)) by done.
      rewrite <- H1. unfold _update_operation_features.
      set (g := λ op, (operation_id op,
                       Dispatcher.earliest_start_time d op None)).
      rewrite (for_each_fmap g (λ '(i, start_time),
                 store OPERATIONS i (start_time - Dispatcher.current_time d))).
      by apply store_loop_other. }
    assert (f2 !! JOBS = f1 !! JOBS) as Hf2.
    { replace f2 with (final_state (Done f2)) by done.
      rewrite <- H2. by apply store_loop_other. }
    split_and!.
    + intros Hne. unfold _update_operation_features in H1.
      destruct (Dispatcher.unscheduled_operations d) as [|op ops]; [done|].
      simpl in H1. unfold store at 1 in H1.
      destruct (features !! OPERATIONS); [by eexists|done].
    + intros Hne. rewrite <- (Hf1 MACHINES) by done.
      eapply Hloop; [exact H2|by apply Himap].
    + intros Hne. rewrite <- (Hf1 JOBS), <- Hf2 by done.
      eapply Hloop; [exact Hdone|by apply Himap].
Qed.

End EarliestStartTimeObserver_more.

Lemma initialize_features_writes_waiting_times_witness :
  ∃ features' tm',
    EarliestStartTimeObserver.initialize_features Scenario.after_op00 []
      Scenario.zero_features = Done features'
    ∧ features' !! MACHINES = Some tm'
    ∧ np.item tm' 0 0 = Some 3
    ∧ np.item tm' 1 0 = Some 0.
Proof.
  destruct (initialize_features_writes_waiting_times Scenario.after_op00 []
              Scenario.zero_features (np.zeros 4 1) (np.zeros 2 1) (np.zeros 2 1)
              eq_refl eq_refl eq_refl)
    as (features' & tm' & tj' & Hinit & Htm' & _ & Hm & _).
  - repeat constructor; by eexists.
  - intros [|[|i]] Hi; [by eexists|by eexists|simpl in Hi; lia].
  - intros [|[|i]] Hi; [by eexists|by eexists|simpl in Hi; lia].
  - exists features', tm'. split; [exact Hinit|]. split; [exact Htm'|].
    split; [apply (Hm 0%nat 3 eq_refl)|apply (Hm 1%nat 0 eq_refl)];
      vm_compute; split; discriminate.
Defined.

(** ** ResidualGraphUpdater: which nodes [update] removes *)

Section ResidualGraphUpdater_more.

Import JobShopGraph ResidualGraphUpdater.

Implicit Types (self : ResidualGraphUpdater) (subs : list Subscriber).
Implicit Types (g : JobShopGraph).

Lemma remove_unless_removed_Done node g g' :
  remove_unless_removed (Ok node) g = Done g' →
  removed_nodes g' !! node_id node = Some true.
Proof.
  unfold remove_unless_removed, is_removed.
  destruct (removed_nodes g !! node_id node) as [[|]|] eqn:Hid; simpl;
    [by intros [= <-]| |done].
  intros [= <-]. simpl. apply list_lookup_insert_eq. by eapply lookup_lt_Some.
Qed.

(** In a loop of removals that returned, every element had its turn, between
    two graphs that the loop only added removals to. *)
Lemma for_each_Done_elem {A} (body : A → JobShopGraph → outcome JobShopGraph)
    xs x g g' :
  (∀ y, stable (body y)) →
  for_each body xs g = Done g' → x ∈ xs →
  ∃ g1 g2, body x g1 = Done g2 ∧ grows g g1 ∧ grows g2 g'.
Proof.
  intros Hst Hdone Hx.
  destruct (for_each_Done_split body xs x g g' Hdone Hx)
    as (xs1 & xs2 & g1 & g2 & -> & H1 & H2 & H3).
  exists g1, g2. split; [done|]. split.
  - pose proof (proj1 (stable_for_each body xs1 Hst) g) as Hg.
    by rewrite H1 in Hg.
  - pose proof (proj1 (stable_for_each body xs2 Hst) g2) as Hg.
    by rewrite H3 in Hg.
Qed.

Lemma enumerate_lookup {A} (xs : list A) i x :
  (i, x) ∈ enumerate xs ↔ xs !! i = Some x.
Proof.
  unfold enumerate. rewrite list_elem_of_lookup. split.
  - intros [k Hk]. rewrite list_lookup_imap in Hk.
    destruct (xs !! k) eqn:Hxs; simpl in Hk; [|done]. by injection Hk as <- <-.
  - intros Hi. exists i. by rewrite list_lookup_imap, Hi.
Qed.

Lemma remove_completed_operations_complete completed g g' op node :
  remove_completed_operations completed g = Done g' → op ∈ completed →
  nodes_by_type g OPERATION !! operation_id op = Some node →
  removed_nodes g' !! node_id node = Some true.
Proof.
  intros Hdone Hop Hnode. unfold remove_completed_operations in Hdone.
  eapply for_each_Done_elem in Hdone as (g1 & g2 & Hbody & Hg1 & Hg2);
    [| |exact Hop].
  2:{ intros y.
      apply (stable_remove_unless_removed
               (λ g, get_operation_node g (operation_id y))).
      intros ? ? Hn. unfold get_operation_node. by rewrite Hn. }
  simpl in Hbody. unfold get_operation_node in Hbody.
  rewrite (grows_nodes_by_type _ _ Hg1), Hnode in Hbody. simpl in Hbody.
  eapply grows_removed; [exact Hg2|]. by eapply remove_unless_removed_Done.
Qed.

Lemma machine_nodes_step_complete t g g' machine_id node :
  machine_nodes_step (Ok t) g = Done g' →
  mjoin t !! machine_id = Some 1 →
  nodes_by_type g MACHINE !! machine_id = Some node →
  removed_nodes g' !! node_id node = Some true.
Proof.
  intros Hdone Hflag Hnode. unfold machine_nodes_step in Hdone.
  apply enumerate_lookup in Hflag.
  eapply for_each_Done_elem in Hdone as (g1 & g2 & Hbody & Hg1 & Hg2);
    [| |exact Hflag].
  2:{ intros [m v]. destruct (bool_decide (v = 1)); [|apply stable_Done].
      apply (stable_remove_unless_removed (λ g, get_machine_node g m)).
      intros ? ? Hn. unfold get_machine_node. by rewrite Hn. }
  simpl in Hbody. unfold get_machine_node in Hbody.
  rewrite (grows_nodes_by_type _ _ Hg1), Hnode in Hbody. simpl in Hbody.
  eapply grows_removed; [exact Hg2|]. by eapply remove_unless_removed_Done.
Qed.

Lemma job_nodes_step_complete t g g' job_id node :
  job_nodes_step (Ok t) g = Done g' →
  t !! job_id = Some [1] →
  nodes_by_type g JOB !! job_id = Some node →
  removed_nodes g' !! node_id node = Some true.
Proof.
  intros Hdone Hflag Hnode. unfold job_nodes_step in Hdone.
  apply enumerate_lookup in Hflag.
  eapply for_each_Done_elem in Hdone as (g1 & g2 & Hbody & Hg1 & Hg2);
    [| |exact Hflag].
  2:{ intros [j row].
      destruct (row_equals_one row) as [[|]|e];
        [|apply stable_Done|apply stable_Raised].
      apply (stable_remove_unless_removed (λ g, get_job_node g j)).
      intros ? ? Hn. unfold get_job_node. by rewrite Hn. }
  simpl in Hbody. unfold get_job_node in Hbody.
  rewrite (grows_nodes_by_type _ _ Hg1), Hnode in Hbody. simpl in Hbody.
  eapply grows_removed; [exact Hg2|]. by eapply remove_unless_removed_Done.
Qed.

Lemma guarded_step_grows (b : bool) step g g' :
  stable step → (if b then step g else Done g) = Done g' → grows g g'.
Proof.
  intros Hst H. destruct b; [|injection H as <-; apply grows_refl].
  pose proof (proj1 Hst g) as Hg. by rewrite H in Hg.
Qed.

(** A removal of a looked-up node keeps the nodes, and flags as removed at
    most the node it looked up. *)
Lemma remove_unless_removed_sound (P : nat → Prop) g0 (node : result Node) g :
  (∀ n, node = Ok n → P (node_id n)) →
  nodes_by_type g = nodes_by_type g0
  ∧ (∀ id, removed_nodes g !! id = Some true →
           removed_nodes g0 !! id = Some true ∨ P id) →
  nodes_by_type (final_state (remove_unless_removed node g)) = nodes_by_type g0
  ∧ (∀ id, removed_nodes (final_state (remove_unless_removed node g)) !! id
           = Some true →
           removed_nodes g0 !! id = Some true ∨ P id).
Proof.
  intros HP [Hnodes Hremoved]. unfold remove_unless_removed, is_removed.
  destruct node as [n|e]; [|done].
  destruct (removed_nodes g !! node_id n) as [[|]|] eqn:Hid; simpl; try done.
  split; [done|]. intros id Hlookup.
  destruct (decide (id = node_id n)) as [->|Hne]; [right; by apply HP|].
  rewrite list_lookup_insert_ne in Hlookup by done. by apply Hremoved.
Qed.

(** What [__init__] stores: the flags, the graph, and, with a flag set, a
    reference to an [IsCompletedObserver] among the subscribers that has the
    tables the flags ask for. *)
Lemma init_sets_the_reference d subs graph
    (is_singleton subscribe remove_machines remove_jobs : bool) self subs' :
  __init__ d subs graph is_singleton subscribe remove_machines remove_jobs
  = Ok (self, subs') →
  remove_completed_machine_nodes self = remove_machines
  ∧ remove_completed_job_nodes self = remove_jobs
  ∧ job_shop_graph self = graph
  ∧ (remove_machines = true ∨ remove_jobs = true →
     ∃ ref o,
       _is_completed_observer self = Some ref
       ∧ subs' !! ref = Some (IsCompleted o)
       ∧ (remove_machines = true → is_Some (features o !! MACHINES))
       ∧ (remove_jobs = true → is_Some (features o !! JOBS))).
Proof.
  unfold __init__, _initialize_is_completed_observer_attribute. simpl.
  intros Hinit.
  set (feature_types := (if remove_machines then [MACHINES] else [])
                        ++ (if remove_jobs then [JOBS] else [])) in *.
  destruct (decide (remove_machines = false ∧ remove_jobs = false))
    as [[-> ->]|Hsome].
  - simpl in Hinit.
    destruct (subscribe_updater _ _ _ _) as [subs1|]; simpl in Hinit; [|done].
    injection Hinit as <- <-. split_and!; try done. by intros [?|?].
  - assert (feature_types ≠ []) as Hne.
    { subst feature_types. destruct remove_machines, remove_jobs; try done.
      exfalso. by apply Hsome. }
    destruct feature_types as [|ft fts] eqn:Hfts; [done|]. rewrite <- Hfts in *.
    destruct (create_or_get_observer d subs _ feature_types)
      as [[ref subs1]|e] eqn:Hcreate; simpl in Hinit; [|done].
    destruct (subscribe_updater _ _ subs1 _) as [subs2|] eqn:Hsub;
      simpl in Hinit; [|done].
    injection Hinit as <- <-.
    destruct (create_or_get_observer_covers _ _ _ _ _ Hcreate)
      as (o & Hlookup & Hcovers).
    assert (subs2 !! ref = Some (IsCompleted o)) as Hlookup2.
    { unfold subscribe_updater in Hsub.
      destruct (negb subscribe); [by injection Hsub as <-|].
      destruct (is_singleton && _); [done|]. injection Hsub as <-.
      apply lookup_app_l_Some. done. }
    split_and!; try done.
    intros _. exists ref, o. split; [done|]. split; [done|].
    split; intros ->; apply Hcovers; unfold feature_types.
    + apply elem_of_app. left. apply elem_of_cons. by left.
    + apply elem_of_app. right. apply elem_of_cons. by left.
Qed.

Section Update_more.

Context (completed_operations : Dispatcher.state → list Operation).

(** X14: an [update] that returns has removed every node it is meant to
    remove: the node of every operation the engine reports as completed, and,
    when the updater removes machine or job nodes, the node of every machine
    and job whose flag is 1 in the tables of the completion observer. *)
Theorem update_removes_every_completed_node d subs
    (scheduled_operation : ScheduledOperation) self self' :
  update completed_operations d subs scheduled_operation self = Done self' →
  (∀ op node, op ∈ completed_operations d →
     nodes_by_type (job_shop_graph self) OPERATION !! operation_id op = Some node →
     removed_nodes (job_shop_graph self') !! node_id node = Some true)
  ∧ (remove_completed_machine_nodes self = true →
     ∀ t machine_id node,
       completion_table subs self MACHINES = Ok t →
       mjoin t !! machine_id = Some 1 →
       nodes_by_type (job_shop_graph self) MACHINE !! machine_id = Some node →
       removed_nodes (job_shop_graph self') !! node_id node = Some true)
  ∧ (remove_completed_job_nodes self = true →
     ∀ t job_id node,
       completion_table subs self JOBS = Ok t →
       t !! job_id = Some [1] →
       nodes_by_type (job_shop_graph self) JOB !! job_id = Some node →
       removed_nodes (job_shop_graph self') !! node_id node = Some true).
Proof.
  intros Hupd. rewrite update_on_graph in Hupd. unfold on_graph in Hupd.
  destruct (graph_update _ _ _ _ _ (job_shop_graph self)) as [g3|] eqn:Hstep;
    [|done].
  injection Hupd as <-. cbn [job_shop_graph with_graph].
  unfold graph_update in Hstep.
  destruct (remove_completed_operations _ _) as [g1|] eqn:H1; [|done].
  cbn [and_then] in Hstep.
  destruct (if remove_completed_machine_nodes self && _ then _ else _)
    as [g2|] eqn:H2; [|done].
  cbn [and_then] in Hstep.
  assert (grows (job_shop_graph self) g1) as Hg01.
  { pose proof (proj1 (stable_remove_completed_operations
                         (completed_operations d)) (job_shop_graph self)) as Hg.
    by rewrite H1 in Hg. }
  assert (grows g1 g2) as Hg12.
  { eapply guarded_step_grows; [|exact H2]. apply stable_machine_nodes_step. }
  assert (grows g2 g3) as Hg23.
  { eapply guarded_step_grows; [|exact Hstep]. apply stable_job_nodes_step. }
  split_and!.
  - intros op node Hop Hnode.
    eapply grows_removed; [exact Hg23|].
    eapply grows_removed; [exact Hg12|].
    by eapply remove_completed_operations_complete.
  - intros Hrm t machine_id node Ht Hflag Hnode.
    eapply grows_removed; [exact Hg23|].
    rewrite Hrm, Ht in H2. rewrite bool_decide_eq_true_2 in H2.
    + eapply machine_nodes_step_complete; [exact H2|done|].
      by rewrite (grows_nodes_by_type _ _ Hg01).
    + rewrite (grows_nodes_by_type _ _ Hg01). intros Hnil.
      by rewrite Hnil in Hnode.
  - intros Hrm t job_id node Ht Hflag Hnode.
    rewrite Hrm, Ht in Hstep. rewrite bool_decide_eq_true_2 in Hstep.
    + eapply job_nodes_step_complete; [exact Hstep|done|].
      by rewrite (grows_nodes_by_type _ _ Hg12), (grows_nodes_by_type _ _ Hg01).
    + rewrite (grows_nodes_by_type _ _ Hg12), (grows_nodes_by_type _ _ Hg01).
      intros Hnil. by rewrite Hnil in Hnode.
Qed.

(** X15: [update] changes nothing of the updater but its graph, keeps the
    nodes of the graph, and never clears a removed flag.  Whether it returns
    or raises, every node it has flagged as removed is the node of an
    operation the engine reports as completed, or, when the updater removes
    machine or job nodes, the node of a machine or job whose flag is 1 in the
    tables of the completion observer. *)
Theorem update_removes_only_completed_nodes d subs
    (scheduled_operation : ScheduledOperation) self :
  let self' :=
    final_state (update completed_operations d subs scheduled_operation self) in
  _is_completed_observer self' = _is_completed_observer self
  ∧ remove_completed_machine_nodes self' = remove_completed_machine_nodes self
  ∧ remove_completed_job_nodes self' = remove_completed_job_nodes self
  ∧ nodes_by_type (job_shop_graph self') = nodes_by_type (job_shop_graph self)
  ∧ (∀ id, removed_nodes (job_shop_graph self) !! id = Some true →
       removed_nodes (job_shop_graph self') !! id = Some true)
  ∧ (∀ id, removed_nodes (job_shop_graph self') !! id = Some true →
       removed_nodes (job_shop_graph self) !! id = Some true
       ∨ (∃ op node,
            op ∈ completed_operations d
            ∧ nodes_by_type (job_shop_graph self) OPERATION !! operation_id op
              = Some node
            ∧ node_id node = id)
       ∨ (remove_completed_machine_nodes self = true
          ∧ ∃ t machine_id node,
              completion_table subs self MACHINES = Ok t
              ∧ mjoin t !! machine_id = Some 1
              ∧ nodes_by_type (job_shop_graph self) MACHINE !! machine_id
                = Some node
              ∧ node_id node = id)
       ∨ (remove_completed_job_nodes self = true
          ∧ ∃ t job_id node,
              completion_table subs self JOBS = Ok t
              ∧ t !! job_id = Some [1]
              ∧ nodes_by_type (job_shop_graph self) JOB !! job_id = Some node
              ∧ node_id node = id)).
Proof.
  intros self'. subst self'. rewrite update_on_graph.
  set (g0 := job_shop_graph self).
  set (step := graph_update _ _ _ _ _).
  assert (∀ s, final_state (on_graph step s)
               = with_graph (final_state (step (job_shop_graph s))) s) as Hfinal.
  { intros s. unfold on_graph. by destruct (step (job_shop_graph s)). }
  rewrite Hfinal. cbn [with_graph _is_completed_observer
    remove_completed_machine_nodes remove_completed_job_nodes job_shop_graph].
  fold g0.
  pose proof (proj1 (stable_graph_update (completed_operations d)
                (remove_completed_machine_nodes self)
                (remove_completed_job_nodes self)
                (completion_table subs self MACHINES)
                (completion_table subs self JOBS)) g0) as Hgrows.
  fold step in Hgrows.
  split; [done|]. split; [done|]. split; [done|].
  split; [by apply grows_nodes_by_type|].
  split; [intros id; by apply grows_removed|].
  set (P := λ id : nat,
         (∃ op node,
            op ∈ completed_operations d
            ∧ nodes_by_type g0 OPERATION !! operation_id op = Some node
            ∧ node_id node = id)
         ∨ (remove_completed_machine_nodes self = true
            ∧ ∃ t machine_id node,
                completion_table subs self MACHINES = Ok t
                ∧ mjoin t !! machine_id = Some 1
                ∧ nodes_by_type g0 MACHINE !! machine_id = Some node
                ∧ node_id node = id)
         ∨ (remove_completed_job_nodes self = true
            ∧ ∃ t job_id node,
                completion_table subs self JOBS = Ok t
                ∧ t !! job_id = Some [1]
                ∧ nodes_by_type g0 JOB !! job_id = Some node
                ∧ node_id node = id)).
  set (I := λ g, nodes_by_type g = nodes_by_type g0
                 ∧ ∀ id, removed_nodes g !! id = Some true →
                         removed_nodes g0 !! id = Some true ∨ P id).
  assert (I (final_state (step g0))) as [_ HI]; [|exact HI].
  assert (I g0) as HI0. { split; [done|]. intros id Hid. by left. }
  unfold step, graph_update. rewrite !final_state_and_then.
  assert (∀ g, I g →
            I (final_state (remove_completed_operations
                              (completed_operations d) g))) as Hops.
  { intros g Hg. unfold remove_completed_operations.
    apply (for_each_invariant I); [|done].
    intros op g' Hop Hg'. apply remove_unless_removed_sound; [|done].
    intros n Hn. left. exists op, n. split; [done|]. split; [|done].
    unfold get_operation_node in Hn. destruct Hg' as [<- _].
    by destruct (nodes_by_type g' OPERATION !! operation_id op) as [?|];
      simplify_eq/=. }
  assert (∀ g, I g → remove_completed_machine_nodes self = true →
            I (final_state (machine_nodes_step
                              (completion_table subs self MACHINES) g)))
    as Hmachines.
  { intros g Hg Hrm. unfold machine_nodes_step.
    destruct (completion_table subs self MACHINES) as [t|e] eqn:Ht; [|done].
    apply (for_each_invariant I); [|done].
    intros [m v] g' Hmv%enumerate_lookup Hg'.
    destruct (bool_decide (v = 1)) eqn:Hv; [|done].
    apply bool_decide_eq_true in Hv as ->.
    apply remove_unless_removed_sound; [|done].
    intros n Hn. right. left. split; [done|]. exists t, m, n.
    split; [done|]. split; [done|]. split; [|done].
    unfold get_machine_node in Hn. destruct Hg' as [<- _].
    by destruct (nodes_by_type g' MACHINE !! m) as [?|]; simplify_eq/=. }
  assert (∀ g, I g → remove_completed_job_nodes self = true →
            I (final_state (job_nodes_step
                              (completion_table subs self JOBS) g)))
    as Hjobs.
  { intros g Hg Hrm. unfold job_nodes_step.
    destruct (completion_table subs self JOBS) as [t|e] eqn:Ht; [|done].
    apply (for_each_invariant I); [|done].
    intros [j row] g' Hrow%enumerate_lookup Hg'.
    destruct (row_equals_one row) as [[|]|e] eqn:Hone; [|done|done].
    assert (row = [1]) as ->.
    { unfold row_equals_one in Hone. destruct row as [|v [|? ?]]; try done.
      injection Hone as Hv. by apply bool_decide_eq_true in Hv as ->. }
    apply remove_unless_removed_sound; [|done].
    intros n Hn. right. right. split; [done|]. exists t, j, n.
    split; [done|]. split; [done|]. split; [|done].
    unfold get_job_node in Hn. destruct Hg' as [<- _].
    by destruct (nodes_by_type g' JOB !! j) as [?|]; simplify_eq/=. }
  specialize (Hops g0 HI0).
  destruct (remove_completed_operations (completed_operations d) g0)
    as [g1|e g1]; simpl in Hops; [|done].
  assert (I (final_state
               (if remove_completed_machine_nodes self
                   && bool_decide (nodes_by_type g1 MACHINE ≠ [])
                then machine_nodes_step (completion_table subs self MACHINES) g1
                else Done g1))) as Hstep2.
  { destruct (remove_completed_machine_nodes self) eqn:Hrm; [|done].
    destruct (bool_decide _); [|done]. by apply Hmachines. }
  simpl.
  destruct (if remove_completed_machine_nodes self && _ then _ else _)
    as [g2|e g2]; simpl in Hstep2; [|done].
  destruct (remove_completed_job_nodes self) eqn:Hrm; [|done].
  destruct (bool_decide _); [|done]. by apply Hjobs.
Qed.

(** X16: the constructor gives [update] what it needs.  For an updater that
    [__init__] has built, whatever its graph has become since, and for
    subscribers that still hold, in the same places, the completion observers
    of the time of the construction with at least the tables they had, the
    property [is_completed_observer] returns an observer that has the machines
    table when the updater removes machine nodes, and the jobs table when it
    removes job nodes: [_remove_completed_machine_nodes] and
    [_remove_completed_job_nodes] raise neither UninitializedAttributeError
    nor KeyError on the way to their table, and run their loop over it. *)
Theorem update_of_a_constructed_updater_reaches_its_observer d0 subs0 graph
    (is_singleton subscribe remove_machines remove_jobs : bool) self subs1
    subs g :
  __init__ d0 subs0 graph is_singleton subscribe remove_machines remove_jobs
  = Ok (self, subs1) →
  (∀ ref o, subs1 !! ref = Some (IsCompleted o) →
     ∃ o', subs !! ref = Some (IsCompleted o')
           ∧ ∀ ft, is_Some (features o !! ft) → is_Some (features o' !! ft)) →
  (remove_machines = true →
   ∃ ref o t,
     is_completed_observer (with_graph g self) = Ok ref
     ∧ subs !! ref = Some (IsCompleted o)
     ∧ features o !! MACHINES = Some t
     ∧ completion_table subs (with_graph g self) MACHINES = Ok t
     ∧ _remove_completed_machine_nodes subs (with_graph g self)
       = on_graph (machine_nodes_step (Ok t)) (with_graph g self))
  ∧ (remove_jobs = true →
     ∃ ref o t,
       is_completed_observer (with_graph g self) = Ok ref
       ∧ subs !! ref = Some (IsCompleted o)
       ∧ features o !! JOBS = Some t
       ∧ completion_table subs (with_graph g self) JOBS = Ok t
       ∧ _remove_completed_job_nodes subs (with_graph g self)
         = on_graph (job_nodes_step (Ok t)) (with_graph g self)).
Proof.
  intros Hinit Hsubs.
  destruct (init_sets_the_reference _ _ _ _ _ _ _ _ _ Hinit)
    as (HrM & HrJ & _ & Href).
  assert (∀ ft, (∃ ref o o', _is_completed_observer self = Some ref
                  ∧ subs !! ref = Some (IsCompleted o')
                  ∧ subs1 !! ref = Some (IsCompleted o)
                  ∧ is_Some (features o' !! ft)) →
            ∃ ref o t,
              is_completed_observer (with_graph g self) = Ok ref
              ∧ subs !! ref = Some (IsCompleted o)
              ∧ features o !! ft = Some t
              ∧ completion_table subs (with_graph g self) ft = Ok t) as Hread.
  { intros ft (ref & o & o' & Hr & Ho' & _ & [t Ht]). exists ref, o', t.
    unfold completion_table, is_completed_observer, observer_at.
    cbn [with_graph _is_completed_observer]. rewrite Hr. simpl.
    rewrite Ho'. simpl. by rewrite Ht. }
  split; intros ->.
  - destruct Href as (ref & o & Hr & Ho & HM & _); [by left|].
    destruct (Hsubs ref o Ho) as (o' & Ho' & Hcov).
    destruct (Hread MACHINES) as (ref' & o2 & t & H1 & H2 & H3 & H4).
    { exists ref, o, o'. split_and!; try done. by apply Hcov, HM. }
    exists ref', o2, t. split_and!; try done.
    unfold _remove_completed_machine_nodes. by rewrite H4.
  - destruct Href as (ref & o & Hr & Ho & _ & HJ); [by right|].
    destruct (Hsubs ref o Ho) as (o' & Ho' & Hcov).
    destruct (Hread JOBS) as (ref' & o2 & t & H1 & H2 & H3 & H4).
    { exists ref, o, o'. split_and!; try done. by apply Hcov, HJ. }
    exists ref', o2, t. split_and!; try done.
    unfold _remove_completed_job_nodes. by rewrite H4.
Qed.

(** X22: the removal flags are plain attributes, and [update] trusts them.  On
    an updater without a completion observer, as one built with both flags
    off, a flag that is on makes [update] raise UninitializedAttributeError as
    soon as the graph has nodes of that type; the nodes of the completed
    operations have been removed by then and stay removed. *)
Theorem update_without_observer_raises d subs
    (scheduled_operation : ScheduledOperation) self g1 :
  _is_completed_observer self = None →
  remove_completed_operations (completed_operations d) (job_shop_graph self)
  = Done g1 →
  remove_completed_machine_nodes self = true
  ∧ nodes_by_type (job_shop_graph self) MACHINE ≠ []
  ∨ remove_completed_job_nodes self = true
    ∧ nodes_by_type (job_shop_graph self) JOB ≠ [] →
  update completed_operations d subs scheduled_operation self
  = Raised UninitializedAttributeError (with_graph g1 self).
Proof.
  intros Hnone H1 Hflag. rewrite update_on_graph. unfold on_graph, graph_update.
  rewrite H1. cbn [and_then].
  assert (nodes_by_type g1 = nodes_by_type (job_shop_graph self)) as Hnodes.
  { apply grows_nodes_by_type.
    pose proof (proj1 (stable_remove_completed_operations
                         (completed_operations d)) (job_shop_graph self)) as Hg.
    by rewrite H1 in Hg. }
  assert (∀ ft, completion_table subs self ft = Raise UninitializedAttributeError)
    as Htable.
  { intros ft. unfold completion_table, is_completed_observer.
    by rewrite Hnone. }
  rewrite !Htable, Hnodes.
  destruct (remove_completed_machine_nodes self) eqn:HrM;
    destruct (bool_decide (nodes_by_type (job_shop_graph self) MACHINE ≠ []))
      eqn:HnM; simpl; try done;
    rewrite Hnodes;
    destruct Hflag as [[? HM]|[-> HJ]]; try done;
    try (by apply bool_decide_eq_false in HnM);
    by rewrite bool_decide_eq_true_2.
Qed.

End Update_more.

End ResidualGraphUpdater_more.

(** The updater of the scenario on the engine after both commits, with the
    completion observer as the commits left it: machine 1 and job 1 are
    flagged, and [opB] is reported as completed. *)
Lemma update_removes_every_completed_node_witness :
  ∃ self',
    ResidualGraphUpdater.update (λ _, [Example.opB]) Scenario.after_A_B
      [IsCompleted Scenario.late_observer_after_B] Scenario.scheduled_B
      Scenario.updater = Done self'
    ∧ removed_nodes (job_shop_graph self') !! 1%nat = Some true
    ∧ removed_nodes (job_shop_graph self') !! 3%nat = Some true
    ∧ removed_nodes (job_shop_graph self') !! 5%nat = Some true.
Proof.
  destruct (ResidualGraphUpdater.update (λ _, [Example.opB]) Scenario.after_A_B
              [IsCompleted Scenario.late_observer_after_B] Scenario.scheduled_B
              Scenario.updater) as [self'|e self'] eqn:Hupd;
    [|vm_compute in Hupd; discriminate].
  destruct (update_removes_every_completed_node _ _ _ _ _ _ Hupd)
    as (Hops & Hmachines & Hjobs).
  exists self'. split; [reflexivity|]. split_and!.
  - apply (Hops Example.opB {| node_id := 1; node_type := OPERATION |});
      [apply elem_of_cons; by left|reflexivity].
  - apply (Hmachines eq_refl [[0]; [1]] 1%nat
             {| node_id := 3; node_type := MACHINE |}); reflexivity.
  - apply (Hjobs eq_refl [[0]; [1]] 1%nat
             {| node_id := 5; node_type := JOB |}); reflexivity.
Defined.

(** The updater the constructor builds on the fresh engine over [one_each],
    beside the completion observer it has created, as [opA] is committed. *)
Lemma update_of_a_constructed_updater_reaches_its_observer_witness :
  ResidualGraphUpdater.completion_table
    [IsCompleted Scenario.fresh_observer; ResidualGraph Scenario.updater]
    (ResidualGraphUpdater.with_graph Scenario.graph Scenario.updater) MACHINES
  = Ok [[0]; [0]]
  ∧ ResidualGraphUpdater.completion_table
      [IsCompleted Scenario.fresh_observer; ResidualGraph Scenario.updater]
      (ResidualGraphUpdater.with_graph Scenario.graph Scenario.updater) JOBS
    = Ok [[0]; [0]].
Proof.
  assert (ResidualGraphUpdater.__init__ (Dispatcher.new Example.one_each) []
            Scenario.graph false true true true
          = Ok (Scenario.updater,
                [IsCompleted Scenario.fresh_observer;
                 ResidualGraph Scenario.updater])) as Hinit.
  { vm_compute. reflexivity. }
  destruct (update_of_a_constructed_updater_reaches_its_observer _ _ _ _ _ _ _
              _ _
              [IsCompleted Scenario.fresh_observer; ResidualGraph Scenario.updater]
              Scenario.graph Hinit
              (λ ref o Ho, ex_intro _ o (conj Ho (λ ft H, H))))
    as [HM HJ].
  destruct (HM eq_refl) as (refM & oM & tM & _ & HoM & HtM & HtableM & _).
  destruct (HJ eq_refl) as (refJ & oJ & tJ & _ & HoJ & HtJ & HtableJ & _).
  split.
  - rewrite HtableM. pose proof HtableM as H. vm_compute in H.
    by injection H as <-.
  - rewrite HtableJ. pose proof HtableJ as H. vm_compute in H.
    by injection H as <-.
Defined.

(** The updater of the scenario without its observer: [opA] is removed, and
    the update then fails on the machine nodes. *)
Lemma update_without_observer_raises_witness :
  ∃ g1,
    ResidualGraphUpdater.update (λ _, [Example.opA]) Scenario.after_A []
      Scenario.scheduled_A Scenario.switched_on_updater
    = Raised UninitializedAttributeError
        (ResidualGraphUpdater.with_graph g1 Scenario.switched_on_updater)
    ∧ removed_nodes g1 !! 0%nat = Some true.
Proof.
  eexists. split.
  - apply (update_without_observer_raises (λ _, [Example.opA]) Scenario.after_A
             [] Scenario.scheduled_A Scenario.switched_on_updater _ eq_refl);
      [vm_compute; reflexivity|].
    left. split; [reflexivity|done].
  - reflexivity.
Defined.

(** ** The factory of the feature observers *)

Section factory_facts.

Import factory.

(** X17: [feature_observer_factory] builds an observer of the class its
    dictionary gives for every member of [FeatureObserverType] but
    [COMPOSITE], which the dictionary does not hold: for it the factory raises
    KeyError before any class is called.  [TIME_TO_BE_READY] and
    [EARLIEST_START_TIME] build the same class. *)
Theorem feature_observer_factory_misses_composite {A}
    (construct : observer_class → result A) (ty : FeatureObserverType) :
  feature_observer_factory construct COMPOSITE = Raise KeyError
  ∧ (ty ≠ COMPOSITE →
     ∃ feature_creator,
       (ty, feature_creator) ∈ mapping
       ∧ feature_observer_factory construct ty = construct feature_creator)
  ∧ feature_observer_factory construct TIME_TO_BE_READY
    = construct EarliestStartTimeObserver
  ∧ feature_observer_factory construct EARLIEST_START_TIME
    = construct EarliestStartTimeObserver.
Proof.
  split_and!; [done| |done|done].
  intros Hne. destruct ty; try done; eexists; (split; [|reflexivity]);
    unfold mapping; rewrite !elem_of_cons; tauto.
Qed.

End factory_facts.

(** ** The order of the frames of a GIF *)

Section create_gif_facts.

Import create_gif.

Lemma ascii_compare_Lt a b :
  Ascii.compare a b = Lt ↔ (Ascii.N_of_ascii a < Ascii.N_of_ascii b)%N.
Proof. unfold Ascii.compare. apply N.compare_lt_iff. Qed.

Lemma ascii_compare_Gt a b :
  Ascii.compare a b = Gt ↔ (Ascii.N_of_ascii b < Ascii.N_of_ascii a)%N.
Proof. unfold Ascii.compare. apply N.compare_gt_iff. Qed.

Lemma string_compare_trans_not_Gt s1 : ∀ s2 s3,
  String.compare s1 s2 ≠ Gt → String.compare s2 s3 ≠ Gt →
  String.compare s1 s3 ≠ Gt.
Proof.
  induction s1 as [|c1 s1 IH]; intros [|c2 s2] [|c3 s3]; simpl; try done.
  destruct (Ascii.compare c1 c2) eqn:H12; [| |done];
    destruct (Ascii.compare c2 c3) eqn:H23; try done.
  - apply Ascii.compare_eq_iff in H12 as ->.
    apply Ascii.compare_eq_iff in H23 as ->.
    destruct (Ascii.compare c3 c3) eqn:H33; [apply IH|done|].
    apply (proj1 (ascii_compare_Gt _ _)) in H33. exfalso. lia.
  - apply Ascii.compare_eq_iff in H12 as ->. by rewrite H23.
  - apply Ascii.compare_eq_iff in H23 as <-. by rewrite H12.
  - intros _ _. apply (proj1 (ascii_compare_Lt _ _)) in H12.
    apply (proj1 (ascii_compare_Lt _ _)) in H23.
    destruct (Ascii.compare c1 c3) eqn:H13; [|done|].
    + apply Ascii.compare_eq_iff in H13 as ->. exfalso. lia.
    + apply (proj1 (ascii_compare_Gt _ _)) in H13. exfalso. lia.
Qed.

Lemma str_le_trans : Transitive str_le.
Proof.
  intros s1 s2 s3. unfold str_le, String.leb. intros H12 H23.
  pose proof (string_compare_trans_not_Gt s1 s2 s3) as H.
  destruct (String.compare s1 s2); try done;
    destruct (String.compare s2 s3); try done;
    destruct (String.compare s1 s3); try done; by exfalso; apply H.
Qed.

Lemma str_le_total : Total str_le.
Proof. intros s1 s2. apply String.leb_total. Qed.

Lemma str_le_antisymm : AntiSymm (=) str_le.
Proof. intros s1 s2. apply String.leb_antisym. Qed.

(** A listing of files that are in order when taken in a given sequence is
    sorted into that sequence. *)
Lemma sorted_unique listing l :
  StronglySorted str_le l → listing ≡ₚ l → sorted listing = l.
Proof.
  intros Hl Hperm.
  pose proof str_le_trans. pose proof str_le_total. pose proof str_le_antisymm.
  apply (StronglySorted_unique str_le); [|done|].
  - by apply StronglySorted_merge_sort.
  - unfold sorted. by rewrite merge_sort_Permutation.
Qed.

Lemma saved_frames_app n k :
  saved_frames (n + k) = saved_frames n ++ (frame_file <$> seq (1 + n) k).
Proof. unfold saved_frames. by rewrite seq_app, fmap_app. Qed.

Lemma saved_frames_99_sorted : StronglySorted str_le (saved_frames 99).
Proof. apply (bool_decide_unpack _). by vm_compute. Qed.

Lemma saved_frames_100_not_sorted : ¬ StronglySorted str_le (saved_frames 100).
Proof.
  intros H. apply (bool_decide_pack _) in H. vm_compute in H. exact H.
Qed.

(** X18: the frames enter the GIF in the order in which they were produced
    exactly when there are fewer than 100 of them.  [create_gif_from_frames]
    reads the files of the directory in the order of their names, and the
    names, numbered with two digits, are in the order of the iterations up to
    frame 99 only: frame_100.png sorts before frame_11.png. *)
Theorem frames_are_read_in_order_iff_fewer_than_100 n listing :
  listing ≡ₚ saved_frames n →
  sorted listing = saved_frames n ↔ (n < 100)%nat.
Proof.
  intros Hperm. split.
  - intros Hsorted. destruct (decide (n < 100)%nat) as [|Hge]; [done|].
    exfalso. apply saved_frames_100_not_sorted.
    assert (StronglySorted str_le (saved_frames n)) as Hn.
    { rewrite <- Hsorted. pose proof str_le_trans. pose proof str_le_total.
      by apply StronglySorted_merge_sort. }
    replace n with (100 + (n - 100))%nat in Hn by lia.
    rewrite saved_frames_app in Hn. by apply StronglySorted_app_1_l in Hn.
  - intros Hlt. apply sorted_unique; [|done].
    pose proof saved_frames_99_sorted as H99.
    replace 99%nat with (n + (99 - n))%nat in H99 by lia.
    rewrite saved_frames_app in H99. by apply StronglySorted_app_1_l in H99.
Qed.

End create_gif_facts.

(** Three frames, listed by the directory in another order. *)
Lemma frames_are_read_in_order_iff_fewer_than_100_witness :
  create_gif.sorted
    [create_gif.frame_file 2; create_gif.frame_file 3; create_gif.frame_file 1]
  = create_gif.saved_frames 3.
Proof.
  apply (frames_are_read_in_order_iff_fewer_than_100 3); [|lia].
  unfold create_gif.saved_frames. simpl.
  etrans; [apply perm_skip, perm_swap|apply perm_swap].
Defined.
